(** * Job scheduling: list scheduler, genetic optimizers, backtracking search

    A shallow embedding of the three Python programs of the repository:
    - [Backtracking.py]: class [JobScheduler] with Kahn's topological sort
      and the greedy list scheduler [schedule_jobs];
    - [GeneticAlgorithm.py]: the same class with [evaluate_schedule],
      [genetic_algorithm] and the placement [schedule_jobs(order)];
    - [main.py]: a second genetic variant over job tuples and the
      backtracking search over start times.

    Python integers are [Z]; dictionaries whose iteration order is never
    observed are [gmap]s, the [jobs] dictionary (iterated to seed Kahn's
    queue) is an insertion-ordered association list; a raised exception is
    a value of [outcome]. Integers and the call stack are unbounded: the
    interpreter's recursion limit is not modelled. *)

From stdpp Require Import base gmap list strings.
From Stdlib Require Import ZArith Lia.
Local Open Scope Z_scope.

(** ** Python exceptions and results *)

(** [OutOfFuel] is not a Python exception: it marks that the bound given to
    the model of a [while] loop was reached. [topological_sort_fuel] and
    [crossover_loop_fuel] show that the bounds used for Kahn's loop and for
    the crossover loop are never reached. *)
Inductive exn : Type :=
| KeyError
| ValueError
| IndexError
| OutOfFuel.

Inductive outcome (A : Type) : Type :=
| Ret (a : A)
| Raise (e : exn).
Arguments Ret {A} a.
Arguments Raise {A} e.

Definition bind {A B : Type} (m : outcome A) (k : A → outcome B) : outcome B :=
  match m with
  | Ret a => k a
  | Raise e => Raise e
  end.

Notation "'let*' x := m 'in' k" := (bind m (λ x, k))
  (at level 10, x pattern, m at level 100, k at level 200).

(** [d[k]] on a dictionary: [KeyError] when the key is absent. *)
Definition getitem `{Countable K} {V : Type} (d : gmap K V) (k : K) : outcome V :=
  match d !! k with
  | Some v => Ret v
  | None => Raise KeyError
  end.

(** ** Insertion-ordered dictionaries (the [jobs] dictionary) *)

Section odict.
Context {K V : Type} `{EqDecision K}.

(** [d[k] = v]: an existing key keeps its position and takes the new
    value, a new key goes last. *)
Fixpoint od_set (k : K) (v : V) (d : list (K * V)) : list (K * V) :=
  match d with
  | [] => [(k, v)]
  | (k', v') :: d' =>
      if decide (k = k') then (k, v) :: d' else (k', v') :: od_set k v d'
  end.

Fixpoint od_get (d : list (K * V)) (k : K) : outcome V :=
  match d with
  | [] => Raise KeyError
  | (k', v') :: d' => if decide (k = k') then Ret v' else od_get d' k
  end.

Definition od_keys (d : list (K * V)) : list K := d.*1.
End odict.

(** ** Python list operations *)

(** [l[:k]]: a negative bound counts from the end. *)
Definition slice_to {A : Type} (l : list A) (k : Z) : list A :=
  if decide (k < 0) then take (Z.to_nat (Z.of_nat (length l) + k)) l
  else take (Z.to_nat k) l.

(** [l[i]] for a non-negative index. *)
Definition list_get {A : Type} (l : list A) (i : nat) : outcome A :=
  match l !! i with
  | Some x => Ret x
  | None => Raise IndexError
  end.

(** [l[i], l[j] = l[j], l[i]]: the right-hand side is read first, then
    [l[i]] and [l[j]] are stored in this order. *)
Definition swap {A : Type} (l : list A) (i j : nat) : outcome (list A) :=
  let* x := list_get l j in
  let* y := list_get l i in
  Ret (<[j := y]> (<[i := x]> l)).

(** [max(values)]: [ValueError] on an empty sequence. *)
Definition py_max (l : list Z) : outcome Z :=
  match l with
  | [] => Raise ValueError
  | x :: l' => Ret (foldl Z.max x l')
  end.

(** [parent1[:point] + [job for job in parent2 if job not in parent1[:point]]],
    the crossover expression of both genetic programs. *)
Definition crossover_child {A : Type} `{EqDecision A}
    (parent1 parent2 : list A) (point : Z) : list A :=
  slice_to parent1 point ++ filter (λ job, job ∉ slice_to parent1 point) parent2.

(** [sorted]: Python's sort is stable and compares with [<] only. Elements
    are inserted one by one, each after every element it is not less than. *)
Fixpoint insert_sorted {A : Type} (lt : A → A → bool) (x : A) (l : list A) : list A :=
  match l with
  | [] => [x]
  | y :: l' => if lt x y then x :: y :: l' else y :: insert_sorted lt x l'
  end.

Definition sorted {A : Type} (lt : A → A → bool) (l : list A) : list A :=
  foldl (λ acc x, insert_sorted lt x acc) [] l.

(** [min(l, key=...)] on the list of (key, element) pairs: the first element
    whose key is least; [ValueError] on an empty list. *)
Fixpoint first_min {K A : Type} (lt : K → K → bool) (best : K * A)
    (l : list (K * A)) : A :=
  match l with
  | [] => best.2
  | x :: l' => first_min lt (if lt x.1 best.1 then x else best) l'
  end.

Definition py_min {K A : Type} (lt : K → K → bool) (l : list (K * A)) : outcome A :=
  match l with
  | [] => Raise ValueError
  | x :: l' => Ret (first_min lt x l')
  end.

(** [[f(x) for x in l]] when [f] may raise. *)
Fixpoint map_outcome {A B : Type} (f : A → outcome B) (l : list A) : outcome (list B) :=
  match l with
  | [] => Ret []
  | x :: l' =>
      let* y := f x in
      let* ys := map_outcome f l' in
      Ret (y :: ys)
  end.

(** ** The module [random]

    The generator is a tape of numbers read left to right (an exhausted tape
    reads 0). Every result the library can produce is produced by some tape,
    so what holds for all tapes holds for every run. *)

Definition rand (A : Type) : Type := list N → outcome (A * list N).

Definition rret {A : Type} (a : A) : rand A := λ t, Ret (a, t).

Definition rbind {A B : Type} (m : rand A) (k : A → rand B) : rand B :=
  λ t, match m t with
       | Ret (a, t') => k a t'
       | Raise e => Raise e
       end.

Definition rraise {A : Type} (e : exn) : rand A := λ _, Raise e.

Definition lift {A : Type} (o : outcome A) : rand A :=
  λ t, match o with
       | Ret a => Ret (a, t)
       | Raise e => Raise e
       end.

Notation "'let!' x := m 'in' k" := (rbind m (λ x, k))
  (at level 10, x pattern, m at level 100, k at level 200).

Definition draw : rand N :=
  λ t, match t with
       | [] => Ret (0%N, [])
       | n :: t' => Ret (n, t')
       end.

(** [random.randint(a, b)]: an integer of [a..b], [ValueError] when [b < a]. *)
Definition randint (a b : Z) : rand Z :=
  if decide (b < a) then rraise ValueError
  else let! n := draw in rret (a + Z.of_N n mod (b - a + 1)).

(** [random.sample(pool, k)]: [k] elements at distinct positions, in the
    order drawn; [ValueError] when [k] exceeds the length. *)
Fixpoint sample_from {A : Type} (pool : list A) (k : nat) : rand (list A) :=
  match k with
  | O => rret []
  | S k' =>
      let! n := draw in
      let i := N.to_nat (n mod N.of_nat (length pool)) in
      match pool !! i with
      | Some x => let! rest := sample_from (delete i pool) k' in rret (x :: rest)
      | None => rraise ValueError
      end
  end.

Definition random_sample {A : Type} (pool : list A) (k : nat) : rand (list A) :=
  if decide (k ≤ length pool)%nat then sample_from pool k else rraise ValueError.

(** [random.random() < rate]: [random()] is [k / 2^53] for a 53-bit [k],
    and a float rate is the rational [num / den], compared exactly. *)
Definition random_below (num : Z) (den : positive) : rand bool :=
  let! n := draw in
  rret (bool_decide (Z.of_N n mod 2 ^ 53 * Z.pos den < num * 2 ^ 53)).

(** [[f() for _ in range(n)]] *)
Fixpoint repeat_rand {A : Type} (n : nat) (f : rand A) : rand (list A) :=
  match n with
  | O => rret []
  | S n' => let! x := f in let! xs := repeat_rand n' f in rret (x :: xs)
  end.

(** ** The class [JobScheduler] shared by Backtracking.py and GeneticAlgorithm.py

    [Job], [Machine], [JobScheduler.__init__], [_build_graph] and
    [topological_sort] are the same text in both files. *)

Module Scheduler.

Record Job : Type := {
  job_id : Z;
  processing_time : Z;
  required_machines : list string
}.

Record Machine : Type := {
  name : string;
  capacity : Z
}.

Record JobScheduler : Type := {
  jobs : list (Z * Job);
  dependencies : list (Z * Z);
  machines : gmap string Machine;
  schedule : gmap Z (Z * list string);
  graph : gmap Z (list Z);
  in_degree : gmap Z Z;
  start_times : gmap Z Z
}.

Definition set_graph_in_degree (self : JobScheduler)
    (g : gmap Z (list Z)) (d : gmap Z Z) : JobScheduler :=
  {| jobs := jobs self; dependencies := dependencies self;
     machines := machines self; schedule := schedule self;
     graph := g; in_degree := d; start_times := start_times self |}.

Definition set_schedule (self : JobScheduler)
    (s : gmap Z (Z * list string)) (t : gmap Z Z) : JobScheduler :=
  {| jobs := jobs self; dependencies := dependencies self;
     machines := machines self; schedule := s;
     graph := graph self; in_degree := in_degree self; start_times := t |}.

(** [self.graph[u]] on the [defaultdict(list)]. Reading an absent key also
    stores the empty list under it; nothing in the program enumerates the
    keys of [graph], so the read is modelled by its value. *)
Definition graph_get (g : gmap Z (list Z)) (u : Z) : list Z :=
  default [] (g !! u).

(** [for u, v in self.dependencies: self.graph[u].append(v);
     self.in_degree[v] += 1] *)
Fixpoint build_edges (deps : list (Z * Z)) (g : gmap Z (list Z))
    (d : gmap Z Z) : outcome (gmap Z (list Z) * gmap Z Z) :=
  match deps with
  | [] => Ret (g, d)
  | (u, v) :: deps' =>
      let g' := <[u := graph_get g u ++ [v]]> g in
      let* n := getitem d v in
      build_edges deps' g' (<[v := n + 1]> d)
  end.

Definition _build_graph (self : JobScheduler) : outcome JobScheduler :=
  let* (g, d) := build_edges (dependencies self) (graph self) (in_degree self) in
  Ret (set_graph_in_degree self g d).

(** [JobScheduler(jobs, dependencies, machines)] *)
Definition init (js : list Job) (deps : list (Z * Z)) (ms : list Machine)
    : outcome JobScheduler :=
  let self_jobs := foldl (λ d job, od_set (job_id job) job d) [] js in
  _build_graph
    {| jobs := self_jobs;
       dependencies := deps;
       machines := foldl (λ d m, <[name m := m]> d) ∅ ms;
       schedule := ∅;
       graph := ∅;
       in_degree := list_to_map ((λ k, (k, 0)) <$> od_keys self_jobs);
       start_times := ∅ |}.

(** [[job_id for job_id in self.jobs if self.in_degree[job_id] == 0]] *)
Fixpoint initial_queue (ids : list Z) (d : gmap Z Z) : outcome (list Z) :=
  match ids with
  | [] => Ret []
  | j :: ids' =>
      let* n := getitem d j in
      let* q := initial_queue ids' d in
      Ret (if decide (n = 0) then j :: q else q)
  end.

(** [for v in self.graph[u]: self.in_degree[v] -= 1;
     if self.in_degree[v] == 0: queue.append(v)] *)
Fixpoint relax (vs : list Z) (d : gmap Z Z) (queue : list Z)
    : outcome (gmap Z Z * list Z) :=
  match vs with
  | [] => Ret (d, queue)
  | v :: vs' =>
      let* n := getitem d v in
      let d' := <[v := n - 1]> d in
      if decide (n - 1 = 0) then relax vs' d' (queue ++ [v])
      else relax vs' d' queue
  end.

(** [while queue: u = queue.popleft(); topo_order.append(u); ...] *)
Fixpoint kahn_loop (fuel : nat) (g : gmap Z (list Z)) (queue : list Z)
    (d : gmap Z Z) (topo_order : list Z) : outcome (list Z * gmap Z Z) :=
  match queue with
  | [] => Ret (topo_order, d)
  | u :: queue' =>
      match fuel with
      | O => Raise OutOfFuel
      | S fuel' =>
          let* (d', queue'') := relax (graph_get g u) d queue' in
          kahn_loop fuel' g queue'' d' (topo_order ++ [u])
      end
  end.

(** The loop pops each job at most once: a bound that always suffices. *)
Definition kahn_fuel (self : JobScheduler) : nat :=
  (length (jobs self) + size (in_degree self))%nat.

Definition topological_sort (self : JobScheduler)
    : outcome (list Z * JobScheduler) :=
  let* queue := initial_queue (od_keys (jobs self)) (in_degree self) in
  let* (topo_order, d) :=
    kahn_loop (kahn_fuel self) (graph self) queue (in_degree self) [] in
  Ret (if decide (length topo_order = length (jobs self)) then topo_order else [],
       set_graph_in_degree self (graph self) d).

(** [for machine in job.required_machines:
       start_time = max(start_time, machine_usage[machine])] *)
Fixpoint earliest_start (usage : gmap string Z) (ms : list string)
    (start_time : Z) : outcome Z :=
  match ms with
  | [] => Ret start_time
  | m :: ms' =>
      let* u := getitem usage m in
      earliest_start usage ms' (Z.max start_time u)
  end.

(** [for machine in job.required_machines:
       machine_usage[machine] = start_time + job.processing_time] *)
Definition occupy (usage : gmap string Z) (ms : list string) (t : Z)
    : gmap string Z :=
  foldl (λ u m, <[m := t]> u) usage ms.

(** [{machine: 0 for machine in self.machines}] *)
Definition fresh_usage (self : JobScheduler) : gmap string Z :=
  (λ _, 0) <$> machines self.

(** The placement loop [for job_id in order: ...] that [schedule_jobs] of
    both files runs, writing [self.schedule] and [self.start_times]. *)
Fixpoint place_jobs (self_jobs : list (Z * Job)) (order : list Z)
    (usage : gmap string Z) (sched : gmap Z (Z * list string))
    (starts : gmap Z Z)
    : outcome (gmap string Z * gmap Z (Z * list string) * gmap Z Z) :=
  match order with
  | [] => Ret (usage, sched, starts)
  | j :: order' =>
      let* job := od_get self_jobs j in
      let* start_time := earliest_start usage (required_machines job) 0 in
      let usage' :=
        occupy usage (required_machines job) (start_time + processing_time job) in
      place_jobs self_jobs order' usage'
        (<[j := (start_time, required_machines job)]> sched)
        (<[j := start_time]> starts)
  end.

End Scheduler.

(** ** Backtracking.py: the list scheduler *)

Module Backtracking.
Import Scheduler.

(** What [schedule_jobs] returns: the empty list when there is no
    topological order, [self.schedule] otherwise. *)
Inductive schedule_result : Type :=
| NoOrder
| Schedule (s : gmap Z (Z * list string)).

Definition schedule_jobs (self : JobScheduler)
    : outcome (schedule_result * JobScheduler) :=
  let* (topo_order, self1) := topological_sort self in
  match topo_order with
  | [] => Ret (NoOrder, self1)
  | _ :: _ =>
      let* (_, sched, starts) :=
        place_jobs (jobs self1) topo_order (fresh_usage self1)
                   (schedule self1) (start_times self1) in
      Ret (Schedule sched, set_schedule self1 sched starts)
  end.

(** [JobSchedulerGUI.show_gantt_chart]: a scheduler is built from the
    lists the user entered and asked for its schedule. *)
Definition run_list_schedule (js : list Job) (deps : list (Z * Z))
    (ms : list Machine) : outcome schedule_result :=
  let* self := init js deps ms in
  let* (r, _) := schedule_jobs self in
  Ret r.

(** Completion time of the schedule: the latest [start + processing_time]. *)
Definition makespan (js : list Job) (s : gmap Z (Z * list string)) : Z :=
  foldr Z.max 0
    ((λ job, match s !! job_id job with
             | Some (t, _) => t + processing_time job
             | None => 0
             end) <$> js).

End Backtracking.

(** ** GeneticAlgorithm.py: the permutation-based genetic optimizer *)

Module GeneticAlgorithm.
Import Scheduler.

(** A fitness value: an integer makespan or [float('inf')]. *)
Inductive fitness : Type :=
| Finite (makespan : Z)
| Infinity.

#[global] Instance fitness_eq_dec : EqDecision fitness.
Proof. solve_decision. Defined.

Definition fitness_lt (a b : fitness) : bool :=
  match a, b with
  | Finite x, Finite y => bool_decide (x < y)
  | Finite _, Infinity => true
  | Infinity, _ => false
  end.

(** [<] on lists of integers: lexicographic. *)
Fixpoint list_lt (a b : list Z) : bool :=
  match a, b with
  | [], [] => false
  | [], _ :: _ => true
  | _ :: _, [] => false
  | x :: a', y :: b' =>
      if decide (x = y) then list_lt a' b' else bool_decide (x < y)
  end.

(** [<] on the tuples [(fitness, individual)] that [sorted(zip(..))] compares. *)
Definition scored_lt (a b : fitness * list Z) : bool :=
  if decide (a.1 = b.1) then list_lt a.2 b.2 else fitness_lt a.1 b.1.

(** [for dependency in self.graph[job_id]:
       if dependency not in job_start_times: return float('inf')] *)
Definition dependencies_placed (g : gmap Z (list Z)) (job_id : Z)
    (job_start_times : gmap Z Z) : bool :=
  forallb (λ dependency, bool_decide (is_Some (job_start_times !! dependency)))
          (graph_get g job_id).

(** The loop of [evaluate_schedule]; [None] is the early [return float('inf')],
    [Some usage] the machine usage after the whole order. *)
Fixpoint evaluate_loop (self : JobScheduler) (order : list Z)
    (usage : gmap string Z) (job_start_times : gmap Z Z)
    : outcome (option (gmap string Z)) :=
  match order with
  | [] => Ret (Some usage)
  | j :: order' =>
      let* job := od_get (jobs self) j in
      if dependencies_placed (graph self) j job_start_times then
        let* start_time := earliest_start usage (required_machines job) 0 in
        evaluate_loop self order'
          (occupy usage (required_machines job) (start_time + processing_time job))
          (<[j := start_time]> job_start_times)
      else Ret None
  end.

Definition evaluate_schedule (self : JobScheduler) (order : list Z)
    : outcome fitness :=
  let* r := evaluate_loop self order (fresh_usage self) ∅ in
  match r with
  | None => Ret Infinity
  | Some usage =>
      let* makespan := py_max (map_to_list usage).*2 in
      Ret (Finite makespan)
  end.

(** [schedule_jobs(self, schedule)]: the placement of a given order. *)
Definition schedule_jobs (self : JobScheduler) (order : list Z)
    : outcome JobScheduler :=
  let* (_, sched, starts) :=
    place_jobs (jobs self) order (fresh_usage self)
               (schedule self) (start_times self) in
  Ret (set_schedule self sched starts).

(** One pass of [while len(new_population) < population_size]. *)
Definition crossover_step (self : JobScheduler) (population : list (list Z))
    : rand (list Z) :=
  let! parents := random_sample population 2 in
  match parents with
  | [parent1; parent2] =>
      let! crossover_point := randint 1 (Z.of_nat (length (jobs self)) - 1) in
      rret (crossover_child parent1 parent2 crossover_point)
  | _ => rraise ValueError
  end.

Fixpoint crossover_loop (fuel : nat) (self : JobScheduler)
    (population : list (list Z)) (population_size : Z)
    (new_population : list (list Z)) : rand (list (list Z)) :=
  if decide (Z.of_nat (length new_population) < population_size) then
    match fuel with
    | O => rraise OutOfFuel
    | S fuel' =>
        let! child := crossover_step self population in
        crossover_loop fuel' self population population_size
                       (new_population ++ [child])
    end
  else rret new_population.

(** [if random.random() < mutation_rate: idx1, idx2 = random.sample(..., 2);
     individual[idx1], individual[idx2] = individual[idx2], individual[idx1]] *)
Definition mutate (self : JobScheduler) (rate_num : Z) (rate_den : positive)
    (individual : list Z) : rand (list Z) :=
  let! hit := random_below rate_num rate_den in
  if hit : bool then
    let! idx := random_sample (seq 0 (length (jobs self))) 2 in
    match idx with
    | [idx1; idx2] => lift (swap individual idx1 idx2)
    | _ => rraise ValueError
    end
  else rret individual.

(** [for individual in new_population: ...] *)
Fixpoint mutation_loop (self : JobScheduler) (rate_num : Z) (rate_den : positive)
    (new_population : list (list Z)) : rand (list (list Z)) :=
  match new_population with
  | [] => rret []
  | individual :: rest =>
      let! individual' := mutate self rate_num rate_den individual in
      let! rest' := mutation_loop self rate_num rate_den rest in
      rret (individual' :: rest')
  end.

(** The body of [for generation in range(generations)]: from the population
    at the start of the round to the population at its end. *)
Definition generation (self : JobScheduler) (population_size : Z)
    (rate_num : Z) (rate_den : positive) (population : list (list Z))
    : rand (list (list Z)) :=
  let! fitness := lift (map_outcome (evaluate_schedule self) population) in
  let sorted_population := (sorted scored_lt (zip fitness population)).*2 in
  let survivors := slice_to sorted_population (population_size / 2) in
  let! new_population :=
    crossover_loop (Z.to_nat population_size) self survivors population_size [] in
  mutation_loop self rate_num rate_den new_population.

(** The populations at the start of each of the [rounds] rounds, followed
    by the final one. *)
Fixpoint generations_trace (rounds : nat) (self : JobScheduler)
    (population_size : Z) (rate_num : Z) (rate_den : positive)
    (population : list (list Z)) : rand (list (list (list Z))) :=
  match rounds with
  | O => rret [population]
  | S rounds' =>
      let! population' :=
        generation self population_size rate_num rate_den population in
      let! later :=
        generations_trace rounds' self population_size rate_num rate_den population' in
      rret (population :: later)
  end.

(** [[random.sample(list(self.jobs.keys()), len(self.jobs))
      for _ in range(population_size)]] *)
Definition initial_population (self : JobScheduler) (population_size : Z)
    : rand (list (list Z)) :=
  repeat_rand (Z.to_nat population_size)
              (random_sample (od_keys (jobs self)) (length (jobs self))).

(** [genetic_algorithm]: besides the pair it returns, the scheduler with the
    best order placed and the trace of populations. *)
Definition genetic_algorithm (self : JobScheduler) (population_size : Z)
    (generations : Z) (rate_num : Z) (rate_den : positive)
    : rand (list Z * fitness * JobScheduler * list (list (list Z))) :=
  let! population := initial_population self population_size in
  let! trace :=
    generations_trace (Z.to_nat generations) self population_size
                      rate_num rate_den population in
  let final := List.last trace population in
  let! scores := lift (map_outcome (evaluate_schedule self) final) in
  let! best_schedule := lift (py_min fitness_lt (zip scores final)) in
  let! best_makespan := lift (evaluate_schedule self best_schedule) in
  let! self' := lift (schedule_jobs self best_schedule) in
  rret (best_schedule, best_makespan, self', trace).

End GeneticAlgorithm.

(** ** main.py: the genetic variant over job tuples and the backtracking search *)

Module Main.

(** A row of the jobs table: [(job_id, operation, machine, proc_time)]. *)
Definition job : Type := Z * Z * Z * Z.

(** An entry of a machine's timeline: [(job_id, start, end)]. *)
Definition task : Type := Z * Z * Z.

(** [{m: [] for m in machines}] *)
Definition empty_schedule (machines : list Z) : gmap Z (list task) :=
  foldl (λ d m, <[m := []]> d) ∅ machines.

(** *** genetic_algorithm *)

Section genetic.
Variable jobs : list job.
Variable machines : list Z.
Variable population_size : Z.
Variable rate_num : Z.
Variable rate_den : positive.

(** [for _ in range(population_size):
       population.append(random.sample(jobs, len(jobs)))] *)
Definition initialize_population : rand (list (list job)) :=
  repeat_rand (Z.to_nat population_size) (random_sample jobs (length jobs)).

(** [for job in schedule: machine_times[machine] += proc_time] *)
Fixpoint add_times (schedule : list job) (machine_times : gmap Z Z)
    : outcome (gmap Z Z) :=
  match schedule with
  | [] => Ret machine_times
  | (job_id, operation, machine, proc_time) :: schedule' =>
      let* t := getitem machine_times machine in
      add_times schedule' (<[machine := t + proc_time]> machine_times)
  end.

Definition fitness (schedule : list job) : outcome Z :=
  let* machine_times :=
    add_times schedule (foldl (λ d m, <[m := 0]> d) ∅ machines) in
  py_max (map_to_list machine_times).*2.

Definition crossover (parent1 parent2 : list job) : rand (list job) :=
  let! point := randint 0 (Z.of_nat (length jobs) - 1) in
  rret (crossover_child parent1 parent2 point).

Definition mutate (individual : list job) : rand (list job) :=
  let! hit := random_below rate_num rate_den in
  if hit : bool then
    let! idx := random_sample (seq 0 (length individual)) 2 in
    match idx with
    | [i; j] => lift (swap individual i j)
    | _ => rraise ValueError
    end
  else rret individual.

(** [for job in individual: ...] of [create_schedule] *)
Fixpoint place (individual : list job) (machine_schedule : gmap Z (list task))
    (machine_end_times : gmap Z Z) : outcome (gmap Z (list task)) :=
  match individual with
  | [] => Ret machine_schedule
  | (job_id, operation, machine, proc_time) :: individual' =>
      let* start_time := getitem machine_end_times machine in
      let end_time := start_time + proc_time in
      let* tasks := getitem machine_schedule machine in
      place individual'
        (<[machine := tasks ++ [(job_id, start_time, end_time)]]> machine_schedule)
        (<[machine := end_time]> machine_end_times)
  end.

Definition create_schedule (individual : list job)
    : outcome (gmap Z (list task)) :=
  place individual (empty_schedule machines)
        (foldl (λ d m, <[m := 0]> d) ∅ machines).

(** [sorted(population, key=lambda ind: fitness(ind))] *)
Definition sort_by_fitness (population : list (list job))
    : outcome (list (list job)) :=
  let* keys := map_outcome fitness population in
  Ret (sorted (λ a b : Z * list job, bool_decide (a.1 < b.1))
              (zip keys population)).*2.

(** [for i in range(0, len(population), 2): if i + 1 < len(population): ...]
    walks the population two by two and skips a last unpaired one. *)
Fixpoint breed (population : list (list job)) (next_generation : list (list job))
    : rand (list (list job)) :=
  match population with
  | parent1 :: parent2 :: rest =>
      let! child1 := crossover parent1 parent2 in
      let! child2 := crossover parent2 parent1 in
      let! child1' := mutate child1 in
      let! child2' := mutate child2 in
      breed rest (next_generation ++ [child1'; child2'])
  | _ => rret next_generation
  end.

(** The body of [for _ in range(generations)]: from the population at the
    start of the round to the one at its end, with the children made. *)
Definition generation (population : list (list job))
    : rand (list (list job) * list (list job)) :=
  let! ranked := lift (sort_by_fitness population) in
  let survivors := slice_to ranked population_size in
  let! next_generation := breed survivors [] in
  rret (survivors ++ next_generation, next_generation).

(** The populations at the start of each round, followed by the final one. *)
Fixpoint generations_trace (rounds : nat) (population : list (list job))
    : rand (list (list (list job))) :=
  match rounds with
  | O => rret [population]
  | S rounds' =>
      let! (population', _) := generation population in
      let! later := generations_trace rounds' population' in
      rret (population :: later)
  end.

Definition genetic_algorithm (generations : Z)
    : rand (gmap Z (list task) * list (list (list job))) :=
  let! population := initialize_population in
  let! trace := generations_trace (Z.to_nat generations) population in
  let final := List.last trace population in
  let! keys := lift (map_outcome fitness final) in
  let! best_individual :=
    lift (py_min (λ a b : Z, bool_decide (a < b)) (zip keys final)) in
  let! s := lift (create_schedule best_individual) in
  rret (s, trace).

End genetic.

(** *** backtracking_algorithm *)

(** [for job in machine_schedule[machine]:
       if not (end <= job[1] or start >= job[2]): return False] *)
Definition is_safe (machine_schedule : gmap Z (list task)) (machine : Z)
    (start end_ : Z) : outcome bool :=
  let* tasks := getitem machine_schedule machine in
  Ret (forallb (λ t : task, bool_decide (end_ <= t.1.2 ∨ start >= t.2)) tasks).

(** [machine_schedule[machine].append(x)] *)
Definition append (machine_schedule : gmap Z (list task)) (machine : Z)
    (x : task) : outcome (gmap Z (list task)) :=
  let* tasks := getitem machine_schedule machine in
  Ret (<[machine := tasks ++ [x]]> machine_schedule).

(** [machine_schedule[machine].pop()] *)
Definition pop (machine_schedule : gmap Z (list task)) (machine : Z)
    : outcome (gmap Z (list task)) :=
  let* tasks := getitem machine_schedule machine in
  match tasks with
  | [] => Raise IndexError
  | _ :: _ => Ret (<[machine := removelast tasks]> machine_schedule)
  end.

(** [range(0, 100)], the search window of start times. *)
Definition horizon : list Z := seqZ 0 100.

(** [for start in range(0, 100): ...] of [backtrack] for one job, with the
    recursive call [backtrack(idx + 1, machine_schedule)] as [next]. The
    dictionary is one shared object that every call updates in place: a
    result carries the flag and the contents of that object when the call
    returns (on success the returned schedule is the object itself). *)
Fixpoint try_starts
    (next : gmap Z (list task) → outcome (bool * gmap Z (list task)))
    (job_id machine proc_time : Z) (starts : list Z)
    (machine_schedule : gmap Z (list task))
    : outcome (bool * gmap Z (list task)) :=
  match starts with
  | [] => Ret (false, machine_schedule)
  | start :: starts' =>
      let end_ := start + proc_time in
      let* safe := is_safe machine_schedule machine start end_ in
      if safe : bool then
        let* committed := append machine_schedule machine (job_id, start, end_) in
        let* (success, result) := next committed in
        if success : bool then Ret (true, result)
        else
          let* undone := pop result machine in
          try_starts next job_id machine proc_time starts' undone
      else try_starts next job_id machine proc_time starts' machine_schedule
  end.

(** [backtrack(idx, machine_schedule)] on the jobs from [idx] on; an index
    beyond the end of [jobs] makes [jobs[idx]] raise. *)
Fixpoint backtrack_from (remaining : list job)
    (machine_schedule : gmap Z (list task))
    : outcome (bool * gmap Z (list task)) :=
  match remaining with
  | [] => Ret (true, machine_schedule)
  | (job_id, operation, machine, proc_time) :: remaining' =>
      try_starts (backtrack_from remaining') job_id machine proc_time
                 horizon machine_schedule
  end.

Definition backtrack (jobs : list job) (idx : nat)
    (machine_schedule : gmap Z (list task)) : outcome (bool * gmap Z (list task)) :=
  if decide (length jobs < idx)%nat then Raise IndexError
  else backtrack_from (drop idx jobs) machine_schedule.

(** [None] after the error box "No feasible schedule found!". *)
Definition backtracking_algorithm (jobs : list job) (machines : list Z)
    : outcome (option (gmap Z (list task))) :=
  let* (success, result) := backtrack jobs 0 (empty_schedule machines) in
  Ret (if success : bool then Some result else None).

End Main.

(** ** Properties of schedules *)

(** Two half-open intervals [[s1, e1)] and [[s2, e2)] do not overlap: one ends
    before the other starts (the negation of the overlap test of [is_safe]). *)
Definition disjoint_intervals (s1 e1 s2 e2 : Z) : Prop :=
  e1 <= s2 ∨ e2 <= s1.

#[global] Instance disjoint_intervals_dec s1 e1 s2 e2 :
  Decision (disjoint_intervals s1 e1 s2 e2).
Proof. unfold disjoint_intervals. apply _. Defined.

Module MainProps.
Import Main.

Definition task_start (t : task) : Z := t.1.2.
Definition task_end (t : task) : Z := t.2.
Definition job_machine (j : job) : Z := j.1.2.
Definition job_time (j : job) : Z := j.2.

Definition tasks_disjoint (a b : task) : Prop :=
  disjoint_intervals (task_start a) (task_end a) (task_start b) (task_end b).

(** Every two entries of a timeline are disjoint. *)
Fixpoint exclusive (l : list task) : Prop :=
  match l with
  | [] => True
  | a :: l' => Forall (tasks_disjoint a) l' ∧ exclusive l'
  end.

(** Machine exclusivity of a schedule [machine -> timeline]. *)
Definition machine_exclusive (s : gmap Z (list task)) : Prop :=
  ∀ (m : Z) (l : list task) (i k : nat) (a b : task),
    s !! m = Some l → i ≠ k → l !! i = Some a → l !! k = Some b →
    tasks_disjoint a b.

(** The timeline that giving the jobs the start times [starts] puts on
    machine [m]: one entry [(job_id, start, start + proc_time)] per job of
    that machine, in the order of the jobs. *)
Fixpoint assigned (jobs : list job) (starts : list Z) (m : Z) : list task :=
  match jobs, starts with
  | (job_id, operation, machine, proc_time) :: jobs', start :: starts' =>
      if decide (machine = m)
      then (job_id, start, start + proc_time) :: assigned jobs' starts' m
      else assigned jobs' starts' m
  | _, _ => []
  end.

(** An assignment of start times is feasible within the search window:
    one start of [0..99] per job, every job on a machine of the list, and
    on each machine no two intervals overlap. *)
Definition feasible (jobs : list job) (machines : list Z) (starts : list Z) : Prop :=
  length starts = length jobs
  ∧ Forall (λ s, 0 <= s < 100) starts
  ∧ Forall (λ j, job_machine j ∈ machines) jobs
  ∧ ∀ m, exclusive (assigned jobs starts m).

(** Precedence with full completion on a schedule [machine -> timeline]:
    every entry of a successor starts no earlier than every entry of its
    predecessor ends. *)
Definition rows_precedence_respected (deps : list (Z * Z))
    (s : gmap Z (list task)) : Prop :=
  ∀ (p q : Z) (m1 m2 : Z) (l1 l2 : list task) (a b : task),
    (p, q) ∈ deps →
    s !! m1 = Some l1 → s !! m2 = Some l2 → a ∈ l1 → b ∈ l2 →
    a.1.1 = p → b.1.1 = q →
    task_end a <= task_start b.

(** The search tree: [placement remaining s starts s'] when committing the
    jobs one after the other at [starts], each safe when it is committed,
    leads from the schedule [s] to [s']. *)
Inductive placement : list job → gmap Z (list task) → list Z
                      → gmap Z (list task) → Prop :=
| placement_nil s : placement [] s [] s
| placement_cons job_id operation machine proc_time remaining s start s1 starts s' :
    start ∈ horizon →
    is_safe s machine start (start + proc_time) = Ret true →
    append s machine (job_id, start, start + proc_time) = Ret s1 →
    placement remaining s1 starts s' →
    placement ((job_id, operation, machine, proc_time) :: remaining) s
              (start :: starts) s'.

End MainProps.

Module SchedulerProps.
Import Scheduler.

(** Machine exclusivity of a schedule [job_id -> (start, machines)]: two
    different jobs assigned to a common machine occupy disjoint intervals
    [[start, start + processing_time)]. *)
Definition schedule_exclusive (self_jobs : list (Z * Job))
    (s : gmap Z (Z * list string)) : Prop :=
  ∀ (j k : Z) (tj tk : Z) (mj mk : list string) (jobj jobk : Job) (m : string),
    j ≠ k →
    s !! j = Some (tj, mj) → s !! k = Some (tk, mk) →
    od_get self_jobs j = Ret jobj → od_get self_jobs k = Ret jobk →
    m ∈ mj → m ∈ mk →
    disjoint_intervals tj (tj + processing_time jobj)
                       tk (tk + processing_time jobk).

(** Precedence with full completion: a successor starts no earlier than
    its predecessor ends. *)
Definition precedence_respected (self_jobs : list (Z * Job))
    (deps : list (Z * Z)) (s : gmap Z (Z * list string)) : Prop :=
  ∀ (p q : Z) (tp tq : Z) (mp mq : list string) (jobp : Job),
    (p, q) ∈ deps →
    s !! p = Some (tp, mp) → s !! q = Some (tq, mq) →
    od_get self_jobs p = Ret jobp →
    tp + processing_time jobp <= tq.

(** Every job of the dictionary has a non-negative processing time. *)
Definition nonneg_times (self_jobs : list (Z * Job)) : Prop :=
  ∀ j job, od_get self_jobs j = Ret job → 0 <= processing_time job.

End SchedulerProps.

(** ** Populations *)

(** Every population of a trace holds [population_size] individuals. *)
Definition constant_population {A : Type} (population_size : Z)
    (trace : list (list A)) : Prop :=
  Forall (λ population, length population = Z.to_nat population_size) trace.

(** ** Orders of the jobs and chains of dependencies *)

Module OrderProps.

(** [p] occurs in [order] at an earlier position than [q]. *)
Definition before (order : list Z) (p q : Z) : Prop :=
  ∃ i j : nat, (i < j)%nat ∧ order !! i = Some p ∧ order !! j = Some q.

(** Every dependency [(p, q)] has [p] before [q]. *)
Definition topological (deps : list (Z * Z)) (order : list Z) : Prop :=
  ∀ p q, (p, q) ∈ deps → before order p q.

(** [q] is listed as depending on [p]. *)
Definition depends (deps : list (Z * Z)) (p q : Z) : Prop := (p, q) ∈ deps.

(** A chain of one or more dependencies leads from [p] to [q]. *)
Definition reaches (deps : list (Z * Z)) : Z → Z → Prop := tc (depends deps).

End OrderProps.

(** ** Properties of the placement loop *)

Module PlacementProps.
Import Scheduler.

(** The sum of the processing times of [self.jobs.values()]. *)
Definition total_time (self_jobs : list (Z * Job)) : Z :=
  foldr Z.add 0 ((λ kv : Z * Job, processing_time kv.2) <$> self_jobs).

(** Job [j], placed at [t] on the machines [ms], starts at time 0 or at
    the very moment another job of the schedule [s] completes on one of
    these machines. *)
Definition starts_when_free (self_jobs : list (Z * Job))
    (s : gmap Z (Z * list string)) (j : Z) (t : Z) (ms : list string) : Prop :=
  t = 0
  ∨ ∃ (k : Z) (tk : Z) (mk : list string) (jobk : Job) (m : string),
      k ≠ j ∧ s !! k = Some (tk, mk) ∧ od_get self_jobs k = Ret jobk
      ∧ m ∈ ms ∧ m ∈ mk ∧ tk + processing_time jobk = t.

End PlacementProps.

(** ** Timelines of main.py *)

Module TimelineProps.
Import Main MainProps.

(** The rows of a jobs table that run on machine [m], in their order. *)
Definition on_machine (m : Z) (rows : list job) : list job :=
  filter (λ j, job_machine j = m) rows.

(** The processing time that the rows put on machine [m]. *)
Definition load (rows : list job) (m : Z) : Z :=
  foldr Z.add 0 (job_time <$> on_machine m rows).

(** The rows back to back from time [t0]: each task starts when the one
    before it ends. *)
Fixpoint packed (rows : list job) (t0 : Z) : list task :=
  match rows with
  | [] => []
  | (job_id, operation, machine, proc_time) :: rows' =>
      (job_id, t0, t0 + proc_time) :: packed rows' (t0 + proc_time)
  end.

(** The lexicographic order on lists of start times. *)
Fixpoint lex_le (a b : list Z) : Prop :=
  match a, b with
  | [], _ => True
  | _ :: _, [] => False
  | x :: a', y :: b' => x < y ∨ (x = y ∧ lex_le a' b')
  end.

End TimelineProps.

(** ** A round of GeneticAlgorithm.py as the replacement of a population *)

Module RoundProps.
Import Scheduler GeneticAlgorithm.

(** [sorted_population[:population_size // 2]] for the fitness values
    [scores] of [population]: the parents of a round. *)
Definition survivors (scores : list fitness) (population : list (list Z))
    (population_size : Z) : list (list Z) :=
  slice_to (sorted scored_lt (zip scores population)).*2 (population_size / 2).

(** [child] is the crossover of two individuals sampled at distinct
    positions of [parents], cut at a point of [1 .. len(self.jobs) - 1]. *)
Definition child_of (self : JobScheduler) (parents : list (list Z))
    (child : list Z) : Prop :=
  ∃ (i1 i2 : nat) (parent1 parent2 : list Z) (crossover_point : Z),
    i1 ≠ i2
    ∧ parents !! i1 = Some parent1
    ∧ parents !! i2 = Some parent2
    ∧ 1 <= crossover_point <= Z.of_nat (length (jobs self)) - 1
    ∧ child = crossover_child parent1 parent2 crossover_point.

(** The mutation step on one child: the child as it is, or the child with
    two distinct positions below [len(self.jobs)] exchanged. *)
Definition mutation_of (self : JobScheduler) (child individual : list Z) : Prop :=
  individual = child
  ∨ ∃ idx1 idx2 : nat,
      idx1 ≠ idx2
      ∧ (idx1 < length (jobs self))%nat
      ∧ (idx2 < length (jobs self))%nat
      ∧ swap child idx1 idx2 = Ret individual.

(** [population'] consists of exactly [population_size] children of the
    survivors of [population], each after its mutation step, in the order
    they were made, and of nothing else: no individual of [population] is
    carried over. *)
Definition replaced_by_children (self : JobScheduler) (population_size : Z)
    (population population' : list (list Z)) : Prop :=
  ∃ (scores : list fitness) (children : list (list Z)),
    map_outcome (evaluate_schedule self) population = Ret scores
    ∧ length children = Z.to_nat population_size
    ∧ Forall (child_of self (survivors scores population population_size)) children
    ∧ Forall2 (mutation_of self) children population'.

End RoundProps.

(** ** The scenario of the source's test comment *)

Module Scenario.
Import Scheduler.

Definition scenario_machines : list Machine :=
  [ {| name := "A"; capacity := 100 |};
    {| name := "B"; capacity := 100 |};
    {| name := "C"; capacity := 100 |} ].

Definition scenario_jobs : list Job :=
  [ {| job_id := 1; processing_time := 5; required_machines := ["A"%string] |};
    {| job_id := 2; processing_time := 8; required_machines := ["B"%string] |};
    {| job_id := 3; processing_time := 3; required_machines := ["C"%string] |};
    {| job_id := 4; processing_time := 6; required_machines := ["A"%string; "B"%string] |};
    {| job_id := 5; processing_time := 4; required_machines := ["B"%string; "C"%string] |} ].

Definition scenario_dependencies : list (Z * Z) := [ (1, 4); (2, 5); (3, 5) ].

(** The scheduler that [JobScheduler(jobs, dependencies, machines)] builds. *)
Definition scenario_scheduler : JobScheduler :=
  {| jobs := (λ job, (job_id job, job)) <$> scenario_jobs;
     dependencies := scenario_dependencies;
     machines := list_to_map ((λ m, (name m, m)) <$> scenario_machines);
     schedule := ∅;
     graph := list_to_map [ (1, [4]); (2, [5]); (3, [5]) ];
     in_degree := list_to_map [ (1, 0); (2, 0); (3, 0); (4, 1); (5, 2) ];
     start_times := ∅ |}.

(** Job 2 depends on job 1 and shares no machine with it. *)
Definition apart_jobs : list Job :=
  [ {| job_id := 1; processing_time := 5; required_machines := ["A"%string] |};
    {| job_id := 2; processing_time := 3; required_machines := ["B"%string] |} ].

Definition apart_machines : list Machine :=
  [ {| name := "A"; capacity := 100 |}; {| name := "B"; capacity := 100 |} ].

Definition apart_dependencies : list (Z * Z) := [ (1, 2) ].

(** The same two jobs as rows of main.py, in an order that respects the
    dependency. *)
Definition apart_rows : list Main.job := [ (1, 1, 1, 5); (2, 1, 2, 3) ].

(** Three rows of a jobs table of main.py on machines 1 and 2. *)
Definition rows : list Main.job := [ (1, 1, 1, 5); (2, 1, 2, 3); (3, 1, 1, 4) ].

End Scenario.

(** ** Small inputs for the edge cases *)

Module Examples.
Import Scheduler.

(** Jobs 1 and 2 wait for each other. *)
Definition cyclic_dependencies : list (Z * Z) := [ (1, 2); (2, 1) ].

(** Job 1 is listed as waiting for a job 9 that was never added. *)
Definition dangling_dependencies : list (Z * Z) := [ (9, 1) ].

(** The two jobs of [Scenario.apart_jobs], the successor entered first. *)
Definition reversed_jobs : list Job :=
  [ {| job_id := 2; processing_time := 3; required_machines := ["B"%string] |};
    {| job_id := 1; processing_time := 5; required_machines := ["A"%string] |} ].

(** Machine B of [Scenario.apart_jobs] was never added. *)
Definition machine_a_only : list Machine :=
  [ {| name := "A"; capacity := 100 |} ].

End Examples.


(** * Results and dictionaries *)

(** Settles a decidable closed goal by evaluating its decision procedure. *)
Ltac by_compute :=
  match goal with
  | |- ?P => apply (@bool_decide_unpack P _); vm_compute; exact I
  end.

Section outcome_facts.

Lemma bind_ret {A B : Type} (x : outcome A) (k : A → outcome B) (b : B) :
  bind x k = Ret b → ∃ a, x = Ret a ∧ k a = Ret b.
Proof. destruct x as [a|e]; simpl; [eauto | discriminate]. Qed.

Lemma bind_raise {A B : Type} (x : outcome A) (k : A → outcome B) (e : exn) :
  bind x k = Raise e → x = Raise e ∨ ∃ a, x = Ret a ∧ k a = Raise e.
Proof. destruct x as [a|e']; simpl; [eauto | intros [= ->]; auto]. Qed.

Lemma getitem_ret `{Countable K} {V : Type} (d : gmap K V) (k : K) (v : V) :
  getitem d k = Ret v ↔ d !! k = Some v.
Proof. unfold getitem. destruct (d !! k); split; congruence. Qed.

Lemma getitem_raise `{Countable K} {V : Type} (d : gmap K V) (k : K) (e : exn) :
  getitem d k = Raise e ↔ e = KeyError ∧ d !! k = None.
Proof.
  unfold getitem. destruct (d !! k); split.
  - discriminate.
  - by intros [_ ?].
  - by intros [= <-].
  - by intros [-> _].
Qed.

Lemma rbind_ret {A B : Type} (m : rand A) (k : A → rand B) t (b : B) t' :
  rbind m k t = Ret (b, t') → ∃ a t1, m t = Ret (a, t1) ∧ k a t1 = Ret (b, t').
Proof.
  unfold rbind. destruct (m t) as [[a t1]|e]; [eauto | discriminate].
Qed.

Lemma lift_ret {A : Type} (o : outcome A) t (a : A) t' :
  lift o t = Ret (a, t') → o = Ret a ∧ t' = t.
Proof. unfold lift. destruct o; [intros [= -> ->]; auto | discriminate]. Qed.

Lemma rret_ret {A : Type} (x a : A) t t' :
  rret x t = Ret (a, t') → a = x ∧ t' = t.
Proof. unfold rret. by intros [= -> ->]. Qed.

Lemma rbind_raise {A B : Type} (m : rand A) (k : A → rand B) t (e : exn) :
  rbind m k t = Raise e →
  m t = Raise e ∨ ∃ a t1, m t = Ret (a, t1) ∧ k a t1 = Raise e.
Proof.
  unfold rbind. destruct (m t) as [[a t1]|e']; [eauto | intros [= ->]; auto].
Qed.

End outcome_facts.

(** * The placement loop of [schedule_jobs] (Backtracking.py, GeneticAlgorithm.py) *)

Section placement.
Import Scheduler SchedulerProps.

Implicit Types (usage : gmap string Z) (sched : gmap Z (Z * list string)).

(** The start time is at least the running maximum and at least the usage
    of every required machine. *)
Lemma earliest_start_ret usage ms t0 t :
  earliest_start usage ms t0 = Ret t →
  t0 <= t ∧ ∀ m, m ∈ ms → ∃ u, usage !! m = Some u ∧ u <= t.
Proof.
  revert t0. induction ms as [|m0 ms IH]; simpl; intros t0 H.
  - inversion H; subst. split; [lia|]. by intros m ?%elem_of_nil.
  - apply bind_ret in H as (u0 & Hu0%getitem_ret & H).
    apply IH in H as [Hle Hms]. split; [lia|].
    intros m [->|Hin]%elem_of_cons; [|by apply Hms].
    exists u0. split; [done|lia].
Qed.

Lemma occupy_lookup usage ms t m :
  occupy usage ms t !! m = if decide (m ∈ ms) then Some t else usage !! m.
Proof.
  unfold occupy. revert usage.
  induction ms as [|m0 ms IH]; intros usage; cbn [foldl].
  - case_decide as Hin; [by apply elem_of_nil in Hin | done].
  - rewrite IH, lookup_insert. destruct (decide (m ∈ ms)) as [Hin|Hout].
  + by rewrite decide_True by (by apply list_elem_of_further).
  + destruct (decide (m0 = m)) as [->|Hne].
    * by rewrite decide_True by apply list_elem_of_here.
    * rewrite decide_False; [done|]. intros [?|?]%elem_of_cons; congruence.
Qed.

(** The invariant of the loop: every placed job ends before the usage of
    each of its machines, and placed jobs are exclusive. *)
Definition placed_before (self_jobs : list (Z * Job)) usage sched : Prop :=
  ∀ j t ms job m,
    sched !! j = Some (t, ms) → od_get self_jobs j = Ret job → m ∈ ms →
    ∃ u, usage !! m = Some u ∧ t + processing_time job <= u.

Lemma place_jobs_exclusive self_jobs order :
  nonneg_times self_jobs →
  ∀ usage sched starts usage' sched' starts',
    place_jobs self_jobs order usage sched starts = Ret (usage', sched', starts') →
    placed_before self_jobs usage sched →
    schedule_exclusive self_jobs sched →
    placed_before self_jobs usage' sched' ∧ schedule_exclusive self_jobs sched'.
Proof.
  intros Hnn. induction order as [|j0 order IH];
    intros usage sched starts usage' sched' starts' H Hpb Hex; simpl in H.
  { inversion H; subst. done. }
  apply bind_ret in H as (job0 & Hjob0 & H).
  apply bind_ret in H as (t0 & Ht0 & H).
  apply earliest_start_ret in Ht0 as [Ht0 Hms0].
  pose proof (Hnn _ _ Hjob0) as Hpt0.
  eapply IH; [exact H| |].
  - intros j t ms job m Hj Hjob Hm. rewrite occupy_lookup.
    apply lookup_insert_Some in Hj as [[<- [= <- <-]]|[Hnj Hj]].
    + rewrite Hjob0 in Hjob. simplify_eq.
      rewrite decide_True by done. eexists. split; [done|lia].
    + destruct (Hpb _ _ _ _ _ Hj Hjob Hm) as (u & Hu & Hle).
      case_decide as Hin; [|eauto].
      destruct (Hms0 _ Hin) as (u' & Hu' & Hle').
      rewrite Hu in Hu'. simplify_eq.
      eexists. split; [done|lia].
  - intros j k tj tk mj mk jobj jobk m Hne Hj Hk Hjobj Hjobk Hmj Hmk.
    unfold disjoint_intervals.
    apply lookup_insert_Some in Hj as [[<- [= <- <-]]|[Hnj Hj]];
      apply lookup_insert_Some in Hk as [[<- [= <- <-]]|[Hnk Hk]].
    + congruence.
    + rewrite Hjob0 in Hjobj. simplify_eq.
      destruct (Hpb _ _ _ _ _ Hk Hjobk Hmk) as (u & Hu & Hle).
      destruct (Hms0 _ Hmj) as (u' & Hu' & Hle').
      rewrite Hu in Hu'. simplify_eq. lia.
    + rewrite Hjob0 in Hjobk. simplify_eq.
      destruct (Hpb _ _ _ _ _ Hj Hjobj Hmj) as (u & Hu & Hle).
      destruct (Hms0 _ Hmk) as (u' & Hu' & Hle').
      rewrite Hu in Hu'. simplify_eq. lia.
    + by eapply (Hex j k).
Qed.

(** Placing any order on an empty schedule gives an exclusive schedule. *)
Lemma place_jobs_fresh_exclusive self_jobs order usage starts usage' sched' starts' :
  nonneg_times self_jobs →
  place_jobs self_jobs order usage ∅ starts = Ret (usage', sched', starts') →
  schedule_exclusive self_jobs sched'.
Proof.
  intros Hnn H. by eapply place_jobs_exclusive in H as [_ ?].
Qed.

End placement.

(** * Python helpers: sampling, sorting, slicing *)

Section python_facts.
Context {A : Type}.
Implicit Types (l pool : list A).

Lemma slice_to_take l (k : Z) : ∃ n, slice_to l k = take n l.
Proof. unfold slice_to. case_decide; eauto. Qed.

Lemma slice_to_subseteq l (k : Z) : slice_to l k ⊆ l.
Proof. destruct (slice_to_take l k) as [n ->]. apply subseteq_take. Qed.

Lemma slice_to_length l (k : Z) :
  0 <= k <= Z.of_nat (length l) → length (slice_to l k) = Z.to_nat k.
Proof.
  intros Hk. unfold slice_to. rewrite decide_False by lia.
  rewrite length_take. lia.
Qed.

(** [random.sample] returns a selection of the pool. *)
Lemma sample_from_ret (k : nat) :
  ∀ pool t l t',
    sample_from pool k t = Ret (l, t') →
    length l = k ∧ ∃ rest, pool ≡ₚ l ++ rest.
Proof.
  induction k as [|k IH]; intros pool t l t' H; simpl in H.
  - apply rret_ret in H as [-> _]. split; [done|]. by exists pool.
  - apply rbind_ret in H as (n & t1 & _ & H).
    destruct (pool !! _) as [x|] eqn:Hx; [|done].
    apply rbind_ret in H as (rest & t2 & Hrest & H).
    apply rret_ret in H as [-> _].
    apply IH in Hrest as [Hlen [rest' Hperm]].
    split; [simpl; lia|]. exists rest'.
    rewrite (delete_Permutation _ _ _ Hx). simpl. by rewrite Hperm.
Qed.

Lemma random_sample_ret pool (k : nat) t l t' :
  random_sample pool k t = Ret (l, t') →
  length l = k ∧ ∃ rest, pool ≡ₚ l ++ rest.
Proof.
  unfold random_sample. case_decide; [apply sample_from_ret | done].
Qed.

Lemma random_sample_subseteq pool (k : nat) t l t' :
  random_sample pool k t = Ret (l, t') → l ⊆ pool.
Proof.
  intros [_ [rest Hperm]]%random_sample_ret x Hx.
  rewrite Hperm. apply elem_of_app. auto.
Qed.

(** Sampling as many elements as the pool holds shuffles the pool. *)
Lemma random_sample_all pool t l t' :
  random_sample pool (length pool) t = Ret (l, t') → l ≡ₚ pool.
Proof.
  intros [Hlen [rest Hperm]]%random_sample_ret.
  assert (rest = []) as ->.
  { apply Permutation_length in Hperm. rewrite length_app in Hperm.
    apply nil_length_inv. lia. }
  by rewrite app_nil_r in Hperm.
Qed.

Lemma repeat_rand_ret (P : A → Prop) (f : rand A) (n : nat) :
  (∀ t x t', f t = Ret (x, t') → P x) →
  ∀ t l t', repeat_rand n f t = Ret (l, t') → length l = n ∧ Forall P l.
Proof.
  intros Hf. induction n as [|n IH]; intros t l t' H; simpl in H.
  - by apply rret_ret in H as [-> _].
  - apply rbind_ret in H as (x & t1 & Hx & H).
    apply rbind_ret in H as (xs & t2 & Hxs & H).
    apply rret_ret in H as [-> _]. apply IH in Hxs as [Hlen Hxs].
    split; [simpl; lia|]. constructor; [by eapply Hf | done].
Qed.

Lemma insert_sorted_perm (lt : A → A → bool) x l : insert_sorted lt x l ≡ₚ x :: l.
Proof.
  induction l as [|y l IH]; simpl; [done|].
  destruct (lt x y); [done|]. rewrite IH. apply Permutation_swap.
Qed.

Lemma sorted_perm (lt : A → A → bool) l : sorted lt l ≡ₚ l.
Proof.
  unfold sorted.
  assert (∀ acc, foldl (λ acc x, insert_sorted lt x acc) acc l ≡ₚ acc ++ l) as H.
  { induction l as [|x l IH]; intros acc; cbn [foldl].
    - by rewrite app_nil_r.
    - rewrite IH, insert_sorted_perm. simpl. apply Permutation_middle. }
  by rewrite H.
Qed.

Lemma map_outcome_length {B : Type} (f : A → outcome B) l ys :
  map_outcome f l = Ret ys → length ys = length l.
Proof.
  revert ys. induction l as [|x l IH]; intros ys H; simpl in H.
  - by inversion H.
  - apply bind_ret in H as (y & _ & H). apply bind_ret in H as (ys' & Hys & [= <-]).
    simpl. by rewrite (IH _ Hys).
Qed.

Lemma map_outcome_lookup {B : Type} (f : A → outcome B) l ys (i : nat) x :
  map_outcome f l = Ret ys → l !! i = Some x →
  ∃ y, ys !! i = Some y ∧ f x = Ret y.
Proof.
  revert ys i. induction l as [|x0 l IH]; intros ys i H Hi; [done|]. simpl in H.
  apply bind_ret in H as (y & Hy & H). apply bind_ret in H as (ys' & Hys & [= <-]).
  destruct i as [|i]; simpl in Hi.
  - simplify_eq. by exists y.
  - exact (IH _ _ Hys Hi).
Qed.

Lemma first_min_elem {K : Type} (lt : K → K → bool) (best : K * A) (l : list (K * A)) :
  first_min lt best l = best.2 ∨ first_min lt best l ∈ l.*2.
Proof.
  revert best. induction l as [|x l IH]; intros best; simpl; [auto|].
  destruct (IH (if lt x.1 best.1 then x else best)) as [H|H].
  - rewrite H. destruct (lt x.1 best.1); [right; apply list_elem_of_here | auto].
  - right. by apply list_elem_of_further.
Qed.

Lemma py_min_elem {K : Type} (lt : K → K → bool) (l : list (K * A)) x :
  py_min lt l = Ret x → x ∈ l.*2.
Proof.
  destruct l as [|y l]; simpl; [done|]. intros [= <-].
  destruct (first_min_elem lt y l) as [->| ?];
    [apply list_elem_of_here | by apply list_elem_of_further].
Qed.

Lemma swap_subseteq l (i j : nat) l' : swap l i j = Ret l' → l' ⊆ l.
Proof.
  unfold swap, list_get. intros H.
  destruct (l !! j) as [x|] eqn:Hx; [|done]. simpl in H.
  destruct (l !! i) as [y|] eqn:Hy; [|done]. simpl in H.
  inversion H; subst l'. intros z [n Hn]%list_elem_of_lookup_1.
  apply list_lookup_insert_Some in Hn as [(_ & <- & _)|[_ Hn]];
    [by eapply list_elem_of_lookup_2|].
  apply list_lookup_insert_Some in Hn as [(_ & <- & _)|[_ Hn]];
    by eapply list_elem_of_lookup_2.
Qed.

Lemma swap_length l (i j : nat) l' : swap l i j = Ret l' → length l' = length l.
Proof.
  unfold swap. intros (x & _ & H)%bind_ret. apply bind_ret in H as (y & _ & [= <-]).
  by rewrite !length_insert.
Qed.

Lemma crossover_child_subseteq `{EqDecision A} (parent1 parent2 : list A)
    (point : Z) (x : A) :
  x ∈ crossover_child parent1 parent2 point → x ∈ parent1 ∨ x ∈ parent2.
Proof.
  unfold crossover_child. intros [H|H]%elem_of_app.
  - left. by apply slice_to_subseteq in H.
  - right. by apply list_elem_of_filter in H as [_ ?].
Qed.

End python_facts.

(** * The backtracking search of main.py *)

Section backtracking.
Import Main MainProps.

Implicit Types (s : gmap Z (list task)) (l : list task) (m : Z).

Lemma elem_of_horizon (x : Z) : x ∈ horizon ↔ 0 <= x < 100.
Proof. unfold horizon. rewrite elem_of_seqZ. lia. Qed.

Lemma is_safe_ret s m start end_ (b : bool) :
  is_safe s m start end_ = Ret b ↔
  ∃ l, s !! m = Some l
       ∧ b = forallb (λ t : task, bool_decide (end_ <= t.1.2 ∨ start >= t.2)) l.
Proof.
  unfold is_safe. split.
  - intros (l & Hl & Hb)%bind_ret. apply getitem_ret in Hl.
    exists l. split; congruence.
  - intros (l & Hl & ->). apply getitem_ret in Hl. by rewrite Hl.
Qed.

Lemma is_safe_true s m start end_ :
  is_safe s m start end_ = Ret true ↔
  ∃ l, s !! m = Some l
       ∧ Forall (λ t, disjoint_intervals start end_ (task_start t) (task_end t)) l.
Proof.
  rewrite is_safe_ret. split; intros (l & Hl & H); exists l; split; try done.
  - symmetry in H. rewrite forallb_forall in H. apply Forall_forall.
    intros t Ht. apply list_elem_of_In, H, bool_decide_eq_true in Ht.
    unfold disjoint_intervals, task_start, task_end. lia.
  - symmetry. apply forallb_forall. intros t Ht%list_elem_of_In.
    rewrite Forall_forall in H. apply H in Ht. apply bool_decide_eq_true.
    unfold disjoint_intervals, task_start, task_end in Ht. lia.
Qed.

Lemma append_ret s m x s1 :
  append s m x = Ret s1 ↔ ∃ l, s !! m = Some l ∧ s1 = <[m := l ++ [x]]> s.
Proof.
  unfold append. split.
  - intros (l & Hl & Hs)%bind_ret. apply getitem_ret in Hl.
    exists l. split; congruence.
  - intros (l & Hl & ->). apply getitem_ret in Hl. by rewrite Hl.
Qed.

(** [pop] takes back what [append] added. *)
Lemma pop_append s m x s1 : append s m x = Ret s1 → pop s1 m = Ret s.
Proof.
  intros (l & Hl & ->)%append_ret. unfold pop, getitem.
  rewrite lookup_insert_eq. simpl.
  destruct (l ++ [x]) eqn:E; [by destruct l|]. rewrite <- E.
  rewrite removelast_last, insert_insert_eq. by rewrite insert_id.
Qed.

Lemma backtrack_from_cons job_id operation m proc_time remaining s :
  backtrack_from ((job_id, operation, m, proc_time) :: remaining) s
  = try_starts (backtrack_from remaining) job_id m proc_time horizon s.
Proof. reflexivity. Qed.

(** What the candidate loop of one job returns when the recursive call
    [next] returns what the search tree below says. *)
Lemma try_starts_ret remaining job_id m proc_time :
  (∀ s b s', backtrack_from remaining s = Ret (b, s') →
     if b then ∃ starts, placement remaining s starts s'
     else s' = s ∧ ∀ starts s'', ¬ placement remaining s starts s'') →
  ∀ cands s b s',
    try_starts (backtrack_from remaining) job_id m proc_time cands s = Ret (b, s') →
    if b then
      ∃ start starts s1,
        start ∈ cands
        ∧ is_safe s m start (start + proc_time) = Ret true
        ∧ append s m (job_id, start, start + proc_time) = Ret s1
        ∧ placement remaining s1 starts s'
    else
      s' = s
      ∧ ∀ start starts s1 s'',
          start ∈ cands →
          is_safe s m start (start + proc_time) = Ret true →
          append s m (job_id, start, start + proc_time) = Ret s1 →
          ¬ placement remaining s1 starts s''.
Proof.
  intros IH. induction cands as [|c cands IHc]; simpl; intros s b s' H.
  { inversion H; subst. split; [done|]. by intros ???? ?%elem_of_nil. }
  apply bind_ret in H as (safe & Hsafe & H). destruct safe.
  - apply bind_ret in H as (s1 & Happ & H).
    apply bind_ret in H as ([success result] & Hnext & H).
    apply IH in Hnext. destruct success.
    + inversion H; subst. destruct Hnext as [starts Hp].
      exists c, starts, s1. split_and!; try done. apply elem_of_cons; auto.
    + destruct Hnext as [-> Hnone].
      apply bind_ret in H as (undone & Hpop & H).
      rewrite (pop_append _ _ _ _ Happ) in Hpop. inversion Hpop; subst undone.
      apply IHc in H. destruct b.
      * destruct H as (start & starts & s2 & Hin & ?).
        exists start, starts, s2. split; [apply elem_of_cons; auto | done].
      * destruct H as [-> Hrest]. split; [done|].
        intros start starts s2 s'' [->|Hin]%elem_of_cons Hs Ha.
        -- rewrite Happ in Ha. inversion Ha; subst. apply Hnone.
        -- by eapply Hrest.
  - apply IHc in H. destruct b.
    + destruct H as (start & starts & s2 & Hin & ?).
      exists start, starts, s2. split; [apply elem_of_cons; auto | done].
    + destruct H as [-> Hrest]. split; [done|].
      intros start starts s2 s'' [->|Hin]%elem_of_cons Hs Ha.
      * congruence.
      * by eapply Hrest.
Qed.

(** A successful call has walked a branch of the search tree; a failed call
    leaves the schedule as it found it, and the tree has no branch. *)
Lemma backtrack_from_ret remaining :
  ∀ s b s', backtrack_from remaining s = Ret (b, s') →
    if b then ∃ starts, placement remaining s starts s'
    else s' = s ∧ ∀ starts s'', ¬ placement remaining s starts s''.
Proof.
  induction remaining as [|[[[job_id operation] m] proc_time] remaining IH];
    intros s b s' H.
  - simpl in H. inversion H; subst. exists []. constructor.
  - rewrite backtrack_from_cons in H.
    apply (try_starts_ret _ _ _ _ IH) in H. destruct b.
    + destruct H as (start & starts & s1 & Hin & Hs & Ha & Hp).
      exists (start :: starts). by econstructor.
    + destruct H as [-> Hnone]. split; [done|].
      intros starts s'' Hp. inversion Hp; subst. by eapply Hnone.
Qed.

(** *** The search tree and feasible assignments *)

Lemma tasks_disjoint_sym (a b : task) : tasks_disjoint a b → tasks_disjoint b a.
Proof. unfold tasks_disjoint, disjoint_intervals. tauto. Qed.

Lemma lookup_empty_schedule machines m :
  empty_schedule machines !! m = if decide (m ∈ machines) then Some [] else None.
Proof.
  unfold empty_schedule.
  assert (∀ d : gmap Z (list task),
    foldl (λ d m, <[m := []]> d) d machines !! m
    = if decide (m ∈ machines) then Some [] else d !! m) as H.
  { induction machines as [|x machines IH]; intros d; cbn [foldl].
    - case_decide as Hin; [by apply elem_of_nil in Hin | done].
    - rewrite IH, lookup_insert. destruct (decide (m ∈ machines)) as [Hin|Hout].
    + by rewrite decide_True by (by apply list_elem_of_further).
    + destruct (decide (x = m)) as [->|Hne].
      * by rewrite decide_True by apply list_elem_of_here.
      * rewrite decide_False; [done|]. intros [?|?]%elem_of_cons; congruence. }
  by rewrite H.
Qed.

(** A branch of the search tree appends to each timeline the entries of
    its assignment, each disjoint from what the timeline held. *)
Lemma placement_assigned remaining s starts s' :
  placement remaining s starts s' →
  length starts = length remaining
  ∧ Forall (λ x, 0 <= x < 100) starts
  ∧ Forall (λ j, is_Some (s !! job_machine j)) remaining
  ∧ (∀ m, s' !! m = (λ l, l ++ assigned remaining starts m) <$> s !! m)
  ∧ (∀ m l, s !! m = Some l →
       Forall (λ a, Forall (tasks_disjoint a) (assigned remaining starts m)) l
       ∧ exclusive (assigned remaining starts m)).
Proof.
  induction 1 as [s | job_id op machine pt rem s start s1 starts s' Hin Hsafe Happ Hp IH].
  - split_and!; simpl; auto.
    + intros m. destruct (s !! m); simpl; by rewrite ?app_nil_r.
    + intros m l _. split; [|done]. apply Forall_forall. intros; constructor.
  - destruct IH as (Hlen & Hb & Hdom & Hs' & Hex).
    apply is_safe_true in Hsafe as (l0 & Hl0 & Hd0).
    apply append_ret in Happ as (l0' & Hl0' & ->).
    rewrite Hl0 in Hl0'. inversion Hl0'; subst l0'.
    split_and!.
    + simpl. lia.
    + constructor; [by apply elem_of_horizon | done].
    + constructor; [unfold job_machine; simpl; eauto|].
      eapply Forall_impl; [exact Hdom|]. intros j Hj. simpl in Hj.
      destruct (decide (machine = job_machine j)) as [<-|Hne]; [eauto|].
      by rewrite lookup_insert_ne in Hj.
    + intros m. rewrite Hs'. simpl assigned.
      destruct (decide (machine = m)) as [->|Hne].
      * rewrite lookup_insert_eq, Hl0. simpl. by rewrite <- app_assoc.
      * by rewrite lookup_insert_ne.
    + intros m l Hl. simpl assigned.
      destruct (decide (machine = m)) as [->|Hne].
      * rewrite Hl0 in Hl. inversion Hl; subst l.
        destruct (Hex m (l0 ++ [(job_id, start, start + pt)])) as [HF HE];
          [by rewrite lookup_insert_eq|].
        apply Forall_app in HF as [HF1 HF2]. rewrite Forall_singleton in HF2.
        split; [|by split].
        apply Forall_forall. intros a Ha. constructor.
        -- rewrite Forall_forall in Hd0. by apply tasks_disjoint_sym, Hd0.
        -- rewrite Forall_forall in HF1. by apply HF1.
      * apply Hex. by rewrite lookup_insert_ne.
Qed.

(** Conversely an assignment whose entries are disjoint from one another
    and from what the timelines hold is a branch of the search tree. *)
Lemma assigned_placement remaining :
  ∀ starts s,
    length starts = length remaining →
    Forall (λ x, 0 <= x < 100) starts →
    Forall (λ j, is_Some (s !! job_machine j)) remaining →
    (∀ m l, s !! m = Some l →
       Forall (λ a, Forall (tasks_disjoint a) (assigned remaining starts m)) l
       ∧ exclusive (assigned remaining starts m)) →
    ∃ s', placement remaining s starts s'.
Proof.
  induction remaining as [|[[[job_id op] machine] pt] rem IH];
    intros [|start starts] s Hlen Hb Hdom Hex; simpl in Hlen; try lia.
  { eexists. constructor. }
  apply Forall_cons in Hb as [Hb0 Hb]. apply Forall_cons in Hdom as [[l0 Hl0] Hdom].
  unfold job_machine in Hl0; simpl in Hl0.
  pose proof (Hex machine l0 Hl0) as [HF0 HE0].
  simpl in HF0, HE0. rewrite decide_True in HF0, HE0 by done.
  destruct HE0 as [HnewA HEA].
  set (new := (job_id, start, start + pt)) in *.
  destruct (IH starts (<[machine := l0 ++ [new]]> s)) as [s' Hp].
  - lia.
  - done.
  - eapply Forall_impl; [exact Hdom|]. intros j [l Hl].
    destruct (decide (machine = job_machine j)) as [<-|Hne].
    + rewrite lookup_insert_eq. eauto.
    + rewrite lookup_insert_ne by done. eauto.
  - intros m l Hl. destruct (decide (machine = m)) as [->|Hne].
    + rewrite lookup_insert_eq in Hl. inversion Hl; subst l. split; [|done].
      apply Forall_app. split.
      * eapply Forall_impl; [exact HF0|]. intros a Ha. simpl in Ha.
        by apply Forall_cons in Ha as [_ Ha].
      * by apply Forall_singleton.
    + rewrite lookup_insert_ne in Hl by done.
      specialize (Hex m l Hl). simpl in Hex. by rewrite decide_False in Hex.
  - exists s'. econstructor; [by apply elem_of_horizon| | |exact Hp].
    + apply is_safe_true. exists l0. split; [done|].
      eapply Forall_impl; [exact HF0|]. intros a Ha. simpl in Ha.
      apply Forall_cons in Ha as [Ha _]. by apply tasks_disjoint_sym in Ha.
    + apply append_ret. eauto.
Qed.

(** *** Exceptions: only an unknown machine raises *)

Lemma try_starts_raise remaining job_id m proc_time :
  (∀ s e, backtrack_from remaining s = Raise e →
     e = KeyError ∧ Exists (λ j, s !! job_machine j = None) remaining) →
  ∀ cands s e,
    try_starts (backtrack_from remaining) job_id m proc_time cands s = Raise e →
    e = KeyError
    ∧ (s !! m = None ∨ Exists (λ j, s !! job_machine j = None) remaining).
Proof.
  intros IH. induction cands as [|c cands IHc]; simpl; intros s e H; [done|].
  apply bind_raise in H as [H|(safe & Hsafe & H)].
  { unfold is_safe in H. apply bind_raise in H as [H|(? & _ & ?)]; [|done].
    apply getitem_raise in H as [-> ?]. auto. }
  destruct safe; [|by apply IHc].
  apply is_safe_ret in Hsafe as (l & Hl & _).
  apply bind_raise in H as [H|(s1 & Happ & H)].
  { unfold append in H. apply bind_raise in H as [H|(? & _ & ?)]; [|done].
    apply getitem_raise in H as [_ ?]. congruence. }
  apply bind_raise in H as [H|([success result] & Hnext & H)].
  { apply IH in H as [-> Hex]. split; [done|]. right.
    apply append_ret in Happ as (? & _ & ->).
    eapply Exists_impl; [exact Hex|]. intros j Hj. simpl in Hj.
    rewrite lookup_insert in Hj. by case_decide. }
  destruct success; [done|].
  apply backtrack_from_ret in Hnext as [-> _].
  rewrite (pop_append _ _ _ _ Happ) in H. simpl in H. by apply IHc.
Qed.

Lemma backtrack_from_raise remaining :
  ∀ s e, backtrack_from remaining s = Raise e →
    e = KeyError ∧ Exists (λ j, s !! job_machine j = None) remaining.
Proof.
  induction remaining as [|[[[job_id operation] m] proc_time] remaining IH];
    intros s e H; [done|]. rewrite backtrack_from_cons in H.
  apply (try_starts_raise _ _ _ _ IH) in H as [-> [H|H]]; split; try done.
  - by apply Exists_cons_hd.
  - by apply Exists_cons_tl.
Qed.

(** *** What [backtracking_algorithm] returns *)

Lemma feasible_placement jobs machines starts :
  feasible jobs machines starts ↔
  ∃ s', placement jobs (empty_schedule machines) starts s'.
Proof.
  split.
  - intros (Hlen & Hb & Hm & Hex). apply assigned_placement; try done.
    + eapply Forall_impl; [exact Hm|]. intros j Hj. simpl in Hj.
      rewrite lookup_empty_schedule. rewrite decide_True by done. eauto.
    + intros m l Hl. rewrite lookup_empty_schedule in Hl.
      case_decide; [|done]. inversion Hl; subst l. split; [constructor | apply Hex].
  - intros [s' (Hlen & Hb & Hdom & _ & Hex)%placement_assigned].
    split_and!; try done.
    + eapply Forall_impl; [exact Hdom|]. intros j [l Hj]. simpl.
      rewrite lookup_empty_schedule in Hj. by case_decide.
    + intros m. destruct (decide (m ∈ machines)) as [Hin|Hout].
      * apply (Hex m []). rewrite lookup_empty_schedule. by rewrite decide_True.
      * assert (assigned jobs starts m = []) as ->; [|done].
        clear -Hdom Hout. revert starts.
        induction jobs as [|[[[job_id op] machine] pt] jobs IH];
          intros [|start starts]; simpl; try done.
        apply Forall_cons in Hdom as [[l Hl] Hdom].
        unfold job_machine in Hl. simpl in Hl. rewrite lookup_empty_schedule in Hl.
        case_decide; [|done]. rewrite decide_False by congruence. by apply IH.
Qed.

Lemma backtracking_algorithm_spec jobs machines :
  match backtracking_algorithm jobs machines with
  | Ret (Some s) =>
      ∃ starts, feasible jobs machines starts
        ∧ ∀ m, s !! m = if decide (m ∈ machines)
                        then Some (assigned jobs starts m) else None
  | Ret None => ∀ starts, ¬ feasible jobs machines starts
  | Raise e => e = KeyError ∧ Exists (λ j, job_machine j ∉ machines) jobs
  end.
Proof.
  unfold backtracking_algorithm, backtrack.
rewrite decide_False by (simpl; lia). rewrite drop_0.
  destruct (backtrack_from jobs (empty_schedule machines)) as [[b s']|e] eqn:E; simpl.
  - apply backtrack_from_ret in E. destruct b.
    + destruct E as [starts Hp]. exists starts. split.
      * apply feasible_placement. eauto.
      * apply placement_assigned in Hp as (_ & _ & _ & Hs' & _).
        intros m. rewrite Hs', lookup_empty_schedule. by case_decide.
    + destruct E as [_ Hnone]. intros starts [s'' Hp]%feasible_placement.
      by eapply Hnone.
  - apply backtrack_from_raise in E as [-> Hex]. split; [done|].
    eapply Exists_impl; [exact Hex|]. intros j Hj. simpl in Hj.
    rewrite lookup_empty_schedule in Hj. by case_decide.
Qed.

End backtracking.

(** C5: the backtracking solver returns a schedule (that of a feasible
    assignment) whenever some assignment of start times within the window
    0..99 is feasible; it reports infeasibility only when the whole window has
    been tried at every level, that is when no assignment is feasible; and the
    search always ends: with a schedule, with the report, or with the
    [KeyError] of a job whose machine is not in the list. *)
Theorem backtracking_exhaustive (jobs : list Main.job) (machines : list Z) :
  (∀ starts, MainProps.feasible jobs machines starts →
     ∃ s starts', Main.backtracking_algorithm jobs machines = Ret (Some s)
       ∧ MainProps.feasible jobs machines starts'
       ∧ ∀ m, s !! m = if decide (m ∈ machines)
                       then Some (MainProps.assigned jobs starts' m) else None)
  ∧ (Main.backtracking_algorithm jobs machines = Ret None →
     ∀ starts, ¬ MainProps.feasible jobs machines starts)
  ∧ ((∃ s, Main.backtracking_algorithm jobs machines = Ret (Some s))
     ∨ Main.backtracking_algorithm jobs machines = Ret None
     ∨ Main.backtracking_algorithm jobs machines = Raise KeyError).
Proof.
  pose proof (backtracking_algorithm_spec jobs machines) as H.
  destruct (Main.backtracking_algorithm jobs machines) as [[s|]|e].
  - split_and!; [|done|eauto].
    intros _ _. destruct H as (starts' & ? & ?). eauto.
  - split_and!; [|done|auto]. intros starts Hf. by apply H in Hf.
  - destruct H as [-> Hex]. split_and!; [|done|auto].
    intros starts (_ & _ & Hm & _). exfalso.
    apply Exists_exists in Hex as (j & Hj & Hout).
    rewrite Forall_forall in Hm. by apply Hout, Hm.
Qed.

(** Two jobs of 5 and 3 time units on machine 1 can start at 0 and 5, and
    two jobs of 200 units on one machine fit no window of starts 0..99. *)
Lemma backtracking_exhaustive_witness :
  (∃ s, Main.backtracking_algorithm [(1, 1, 1, 5); (2, 1, 1, 3)] [1] = Ret (Some s))
  ∧ ∀ starts, ¬ MainProps.feasible [(1, 1, 1, 200); (2, 1, 1, 200)] [1] starts.
Proof.
  split.
  - destruct (proj1 (backtracking_exhaustive [(1, 1, 1, 5); (2, 1, 1, 3)] [1]) [0; 5])
      as (s & _ & Hs & _).
    + split_and!.
      * reflexivity.
      * repeat (constructor; [lia|]). constructor.
      * repeat (constructor; [by apply list_elem_of_here|]). constructor.
      * intros m. simpl. case_decide; simpl; [|done].
        split_and!; [|constructor|done]. constructor; [|constructor].
        unfold MainProps.tasks_disjoint, disjoint_intervals,
          MainProps.task_start, MainProps.task_end; simpl. lia.
    + by exists s.
  - apply (proj1 (proj2 (backtracking_exhaustive [(1, 1, 1, 200); (2, 1, 1, 200)] [1]))).
    vm_compute. reflexivity.
Defined.

(** C6: when the call of [backtrack] at an index returns failure, the
    per-machine interval lists are exactly what they were when the call was
    entered: every commit of the failed subtree has been undone. *)
Theorem backtrack_failure_restores (jobs : list Main.job) (idx : nat)
    (machine_schedule machine_schedule' : gmap Z (list Main.task)) :
  Main.backtrack jobs idx machine_schedule = Ret (false, machine_schedule') →
  machine_schedule' = machine_schedule.
Proof.
  unfold Main.backtrack. case_decide as Hidx; [done|].
intros H. by apply backtrack_from_ret in H as [-> _].
Qed.

(** On machine 1 with nothing booked, the call at index 0 commits job 1 at
    each of the starts 0..99 in turn (the first commit is shown); job 2 then
    finds no start, every commit is popped again, and the call returns
    failure with the empty timeline it was entered with. *)
Lemma backtrack_failure_restores_witness :
  Main.is_safe {[ 1 := [] ]} 1 0 200 = Ret true
  ∧ Main.append {[ 1 := [] ]} 1 (1, 0, 200) = Ret {[ 1 := [(1, 0, 200)] ]}
  ∧ Main.backtrack [(1, 1, 1, 200); (2, 1, 1, 200)] 1 {[ 1 := [(1, 0, 200)] ]}
    = Ret (false, {[ 1 := [(1, 0, 200)] ]})
  ∧ ∃ s', Main.backtrack [(1, 1, 1, 200); (2, 1, 1, 200)] 0 {[ 1 := [] ]}
          = Ret (false, s')
          ∧ s' = {[ 1 := [] ]}.
Proof.
  split; [vm_compute; reflexivity|].
  split; [vm_compute; reflexivity|].
  split; [vm_compute; reflexivity|].
  eexists. split; [vm_compute; reflexivity|].
  apply (backtrack_failure_restores [(1, 1, 1, 200); (2, 1, 1, 200)] 0).
  vm_compute. reflexivity.
Defined.

(** * Timelines of main.py *)

Section timelines.
Import Main MainProps.

Lemma exclusive_snoc (l : list task) (x : task) :
  exclusive l → Forall (λ a, tasks_disjoint a x) l → exclusive (l ++ [x]).
Proof.
  induction l as [|a l IH]; simpl; [done|].
  intros [Ha Hl] [Hax Hlx]%Forall_cons. split; [|by apply IH].
  apply Forall_app. split; [done|]. by apply Forall_singleton.
Qed.

Lemma exclusive_lookup (l : list task) (i k : nat) (a b : task) :
  exclusive l → i ≠ k → l !! i = Some a → l !! k = Some b → tasks_disjoint a b.
Proof.
  revert i k. induction l as [|x l IH]; intros i k Hex Hne Hi Hk; [done|].
  destruct Hex as [Hx Hl]. rewrite Forall_forall in Hx.
  destruct i as [|i], k as [|k]; simpl in Hi, Hk; simplify_eq.
  - apply Hx. by eapply list_elem_of_lookup_2.
  - apply tasks_disjoint_sym, Hx. by eapply list_elem_of_lookup_2.
  - eapply (IH i k); eauto.
Qed.

Lemma exclusive_machine_exclusive (s : gmap Z (list task)) :
  (∀ m l, s !! m = Some l → exclusive l) → machine_exclusive s.
Proof. intros H m l i k a b Hl. eapply exclusive_lookup. by eapply H. Qed.

(** The invariant of [create_schedule]: every timeline is exclusive and
    ends before the end time recorded for its machine. *)
Definition timeline_inv (s : gmap Z (list task)) (ends : gmap Z Z) : Prop :=
  ∀ m l, s !! m = Some l →
    exclusive l ∧ ∀ e, ends !! m = Some e → Forall (λ t, task_end t <= e) l.

Lemma place_exclusive (individual : list job) :
  Forall (λ j, 0 <= job_time j) individual →
  ∀ s ends s',
    place individual s ends = Ret s' →
    timeline_inv s ends →
    ∀ m l, s' !! m = Some l → exclusive l.
Proof.
  induction individual as [|[[[job_id op] m0] pt] individual IH];
    intros Hnn s ends s' H Hinv; simpl in H.
  { inversion H; subst. intros m l Hl. by apply (Hinv m l). }
  apply Forall_cons in Hnn as [Hpt Hnn]. unfold job_time in Hpt. simpl in Hpt.
  apply bind_ret in H as (e0 & He0%getitem_ret & H).
  apply bind_ret in H as (l0 & Hl0%getitem_ret & H).
  eapply IH; [done | exact H |].
  intros m l Hl. apply lookup_insert_Some in Hl as [[<- <-]|[Hne Hl]].
  - destruct (Hinv _ _ Hl0) as [Hex Hend]. specialize (Hend _ He0). split.
    + apply exclusive_snoc; [done|].
      eapply Forall_impl; [exact Hend|]. intros a Ha. simpl in Ha.
      unfold tasks_disjoint, disjoint_intervals, task_start, task_end in *.
      simpl. lia.
    + intros e. rewrite lookup_insert_eq. intros [= <-].
      apply Forall_app. split.
      * eapply Forall_impl; [exact Hend|]. intros a Ha. simpl in Ha. lia.
      * apply Forall_singleton. unfold task_end. simpl. lia.
  - destruct (Hinv _ _ Hl) as [Hex Hend]. split; [done|].
    intros e. rewrite lookup_insert_ne by done. apply Hend.
Qed.

Lemma create_schedule_exclusive machines (individual : list job) s :
  Forall (λ j, 0 <= job_time j) individual →
  create_schedule machines individual = Ret s →
  machine_exclusive s.
Proof.
  intros Hnn H. apply exclusive_machine_exclusive.
  eapply place_exclusive; [exact Hnn | exact H |].
  intros m l Hl. rewrite lookup_empty_schedule in Hl. case_decide; [|done].
  inversion Hl; subst. split; [done|]. intros; constructor.
Qed.

(** The schedule the backtracking solver returns is exclusive. *)
Lemma backtracking_exclusive jobs machines s :
  backtracking_algorithm jobs machines = Ret (Some s) → machine_exclusive s.
Proof.
  intros H. pose proof (backtracking_algorithm_spec jobs machines) as Hspec.
  rewrite H in Hspec. destruct Hspec as (starts & (_ & _ & _ & Hex) & Hs).
  apply exclusive_machine_exclusive. intros m l Hl. rewrite Hs in Hl.
  case_decide; [|done]. inversion Hl; subst. apply Hex.
Qed.

End timelines.

(** * The list scheduler (Backtracking.py) *)

Section list_scheduler.
Import Scheduler SchedulerProps.

Lemma od_get_set {V : Type} (d : list (Z * V)) (k j : Z) (v x : V) :
  od_get (od_set k v d) j = Ret x →
  (j = k ∧ x = v) ∨ (j ≠ k ∧ od_get d j = Ret x).
Proof.
  induction d as [|[k' v'] d IH]; cbn [od_set od_get].
  - destruct (decide (j = k)) as [->|Hjk]; [intros [= <-]; auto | done].
  - destruct (decide (k = k')) as [<-|Hkk]; cbn [od_get].
    + destruct (decide (j = k)) as [->|Hjk]; [intros [= <-]; auto | auto].
    + destruct (decide (j = k')) as [->|Hjk'].
      * intros [= <-]. right. split; [congruence | done].
      * intros H. apply IH in H as [?|[? ?]]; auto.
Qed.

(** A value of the [jobs] dictionary is one of the jobs it is built from. *)
Lemma od_get_jobs (js : list Job) (d : list (Z * Job)) (j : Z) (job : Job) :
  od_get (foldl (λ d job, od_set (job_id job) job d) d js) j = Ret job →
  job ∈ js ∨ od_get d j = Ret job.
Proof.
  revert d. induction js as [|job0 js IH]; intros d; cbn [foldl]; [auto|].
  intros [H|H]%IH; [left; by apply list_elem_of_further|].
  apply od_get_set in H as [[_ ->]|[_ ?]]; [left; by apply list_elem_of_here | auto].
Qed.

Lemma init_fields js deps ms self :
  init js deps ms = Ret self →
  jobs self = foldl (λ d job, od_set (job_id job) job d) [] js
  ∧ schedule self = ∅ ∧ start_times self = ∅.
Proof.
  unfold init, _build_graph. intros ([g d] & _ & [= <-])%bind_ret. done.
Qed.

Lemma init_nonneg_times js deps ms self :
  init js deps ms = Ret self →
  Forall (λ job, 0 <= processing_time job) js →
  nonneg_times (jobs self).
Proof.
  intros (-> & _)%init_fields Hjs j job [Hin|H]%od_get_jobs; [|done].
  rewrite Forall_forall in Hjs. by apply Hjs.
Qed.

Lemma topological_sort_fields self topo_order self1 :
  topological_sort self = Ret (topo_order, self1) →
  jobs self1 = jobs self ∧ schedule self1 = schedule self
  ∧ start_times self1 = start_times self ∧ machines self1 = machines self.
Proof.
  unfold topological_sort. intros (queue & _ & H)%bind_ret.
  apply bind_ret in H as ([topo d] & _ & [= _ <-]). done.
Qed.

(** The schedule the list scheduler returns for a fresh scheduler is exclusive. *)
Lemma list_schedule_exclusive js deps ms self s self' :
  init js deps ms = Ret self →
  Backtracking.schedule_jobs self = Ret (Backtracking.Schedule s, self') →
  Forall (λ job, 0 <= processing_time job) js →
  schedule_exclusive (jobs self) s.
Proof.
  intros Hinit H Hjs. unfold Backtracking.schedule_jobs in H.
  apply bind_ret in H as ([topo self1] & Htopo & H).
  apply topological_sort_fields in Htopo as (Hjobs & Hsched & _).
  destruct topo as [|j topo]; [done|].
  apply bind_ret in H as ([[usage' sched'] starts'] & Hplace & [= <- _]).
  rewrite Hsched, Hjobs in Hplace.
  destruct (init_fields _ _ _ _ Hinit) as (_ & Hempty & _).
  rewrite Hempty in Hplace.
  eapply place_jobs_fresh_exclusive; [|exact Hplace].
  by eapply init_nonneg_times.
Qed.

End list_scheduler.

(** * The scenario *)

Lemma scenario_init :
  Scheduler.init Scenario.scenario_jobs Scenario.scenario_dependencies
    Scenario.scenario_machines = Ret Scenario.scenario_scheduler.
Proof. vm_compute. reflexivity. Qed.

(** C4: on the scenario (machines A, B, C; jobs 1(A,5), 2(B,8), 3(C,3),
    4(A+B,6) after 1, 5(B+C,4) after 2 and 3) the list scheduler returns
    exactly job 1 at 0 on A, job 2 at 0 on B, job 3 at 0 on C, job 4 at 8 on
    A and B, job 5 at 14 on B and C, and the makespan is 18. *)
Theorem list_schedule_scenario :
  ∃ s : gmap Z (Z * list string),
    Backtracking.run_list_schedule Scenario.scenario_jobs
      Scenario.scenario_dependencies Scenario.scenario_machines
    = Ret (Backtracking.Schedule s)
    ∧ s = list_to_map
            [ (1, (0, ["A"%string])); (2, (0, ["B"%string]));
              (3, (0, ["C"%string])); (4, (8, ["A"%string; "B"%string]));
              (5, (14, ["B"%string; "C"%string])) ]
    ∧ Backtracking.makespan Scenario.scenario_jobs s = 18.
Proof.
  eexists. split; [vm_compute; reflexivity|].
  split; vm_compute; reflexivity.
Qed.

(** * Determinism of the list scheduler *)

(** C7: the list scheduler is deterministic. Two runs on the same jobs,
    dependencies and machines (each run builds its scheduler from them, as
    [show_gantt_chart] does) end the same way, and when they return they
    return the same schedule: the same start time and machines for every job. *)
Theorem list_scheduler_deterministic js deps ms :
  (∀ o1 o2,
     Backtracking.run_list_schedule js deps ms = o1 →
     Backtracking.run_list_schedule js deps ms = o2 → o1 = o2)
  ∧ (∀ self1 self2 r1 r2 self1' self2',
     Scheduler.init js deps ms = Ret self1 →
     Scheduler.init js deps ms = Ret self2 →
     Backtracking.schedule_jobs self1 = Ret (r1, self1') →
     Backtracking.schedule_jobs self2 = Ret (r2, self2') →
     r1 = r2 ∧ self1' = self2').
Proof.
  split.
  - congruence.
  - intros self1 self2 r1 r2 self1' self2' H1 H2 Hr1 Hr2.
    rewrite H1 in H2. injection H2 as <-. rewrite Hr1 in Hr2. by injection Hr2.
Qed.

(** Two runs on the scenario. *)
Lemma list_scheduler_deterministic_witness :
  ∃ r1 r2 self1' self2',
    Backtracking.schedule_jobs Scenario.scenario_scheduler = Ret (r1, self1')
    ∧ Backtracking.schedule_jobs Scenario.scenario_scheduler = Ret (r2, self2')
    ∧ r1 = r2 ∧ self1' = self2'.
Proof.
  eexists _, _, _, _.
  split; [vm_compute; reflexivity|]. split; [vm_compute; reflexivity|].
  eapply (proj2 (list_scheduler_deterministic Scenario.scenario_jobs
                   Scenario.scenario_dependencies Scenario.scenario_machines)
            Scenario.scenario_scheduler Scenario.scenario_scheduler).
  - exact scenario_init.
  - exact scenario_init.
  - vm_compute. reflexivity.
  - vm_compute. reflexivity.
Defined.

(** [topological_sort] uses up [in_degree]: asking the same scheduler object
    a second time walks the jobs in insertion order. With job 2 entered
    before job 1 and job 2 depending on job 1, the first call places job 1 at
    0 and job 2 at 5, a second call on that object job 2 at 0 and job 1 at 3.
    No caller in the repository asks a scheduler twice. *)
Remark schedule_jobs_second_call :
  let js := [ {| Scheduler.job_id := 2; Scheduler.processing_time := 3;
                 Scheduler.required_machines := ["A"%string] |};
              {| Scheduler.job_id := 1; Scheduler.processing_time := 5;
                 Scheduler.required_machines := ["A"%string] |} ] in
  let ms := [ {| Scheduler.name := "A"; Scheduler.capacity := 100 |} ] in
  ∃ self s1 self1 s2 self2,
    Scheduler.init js [(1, 2)] ms = Ret self
    ∧ Backtracking.schedule_jobs self = Ret (Backtracking.Schedule s1, self1)
    ∧ Backtracking.schedule_jobs self1 = Ret (Backtracking.Schedule s2, self2)
    ∧ s1 = list_to_map [ (1, (0, ["A"%string])); (2, (5, ["A"%string])) ]
    ∧ s2 = list_to_map [ (1, (3, ["A"%string])); (2, (0, ["A"%string])) ].
Proof.
  eexists _, _, _, _, _.
  split_and!; vm_compute; reflexivity.
Qed.

(** * The genetic optimizer of GeneticAlgorithm.py *)

Section genetic_placement.
Import Scheduler SchedulerProps.

(** The final placement of the best order on a scheduler whose schedule is
    still empty is exclusive. *)
Lemma genetic_schedule_exclusive self population_size generations rate_num rate_den
    tape best makespan self' trace tape' :
  schedule self = ∅ →
  nonneg_times (jobs self) →
  GeneticAlgorithm.genetic_algorithm self population_size generations
    rate_num rate_den tape = Ret (best, makespan, self', trace, tape') →
  jobs self' = jobs self ∧ schedule_exclusive (jobs self') (schedule self').
Proof.
  intros Hempty Hnn H. unfold GeneticAlgorithm.genetic_algorithm in H.
  apply rbind_ret in H as (population & t1 & _ & H).
  apply rbind_ret in H as (trace0 & t2 & _ & H).
  apply rbind_ret in H as (scores & t3 & _ & H).
  apply rbind_ret in H as (best0 & t4 & _ & H).
  apply rbind_ret in H as (mk & t5 & _ & H).
  apply rbind_ret in H as (self1 & t6 & [Hs _]%lift_ret & H).
  apply rret_ret in H as [[= <- <- <- <-] _].
  unfold GeneticAlgorithm.schedule_jobs in Hs.
  apply bind_ret in Hs as ([[usage' sched'] starts'] & Hplace & [= <-]).
  split; [done|]. simpl. rewrite Hempty in Hplace.
  by eapply place_jobs_fresh_exclusive.
Qed.

End genetic_placement.

(** * The genetic variant of main.py *)

Section main_genetic.
Import Main MainProps.

Variable jobs : list job.
Variable machines : list Z.
Variable population_size : Z.
Variable rate_num : Z.
Variable rate_den : positive.

Implicit Types (population : list (list job)) (individual : list job).

(** Individuals only hold rows of the jobs table. *)
Definition rows_of_jobs population : Prop := Forall (λ ind, ind ⊆ jobs) population.

Lemma initialize_population_ret t population t' :
  initialize_population jobs population_size t = Ret (population, t') →
  length population = Z.to_nat population_size
  ∧ Forall (λ ind, ind ≡ₚ jobs) population.
Proof.
  unfold initialize_population. apply repeat_rand_ret.
  intros t0 x t0'. apply random_sample_all.
Qed.

Lemma crossover_rows parent1 parent2 t child t' :
  crossover jobs parent1 parent2 t = Ret (child, t') →
  parent1 ⊆ jobs → parent2 ⊆ jobs → child ⊆ jobs.
Proof.
  unfold crossover. intros (point & t1 & _ & [-> _]%rret_ret)%rbind_ret H1 H2 x.
  intros [?|?]%crossover_child_subseteq; auto.
Qed.

Lemma mutate_rows individual t individual' t' :
  mutate rate_num rate_den individual t = Ret (individual', t') →
  individual' ⊆ individual.
Proof.
  unfold mutate. intros (hit & t1 & _ & H)%rbind_ret. destruct hit.
  - apply rbind_ret in H as (idx & t2 & _ & H).
    destruct idx as [|i [|j [|? ?]]]; try done.
    apply lift_ret in H as [H _]. by apply swap_subseteq in H.
  - by apply rret_ret in H as [-> _].
Qed.

(** [breed] makes two children for every two parents. *)
Lemma breed_ret population :
  ∀ next t next' t',
    breed jobs rate_num rate_den population next t = Ret (next', t') →
    length next' = (length next + 2 * (length population / 2))%nat
    ∧ (rows_of_jobs population → rows_of_jobs next → rows_of_jobs next').
Proof.
  induction population as [population IH] using (induction_ltof1 _ length).
  unfold ltof in IH. intros next t next' t' H.
  destruct population as [|parent1 [|parent2 rest]]; simpl in H.
  - apply rret_ret in H as [-> _]. simpl. split; [lia | auto].
  - apply rret_ret in H as [-> _]. simpl. split; [lia | auto].
  - apply rbind_ret in H as (child1 & t1 & Hc1 & H).
    apply rbind_ret in H as (child2 & t2 & Hc2 & H).
    apply rbind_ret in H as (child1' & t3 & Hm1 & H).
    apply rbind_ret in H as (child2' & t4 & Hm2 & H).
    apply IH in H as [Hlen Hrows]; [|simpl; lia]. split.
    + rewrite Hlen, length_app. simpl length.
      change (S (S (length rest))) with (2 + length rest)%nat.
      replace (2 + length rest)%nat with (length rest + 1 * 2)%nat by lia.
      rewrite Nat.div_add by lia. lia.
    + intros Hpop Hnext. apply Forall_cons in Hpop as [Hp1 Hpop].
      apply Forall_cons in Hpop as [Hp2 Hpop]. apply Hrows; [done|].
      apply Forall_app. split; [done|].
      apply mutate_rows in Hm1, Hm2.
      repeat constructor.
      * etrans; [exact Hm1|]. by eapply crossover_rows.
      * etrans; [exact Hm2|]. by eapply crossover_rows.
Qed.

Lemma sort_by_fitness_perm population ranked :
  sort_by_fitness machines population = Ret ranked → ranked ≡ₚ population.
Proof.
  unfold sort_by_fitness. intros (keys & Hkeys & [= <-])%bind_ret.
  rewrite sorted_perm. rewrite snd_zip; [done|].
  apply map_outcome_length in Hkeys. lia.
Qed.

(** One round keeps the best [population_size] individuals and appends the
    children of their pairs. *)
Lemma generation_ret population t population' children t' :
  generation jobs machines population_size rate_num rate_den population t
    = Ret (population', children, t') →
  ∃ ranked,
    ranked ≡ₚ population
    ∧ population' = slice_to ranked population_size ++ children
    ∧ length children
      = (2 * (length (slice_to ranked population_size) / 2))%nat
    ∧ (rows_of_jobs population → rows_of_jobs population').
Proof.
  unfold generation. intros (ranked & t1 & [Hrank _]%lift_ret & H)%rbind_ret.
  apply rbind_ret in H as (next & t2 & Hbreed & [[= -> ->] _]%rret_ret).
  apply sort_by_fitness_perm in Hrank. apply breed_ret in Hbreed as [Hlen Hrows].
  exists ranked. split_and!; try done.
  intros Hpop.
  assert (rows_of_jobs (slice_to ranked population_size)) as Hsurv.
  { apply Forall_forall. intros ind Hind%slice_to_subseteq.
    rewrite Hrank in Hind. unfold rows_of_jobs in Hpop.
    rewrite Forall_forall in Hpop. by apply Hpop. }
  apply Forall_app. split; [done|]. apply Hrows; [done | constructor].
Qed.

Lemma generations_trace_rows rounds :
  ∀ population t trace t',
    generations_trace jobs machines population_size rate_num rate_den
      rounds population t = Ret (trace, t') →
    rows_of_jobs population → Forall rows_of_jobs trace.
Proof.
  induction rounds as [|rounds IH]; intros population t trace t' H Hpop; simpl in H.
  - apply rret_ret in H as [-> _]. by constructor.
  - apply rbind_ret in H as ([population' children] & t1 & Hgen & H).
    apply rbind_ret in H as (later & t2 & Hlater & [-> _]%rret_ret).
    constructor; [done|]. eapply IH; [exact Hlater|].
    apply generation_ret in Hgen as (ranked & _ & _ & _ & Hrows). by apply Hrows.
Qed.

(** The schedule the genetic variant returns is exclusive. *)
Lemma main_genetic_exclusive generations t s trace t' :
  Forall (λ j, 0 <= job_time j) jobs →
  genetic_algorithm jobs machines population_size rate_num rate_den generations t
    = Ret (s, trace, t') →
  machine_exclusive s.
Proof.
  intros Hnn H. unfold genetic_algorithm in H.
  apply rbind_ret in H as (population & t1 & Hinit & H).
  apply rbind_ret in H as (trace0 & t2 & Htrace & H).
  apply rbind_ret in H as (keys & t3 & [Hkeys _]%lift_ret & H).
  apply rbind_ret in H as (best & t4 & [Hbest _]%lift_ret & H).
  apply rbind_ret in H as (s0 & t5 & [Hs _]%lift_ret & [[= <- <-] _]%rret_ret).
  apply initialize_population_ret in Hinit as [_ Hinit].
  assert (rows_of_jobs population) as Hpop.
  { eapply Forall_impl; [exact Hinit|]. intros ind Hperm x Hx. simpl in Hperm.
    by rewrite <- Hperm. }
  apply generations_trace_rows in Htrace; [|done].
  assert (rows_of_jobs (List.last trace population)) as Hfinal.
  { destruct trace as [|p trace _] using rev_ind; [done|].
    rewrite last_last. apply Forall_app in Htrace as [_ Htrace].
    by rewrite Forall_singleton in Htrace. }
  apply py_min_elem in Hbest. rewrite snd_zip in Hbest
    by (apply map_outcome_length in Hkeys; lia).
  unfold rows_of_jobs in Hfinal. rewrite Forall_forall in Hfinal.
  apply Hfinal in Hbest.
  eapply create_schedule_exclusive; [|exact Hs].
  apply Forall_forall. intros j Hj. rewrite Forall_forall in Hnn. auto.
Qed.

End main_genetic.

(** * Machine exclusivity of every solver *)

(** C1: every schedule a solver returns is exclusive on every machine: two
    jobs assigned to one machine occupy intervals [[start, start +
    processing_time)] that do not overlap. This holds for the list scheduler
    ([schedule_jobs] of Backtracking.py), for the final placement of both
    genetic optimizers ([schedule_jobs(best_schedule)] of GeneticAlgorithm.py
    and [create_schedule] of main.py) and for the backtracking solver.
    Processing times are durations: they are not negative. *)
Theorem machine_exclusivity :
  (∀ js deps ms self s self',
     Scheduler.init js deps ms = Ret self →
     Backtracking.schedule_jobs self = Ret (Backtracking.Schedule s, self') →
     Forall (λ job, 0 <= Scheduler.processing_time job) js →
     SchedulerProps.schedule_exclusive (Scheduler.jobs self) s)
  ∧ (∀ js deps ms self0 topo_order self population_size generations rate_num rate_den
       tape best makespan self' trace tape',
     Scheduler.init js deps ms = Ret self0 →
     Scheduler.topological_sort self0 = Ret (topo_order, self) →
     GeneticAlgorithm.genetic_algorithm self population_size generations
       rate_num rate_den tape = Ret (best, makespan, self', trace, tape') →
     Forall (λ job, 0 <= Scheduler.processing_time job) js →
     SchedulerProps.schedule_exclusive (Scheduler.jobs self') (Scheduler.schedule self'))
  ∧ (∀ jobs machines population_size rate_num rate_den generations tape s trace tape',
     Main.genetic_algorithm jobs machines population_size rate_num rate_den
       generations tape = Ret (s, trace, tape') →
     Forall (λ j, 0 <= MainProps.job_time j) jobs →
     MainProps.machine_exclusive s)
  ∧ (∀ jobs machines s,
     Main.backtracking_algorithm jobs machines = Ret (Some s) →
     MainProps.machine_exclusive s).
Proof.
  split_and!.
  - intros. by eapply list_schedule_exclusive.
  - intros js deps ms self0 topo_order self ?????????? Hinit Htopo Hga Hjs.
    apply topological_sort_fields in Htopo as (Hjobs & Hsched & _).
    eapply genetic_schedule_exclusive in Hga as [_ ?]; [done| |].
    + rewrite Hsched. by apply init_fields in Hinit as (_ & ? & _).
    + rewrite Hjobs. by eapply init_nonneg_times.
  - intros. by eapply main_genetic_exclusive.
  - intros. by eapply backtracking_exclusive.
Qed.

(** The four solvers on small inputs: the scenario for the class
    [JobScheduler], three rows on two machines for main.py. *)
Lemma machine_exclusivity_witness :
  (∃ self s self',
     Scheduler.init Scenario.scenario_jobs Scenario.scenario_dependencies
       Scenario.scenario_machines = Ret self
     ∧ Backtracking.schedule_jobs self = Ret (Backtracking.Schedule s, self')
     ∧ SchedulerProps.schedule_exclusive (Scheduler.jobs self) s)
  ∧ (∃ self0 topo_order self best makespan self' trace tape',
     Scheduler.init Scenario.scenario_jobs Scenario.scenario_dependencies
       Scenario.scenario_machines = Ret self0
     ∧ Scheduler.topological_sort self0 = Ret (topo_order, self)
     ∧ GeneticAlgorithm.genetic_algorithm self 4 2 1 10 [3; 1; 4; 1; 5; 9; 2; 6]%N
       = Ret (best, makespan, self', trace, tape')
     ∧ SchedulerProps.schedule_exclusive (Scheduler.jobs self') (Scheduler.schedule self'))
  ∧ (∃ s trace tape',
     Main.genetic_algorithm [(1, 1, 1, 5); (2, 1, 2, 3); (3, 1, 1, 4)] [1; 2]
       4 1 10 2 [3; 1; 4; 1; 5; 9; 2; 6]%N = Ret (s, trace, tape')
     ∧ MainProps.machine_exclusive s)
  ∧ (∃ s,
     Main.backtracking_algorithm [(1, 1, 1, 5); (2, 1, 2, 3); (3, 1, 1, 4)] [1; 2]
       = Ret (Some s)
     ∧ MainProps.machine_exclusive s).
Proof.
  pose proof machine_exclusivity as (Hlist & Hga & Hmain & Hback).
  assert (Forall (λ job, 0 <= Scheduler.processing_time job) Scenario.scenario_jobs)
    as Hjs by (repeat constructor; simpl; lia).
  split_and!.
  - eexists _, _, _. split_and!; [vm_compute; reflexivity | vm_compute; reflexivity |].
    eapply (Hlist Scenario.scenario_jobs Scenario.scenario_dependencies
              Scenario.scenario_machines);
      [vm_compute; reflexivity | vm_compute; reflexivity | exact Hjs].
  - eexists _, _, _, _, _, _, _, _.
    split_and!; [vm_compute; reflexivity | vm_compute; reflexivity
                 | vm_compute; reflexivity |].
    eapply (Hga Scenario.scenario_jobs Scenario.scenario_dependencies
              Scenario.scenario_machines _ _ _ 4 2 1 10%positive
              [3; 1; 4; 1; 5; 9; 2; 6]%N);
      [vm_compute; reflexivity | vm_compute; reflexivity
       | vm_compute; reflexivity | exact Hjs].
  - eexists _, _, _. split; [vm_compute; reflexivity|].
    eapply (Hmain [(1, 1, 1, 5); (2, 1, 2, 3); (3, 1, 1, 4)] [1; 2]
              4 1 10%positive 2 [3; 1; 4; 1; 5; 9; 2; 6]%N);
      [vm_compute; reflexivity|].
    repeat constructor; unfold MainProps.job_time; simpl; lia.
  - eexists. split; [vm_compute; reflexivity|].
    eapply (Hback [(1, 1, 1, 5); (2, 1, 2, 3); (3, 1, 1, 4)] [1; 2]).
    vm_compute; reflexivity.
Defined.

(** * Crossover and fitness *)

Section crossover.
Context {A : Type} `{EqDecision A}.

(** The order crossover of two permutations of a duplicate-free list is a
    permutation of that list, whatever the cut point. *)
Lemma crossover_child_perm (ids parent1 parent2 : list A) (point : Z) :
  NoDup ids → parent1 ≡ₚ ids → parent2 ≡ₚ ids →
  crossover_child parent1 parent2 point ≡ₚ ids.
Proof.
  intros Hids H1 H2. unfold crossover_child.
  destruct (slice_to_take parent1 point) as [n ->].
  assert (NoDup parent1) as Hnd1 by (by rewrite H1).
  assert (NoDup parent2) as Hnd2 by (by rewrite H2).
  assert (NoDup (take n parent1)) as Hpre.
  { rewrite <- (take_drop n parent1) in Hnd1. by apply NoDup_app in Hnd1 as [? _]. }
  apply NoDup_Permutation.
  - apply NoDup_app. split_and!; [exact Hpre| |by apply NoDup_filter].
    intros x Hx [Hout _]%list_elem_of_filter. by apply Hout.
  - exact Hids.
  - intros x. rewrite elem_of_app, list_elem_of_filter. split.
    + intros [Hx|[_ Hx]].
      * rewrite <- H1. by eapply subseteq_take.
      * by rewrite <- H2.
    + intros Hx. destruct (decide (x ∈ take n parent1)); [auto|].
      right. split; [done|]. by rewrite H2.
Qed.

End crossover.

Section main_fitness.
Import Main.

Lemma add_times_swap (x y : job) (l : list job) (machine_times : gmap Z Z) :
  add_times (x :: y :: l) machine_times = add_times (y :: x :: l) machine_times.
Proof.
  destruct x as [[[ix ox] mx] px], y as [[[iy oy] my] py]. cbn [add_times].
  unfold getitem. destruct (decide (mx = my)) as [->|Hne].
  - destruct (machine_times !! my) as [t|] eqn:Ht; simpl; [|done].
    rewrite !lookup_insert_eq. simpl. rewrite !insert_insert_eq.
    by replace (t + px + py) with (t + py + px) by lia.
  - destruct (machine_times !! mx) as [tx|] eqn:Hx;
      destruct (machine_times !! my) as [ty|] eqn:Hy; simpl;
      rewrite ?lookup_insert_ne by done; rewrite ?Hx, ?Hy; simpl; try done.
    by rewrite insert_insert_ne.
Qed.

Lemma add_times_perm (s1 s2 : list job) :
  s1 ≡ₚ s2 → ∀ machine_times, add_times s1 machine_times = add_times s2 machine_times.
Proof.
  induction 1 as [|x l1 l2 _ IH|x y l|l1 l2 l3 _ IH1 _ IH2]; intros machine_times.
  - done.
  - destruct x as [[[ix ox] mx] px]. cbn [add_times].
    destruct (getitem machine_times mx); simpl; [apply IH | done].
  - apply add_times_swap.
  - by rewrite IH1.
Qed.

Lemma fitness_perm machines (s1 s2 : list job) :
  s1 ≡ₚ s2 → fitness machines s1 = fitness machines s2.
Proof. intros H. unfold fitness. by rewrite (add_times_perm _ _ H). Qed.

(** Sorting by a key that never orders two elements returns the list. *)
Lemma sorted_no_lt {B : Type} (lt : B → B → bool) (l : list B) :
  (∀ x y, x ∈ l → y ∈ l → lt x y = false) → sorted lt l = l.
Proof.
  intros Hlt. unfold sorted.
  assert (∀ acc, (∀ x y, x ∈ l → y ∈ acc ++ l → lt x y = false) →
            foldl (λ acc x, insert_sorted lt x acc) acc l = acc ++ l) as H.
  { clear Hlt. induction l as [|x l IH]; intros acc Hacc; cbn [foldl].
    - by rewrite app_nil_r.
    - assert (insert_sorted lt x acc = acc ++ [x]) as ->.
      { assert (∀ y, y ∈ acc → lt x y = false) as Hx.
        { intros y ?. apply Hacc; [apply list_elem_of_here|].
          apply elem_of_app. auto. }
        clear -Hx. induction acc as [|y acc IH]; simpl; [done|].
        rewrite Hx by apply list_elem_of_here. f_equal. apply IH.
        intros z ?. apply Hx. by apply list_elem_of_further. }
      rewrite IH; [by rewrite <- app_assoc|].
      intros z y Hz Hy. apply Hacc; [by apply list_elem_of_further|].
      by rewrite <- app_assoc in Hy. }
  apply H. intros x y Hx Hy. by apply Hlt.
Qed.

Lemma map_outcome_zip {A B : Type} (f : A → outcome B) (l : list A) (ys : list B) :
  map_outcome f l = Ret ys → Forall (λ p, f p.2 = Ret p.1 ∧ p.2 ∈ l) (zip ys l).
Proof.
  revert ys. induction l as [|x l IH]; intros ys H; simpl in H.
  - inversion H; subst. constructor.
  - apply bind_ret in H as (y & Hy & H). apply bind_ret in H as (ys' & Hys & [= <-]).
    simpl. constructor; [split; [done | apply list_elem_of_here]|].
    eapply Forall_impl; [by apply IH|]. intros p [? ?]. split; [done|].
    by apply list_elem_of_further.
Qed.

(** When every individual is an ordering of one job list, ranking the
    population by fitness leaves it as it is. *)
Lemma sort_by_fitness_same machines (jobs : list job) population ranked :
  Forall (λ ind, ind ≡ₚ jobs) population →
  sort_by_fitness machines population = Ret ranked →
  ranked = population.
Proof.
  intros Hpop. unfold sort_by_fitness. intros (keys & Hkeys & [= <-])%bind_ret.
  pose proof (map_outcome_zip _ _ _ Hkeys) as Hzip.
  rewrite Forall_forall in Hzip. rewrite Forall_forall in Hpop.
  rewrite sorted_no_lt.
  - apply snd_zip. apply map_outcome_length in Hkeys. lia.
  - intros a b [Ha Hina]%Hzip [Hb Hinb]%Hzip.
    apply Hpop in Hina, Hinb.
    rewrite (fitness_perm machines a.2 b.2) in Ha by (by rewrite Hina, Hinb).
    rewrite Ha in Hb. injection Hb as ->. apply bool_decide_eq_false. lia.
Qed.

End main_fitness.

Section job_ids.
Import Scheduler.

Lemma od_keys_set {V : Type} (k : Z) (v : V) (d : list (Z * V)) :
  od_keys (od_set k v d)
  = if decide (k ∈ od_keys d) then od_keys d else od_keys d ++ [k].
Proof.
  unfold od_keys. induction d as [|[k' v'] d IH]; cbn [od_set].
  - by rewrite decide_False by apply not_elem_of_nil.
  - destruct (decide (k = k')) as [<-|Hne]; rewrite !fmap_cons; cbn [fst].
    + by rewrite decide_True by apply list_elem_of_here.
    + rewrite IH. destruct (decide (k ∈ d.*1)) as [Hin|Hout].
      * by rewrite decide_True by (by apply list_elem_of_further).
      * rewrite decide_False; [done|]. by intros [?|?]%elem_of_cons.
Qed.

(** The keys of the [jobs] dictionary are the job id set: no id twice. *)
Lemma od_keys_jobs_NoDup (js : list Job) (d : list (Z * Job)) :
  NoDup (od_keys d) →
  NoDup (od_keys (foldl (λ d job, od_set (job_id job) job d) d js)).
Proof.
  revert d. induction js as [|job js IH]; intros d Hd; cbn [foldl]; [done|].
  apply IH. rewrite od_keys_set. case_decide as Hin; [done|].
  apply NoDup_app. split_and!; [done| |apply NoDup_singleton].
  intros x Hx ->%list_elem_of_singleton. done.
Qed.

Lemma init_keys_NoDup js deps ms self :
  init js deps ms = Ret self → NoDup (od_keys (jobs self)).
Proof.
  intros (-> & _)%init_fields. apply od_keys_jobs_NoDup. constructor.
Qed.

End job_ids.

(** C9: the child of a crossover of two permutations of the job id set is a
    permutation of the job id set, with no job twice and none missing: in
    GeneticAlgorithm.py for the parents sampled from a population of
    permutations of the keys of [jobs], in main.py for two orderings of the
    rows of a jobs table that holds no row twice. *)
Theorem crossover_is_permutation :
  (∀ js deps ms self population tape child tape',
     Scheduler.init js deps ms = Ret self →
     Forall (λ ind, ind ≡ₚ od_keys (Scheduler.jobs self)) population →
     GeneticAlgorithm.crossover_step self population tape = Ret (child, tape') →
     child ≡ₚ od_keys (Scheduler.jobs self) ∧ NoDup child)
  ∧ (∀ jobs parent1 parent2 tape child tape',
     NoDup jobs → parent1 ≡ₚ jobs → parent2 ≡ₚ jobs →
     Main.crossover jobs parent1 parent2 tape = Ret (child, tape') →
     child ≡ₚ jobs ∧ NoDup child).
Proof.
  split.
  - intros js deps ms self population tape child tape' Hinit Hpop H.
    apply init_keys_NoDup in Hinit.
    unfold GeneticAlgorithm.crossover_step in H.
    apply rbind_ret in H as (parents & t1 & Hparents & H).
    destruct parents as [|parent1 [|parent2 [|? ?]]]; try done.
    apply rbind_ret in H as (point & t2 & _ & [-> _]%rret_ret).
    apply random_sample_subseteq in Hparents. rewrite Forall_forall in Hpop.
    assert (crossover_child parent1 parent2 point ≡ₚ od_keys (Scheduler.jobs self)) as Hc.
    { apply crossover_child_perm; [done| |]; apply Hpop, Hparents.
      - apply list_elem_of_here.
      - apply list_elem_of_further, list_elem_of_here. }
    split; [done|]. by rewrite Hc.
  - intros jobs parent1 parent2 tape child tape' Hjobs H1 H2 H.
    unfold Main.crossover in H.
    apply rbind_ret in H as (point & t1 & _ & [-> _]%rret_ret).
    assert (crossover_child parent1 parent2 point ≡ₚ jobs) as Hc
      by (by apply crossover_child_perm).
    split; [done|]. by rewrite Hc.
Qed.


(** Parents [1,2,3,4,5] and [5,4,3,2,1] of the scenario, and two orderings of
    three rows. *)
Lemma crossover_is_permutation_witness :
  (∃ child tape',
     GeneticAlgorithm.crossover_step Scenario.scenario_scheduler
       [[1; 2; 3; 4; 5]; [5; 4; 3; 2; 1]] [0; 0; 1]%N = Ret (child, tape')
     ∧ child ≡ₚ [1; 2; 3; 4; 5] ∧ NoDup child)
  ∧ (∃ child tape',
     Main.crossover Scenario.rows [(3, 1, 1, 4); (1, 1, 1, 5); (2, 1, 2, 3)]
       [(2, 1, 2, 3); (3, 1, 1, 4); (1, 1, 1, 5)] [1]%N = Ret (child, tape')
     ∧ child ≡ₚ Scenario.rows ∧ NoDup child).
Proof.
  split.
  - eexists _, _. split; [vm_compute; reflexivity|].
    eapply (proj1 crossover_is_permutation Scenario.scenario_jobs
              Scenario.scenario_dependencies Scenario.scenario_machines
              Scenario.scenario_scheduler
              [[1; 2; 3; 4; 5]; [5; 4; 3; 2; 1]] [0; 0; 1]%N).
    + vm_compute. reflexivity.
    + by_compute.
    + vm_compute. reflexivity.
  - eexists _, _. split; [vm_compute; reflexivity|].
    eapply (proj2 crossover_is_permutation Scenario.rows
              [(3, 1, 1, 4); (1, 1, 1, 5); (2, 1, 2, 3)]
              [(2, 1, 2, 3); (3, 1, 1, 4); (1, 1, 1, 5)] [1]%N).
    + by_compute.
    + by_compute.
    + by_compute.
    + vm_compute. reflexivity.
Defined.

(** C10: the fitness of main.py's genetic variant does not depend on the
    order of the individual: two orderings of the same job list have the same
    fitness (it adds the processing times per machine), so ranking a
    population of orderings of one job list by fitness leaves it unchanged:
    selection cannot tell the candidates apart. *)
Theorem fitness_ignores_order :
  (∀ machines (s1 s2 : list Main.job),
     s1 ≡ₚ s2 → Main.fitness machines s1 = Main.fitness machines s2)
  ∧ (∀ machines (jobs : list Main.job) population ranked,
     Forall (λ ind, ind ≡ₚ jobs) population →
     Main.sort_by_fitness machines population = Ret ranked →
     ranked = population).
Proof.
  split.
  - intros. by apply fitness_perm.
  - intros. by eapply sort_by_fitness_same.
Qed.

(** Two orderings of three rows have fitness 9 on machines 1 and 2, and a
    population made of them keeps its order. *)
Lemma fitness_ignores_order_witness :
  Main.fitness [1; 2] Scenario.rows = Ret 9
  ∧ Main.fitness [1; 2] Scenario.rows
    = Main.fitness [1; 2] [(3, 1, 1, 4); (1, 1, 1, 5); (2, 1, 2, 3)]
  ∧ Main.sort_by_fitness [1; 2]
      [ [(3, 1, 1, 4); (1, 1, 1, 5); (2, 1, 2, 3)]; Scenario.rows ]
    = Ret [ [(3, 1, 1, 4); (1, 1, 1, 5); (2, 1, 2, 3)]; Scenario.rows ].
Proof.
  split_and!.
  - vm_compute. reflexivity.
  - apply (proj1 fitness_ignores_order).
    by_compute.
  - destruct (Main.sort_by_fitness [1; 2]
      [ [(3, 1, 1, 4); (1, 1, 1, 5); (2, 1, 2, 3)]; Scenario.rows ])
      as [ranked|e] eqn:E; [|by vm_compute in E].
    f_equal. eapply (proj2 fitness_ignores_order [1; 2] Scenario.rows); [|exact E].
    by_compute.
Defined.

(** * The schedule evaluator of GeneticAlgorithm.py *)

Section evaluator.
Import Scheduler GeneticAlgorithm.

Lemma forallb_false {A : Type} (f : A → bool) (l : list A) :
  forallb f l = false → ∃ x, x ∈ l ∧ f x = false.
Proof.
  induction l as [|x l IH]; simpl; [done|].
  destruct (f x) eqn:Hx; simpl.
  - intros (y & ? & ?)%IH. exists y. split; [by apply list_elem_of_further | done].
  - intros _. exists x. split; [apply list_elem_of_here | done].
Qed.

(** The loop gives up at the first job one of whose entries in [graph], its
    successors, has no start time yet; otherwise every entry of [graph] of
    every job was placed before the job. *)
Lemma evaluate_loop_ret self order :
  ∀ usage job_start_times r,
    evaluate_loop self order usage job_start_times = Ret r →
    match r with
    | None =>
        ∃ pre j post v,
          order = pre ++ j :: post ∧ v ∈ graph_get (graph self) j
          ∧ job_start_times !! v = None ∧ v ∉ pre
    | Some _ =>
        ∀ pre j post v,
          order = pre ++ j :: post → v ∈ graph_get (graph self) j →
          is_Some (job_start_times !! v) ∨ v ∈ pre
    end.
Proof.
  induction order as [|j0 order IH]; intros usage st r H; simpl in H.
  { inversion H; subst. intros [|??] ????; done. }
  apply bind_ret in H as (job & _ & H).
  destruct (dependencies_placed (graph self) j0 st) eqn:Hdeps.
  - apply bind_ret in H as (start_time & _ & H). apply IH in H.
    unfold dependencies_placed in Hdeps. rewrite forallb_forall in Hdeps.
    destruct r as [usage'|].
    + intros [|j1 pre] j post v Heq Hv; simpl in Heq; simplify_eq.
      * left. apply list_elem_of_In, Hdeps in Hv. by apply bool_decide_eq_true in Hv.
      * destruct (H pre j post v eq_refl Hv) as [Hs|Hin].
        -- rewrite lookup_insert in Hs. case_decide as Hjv.
           ++ subst. right. apply list_elem_of_here.
           ++ by left.
        -- right. by apply list_elem_of_further.
    + destruct H as (pre & j & post & v & -> & Hv & Hnone & Hout).
      apply lookup_insert_None in Hnone as [Hnone Hne].
      exists (j0 :: pre), j, post, v. split_and!; try done.
      intros [?|?]%elem_of_cons; congruence.
  - inversion H; subst.
    apply forallb_false in Hdeps as (v & Hv & Hnone).
    apply bool_decide_eq_false in Hnone.
    exists [], j0, order, v. split_and!; try done.
    + by apply eq_None_not_Some.
    + apply not_elem_of_nil.
Qed.

Lemma evaluate_schedule_ret self order f :
  evaluate_schedule self order = Ret f →
  match f with
  | Infinity =>
      ∃ pre j post v,
        order = pre ++ j :: post ∧ v ∈ graph_get (graph self) j ∧ v ∉ pre
  | Finite _ =>
      ∀ pre j post v,
        order = pre ++ j :: post → v ∈ graph_get (graph self) j → v ∈ pre
  end.
Proof.
  unfold evaluate_schedule. intros (r & Hr & H)%bind_ret.
  apply evaluate_loop_ret in Hr. destruct r as [usage|].
  - apply bind_ret in H as (m & _ & [= <-]).
    intros pre j post v Heq Hv. destruct (Hr pre j post v Heq Hv) as [[? Hs]|?]; [|done].
    by rewrite lookup_empty in Hs.
  - inversion H; subst. destruct Hr as (pre & j & post & v & ? & ? & _ & ?).
    by exists pre, j, post, v.
Qed.

End evaluator.

(** C3 on the code: [evaluate_schedule] walks [self.graph[job_id]], the
    successors of the job, so a candidate is infeasible when some job comes
    before one of its successors ([evaluate_schedule_ret]), not when a
    predecessor is missing. On the scenario the topological order
    [1,2,3,4,5], in which every predecessor is placed earlier, scores
    infinity, and its reverse, in which no predecessor is placed earlier,
    scores the finite makespan 18. *)
Theorem evaluate_schedule_checks_successors :
  (∃ self', Scheduler.topological_sort Scenario.scenario_scheduler
            = Ret ([1; 2; 3; 4; 5], self'))
  ∧ GeneticAlgorithm.evaluate_schedule Scenario.scenario_scheduler [1; 2; 3; 4; 5]
    = Ret GeneticAlgorithm.Infinity
  ∧ GeneticAlgorithm.evaluate_schedule Scenario.scenario_scheduler [5; 4; 3; 2; 1]
    = Ret (GeneticAlgorithm.Finite 18).
Proof.
  split_and!.
  - eexists. vm_compute. reflexivity.
  - vm_compute. reflexivity.
  - vm_compute. reflexivity.
Qed.

(** * Population sizes of the genetic optimizers *)

Section sampling_raises.
Context {A : Type}.

Lemma sample_from_raise (k : nat) :
  ∀ (pool : list A) t e, sample_from pool k t = Raise e → e = ValueError.
Proof.
  induction k as [|k IH]; intros pool t e H; simpl in H; [done|].
  apply rbind_raise in H as [H|(n & t1 & _ & H)].
  { unfold draw in H. by destruct t. }
  destruct (pool !! _) as [x|]; [|by inversion H].
  apply rbind_raise in H as [H|(rest & t2 & _ & H)]; [by eapply IH | done].
Qed.

Lemma random_sample_raise (pool : list A) (k : nat) t e :
  random_sample pool k t = Raise e → e = ValueError.
Proof.
  unfold random_sample. case_decide as Hk; [apply sample_from_raise|].
  by intros [= <-].
Qed.

End sampling_raises.

Lemma randint_raise (a b : Z) t e : randint a b t = Raise e → e = ValueError.
Proof.
  unfold randint. case_decide as Hab; [by intros [= <-]|].
  intros [H|(n & t1 & _ & H)]%rbind_raise; [|done].
  unfold draw in H. by destruct t.
Qed.

Section sampling_positions.
Context {A : Type}.

(** [random.sample(pool, 2)] returns the elements of two distinct positions. *)
Lemma random_sample_two (pool : list A) t x y t' :
  random_sample pool 2 t = Ret ([x; y], t') →
  ∃ i j : nat, i ≠ j ∧ pool !! i = Some x ∧ pool !! j = Some y.
Proof.
  unfold random_sample. case_decide as Hlen; [|done]. cbn [sample_from].
  intros (n & t1 & _ & H)%rbind_ret.
  destruct (pool !! _) as [x'|] eqn:Hx; [|done].
  apply rbind_ret in H as (rest & t2 & Hrest & [[= -> <-] _]%rret_ret).
  apply rbind_ret in Hrest as (n2 & t3 & _ & H).
  destruct (delete _ pool !! _) as [y'|] eqn:Hy; [|done].
  apply rbind_ret in H as (rest2 & t4 & _ & [[= -> _] _]%rret_ret).
  match type of Hx with pool !! ?i = _ =>
    match type of Hy with _ !! ?j = _ =>
      destruct (decide (j < i)%nat) as [Hlt|Hge];
      [ exists i, j; rewrite list_lookup_delete_lt in Hy by done
      | exists i, (S j); rewrite list_lookup_delete_ge in Hy by lia ]
    end
  end; (split; [lia | by split]).
Qed.

End sampling_positions.

Lemma randint_ret (a b : Z) t x t' :
  randint a b t = Ret (x, t') → a <= x <= b.
Proof.
  unfold randint. case_decide as Hab; [done|].
  intros (n & t1 & _ & [-> _]%rret_ret)%rbind_ret.
  pose proof (Z.mod_pos_bound (Z.of_N n) (b - a + 1)). lia.
Qed.

Section genetic_population.
Import Scheduler GeneticAlgorithm.

Variable self : JobScheduler.
Variable population_size : Z.
Variable rate_num : Z.
Variable rate_den : positive.

Lemma crossover_step_raise population t e :
  crossover_step self population t = Raise e → e = ValueError.
Proof.
  unfold crossover_step.
  intros [H|(parents & t1 & _ & H)]%rbind_raise; [by eapply random_sample_raise|].
  destruct parents as [|parent1 [|parent2 [|? ?]]]; try by inversion H.
  apply rbind_raise in H as [H|(point & t2 & _ & H)]; [by eapply randint_raise | done].
Qed.

(** The loop stops as soon as there are [population_size] children. *)
Lemma crossover_loop_ret population (fuel : nat) :
  ∀ new_population t new_population' t',
    crossover_loop fuel self population population_size new_population t
      = Ret (new_population', t') →
    if decide (Z.of_nat (length new_population) < population_size)
    then Z.of_nat (length new_population') = population_size
    else new_population' = new_population.
Proof.
  induction fuel as [|fuel IH]; intros new t new' t' H; simpl in H;
    destruct (decide (Z.of_nat (length new) < population_size)) as [Hlt|Hge];
    try done; try by apply rret_ret in H as [-> _].
  apply rbind_ret in H as (child & t1 & _ & H). apply IH in H.
  rewrite length_app in H. simpl in H. case_decide as Hlt'; [done|].
  subst new'. rewrite length_app. simpl. lia.
Qed.

(** The bound given to the loop is never reached. *)
Lemma crossover_loop_fuel population (fuel : nat) :
  ∀ new_population t e,
    (Z.to_nat population_size ≤ fuel + length new_population)%nat →
    crossover_loop fuel self population population_size new_population t
      = Raise e →
    e = ValueError.
Proof.
  induction fuel as [|fuel IH]; intros new t e Hfuel H; simpl in H;
    destruct (decide (Z.of_nat (length new) < population_size)) as [Hlt|Hge];
    try done; try lia.
  apply rbind_raise in H as [H|(child & t1 & _ & H)];
    [by eapply crossover_step_raise|].
  eapply IH; [|exact H]. rewrite length_app. simpl. lia.
Qed.

Lemma mutation_loop_length (new_population : list (list Z)) :
  ∀ t mutated t',
    mutation_loop self rate_num rate_den new_population t = Ret (mutated, t') →
    length mutated = length new_population.
Proof.
  induction new_population as [|individual rest IH]; intros t mutated t' H;
    simpl in H.
  - by apply rret_ret in H as [-> _].
  - apply rbind_ret in H as (individual' & t1 & _ & H).
    apply rbind_ret in H as (rest' & t2 & Hrest & [-> _]%rret_ret).
    simpl. by rewrite (IH _ _ _ Hrest).
Qed.

(** A round ends with exactly [population_size] children, whatever
    population it started from. *)
Lemma generation_length population t population' t' :
  generation self population_size rate_num rate_den population t
    = Ret (population', t') →
  length population' = Z.to_nat population_size.
Proof.
  unfold generation. intros (fitness & t1 & _ & H)%rbind_ret.
  apply rbind_ret in H as (new_population & t2 & Hloop & H).
  apply mutation_loop_length in H. rewrite H.
  apply crossover_loop_ret in Hloop. simpl in Hloop.
  case_decide; [lia | subst; simpl; lia].
Qed.

Lemma generations_trace_length (rounds : nat) :
  ∀ population t trace t',
    generations_trace rounds self population_size rate_num rate_den population t
      = Ret (trace, t') →
    length population = Z.to_nat population_size →
    length trace = S rounds ∧ constant_population population_size trace.
Proof.
  induction rounds as [|rounds IH]; intros population t trace t' H Hlen; simpl in H.
  - apply rret_ret in H as [-> _]. split; [done|]. by constructor.
  - apply rbind_ret in H as (population' & t1 & Hgen & H).
    apply rbind_ret in H as (later & t2 & Hlater & [-> _]%rret_ret).
    apply generation_length in Hgen. apply IH in Hlater as [? ?]; [|done].
    split; [simpl; lia|]. by constructor.
Qed.

Lemma initial_population_length t population t' :
  initial_population self population_size t = Ret (population, t') →
  length population = Z.to_nat population_size.
Proof.
  unfold initial_population. intros H.
  by eapply (repeat_rand_ret (λ _, True)) in H as [? _].
Qed.

Lemma genetic_trace generations t best makespan self' trace t' :
  genetic_algorithm self population_size generations rate_num rate_den t
    = Ret (best, makespan, self', trace, t') →
  length trace = S (Z.to_nat generations)
  ∧ constant_population population_size trace.
Proof.
  unfold genetic_algorithm. intros (population & t1 & Hinit & H)%rbind_ret.
  apply rbind_ret in H as (trace0 & t2 & Htrace & H).
  apply rbind_ret in H as (scores & t3 & _ & H).
  apply rbind_ret in H as (best0 & t4 & _ & H).
  apply rbind_ret in H as (mk & t5 & _ & H).
  apply rbind_ret in H as (self1 & t6 & _ & [[= _ _ _ <-] _]%rret_ret).
  apply initial_population_length in Hinit.
  by eapply generations_trace_length.
Qed.

End genetic_population.

Section genetic_round.
Import Scheduler GeneticAlgorithm RoundProps.

Variable self : JobScheduler.
Variable population_size : Z.
Variable rate_num : Z.
Variable rate_den : positive.

Lemma crossover_step_child population t child t' :
  crossover_step self population t = Ret (child, t') →
  child_of self population child.
Proof.
  unfold crossover_step. intros (parents & t1 & Hparents & H)%rbind_ret.
  destruct parents as [|parent1 [|parent2 [|? ?]]]; try done.
  apply rbind_ret in H as (point & t2 & Hpoint & [-> _]%rret_ret).
  apply random_sample_two in Hparents as (i & j & Hij & Hi & Hj).
  apply randint_ret in Hpoint.
  by exists i, j, parent1, parent2, point.
Qed.

(** The loop appends children of [population] to [new_population]. *)
Lemma crossover_loop_children population (fuel : nat) :
  ∀ new_population t new_population' t',
    crossover_loop fuel self population population_size new_population t
      = Ret (new_population', t') →
    ∃ children,
      new_population' = new_population ++ children
      ∧ Forall (child_of self population) children.
Proof.
  induction fuel as [|fuel IH]; intros new t new' t' H; simpl in H;
    destruct (decide (Z.of_nat (length new) < population_size)) as [Hlt|Hge];
    try done;
    try (apply rret_ret in H as [-> _]; exists []; by rewrite app_nil_r).
  apply rbind_ret in H as (child & t1 & Hchild & H).
  apply IH in H as (children & -> & Hchildren).
  exists (child :: children). split; [by rewrite <- app_assoc|].
  constructor; [by eapply crossover_step_child | done].
Qed.

Lemma mutate_mutation individual t individual' t' :
  mutate self rate_num rate_den individual t = Ret (individual', t') →
  mutation_of self individual individual'.
Proof.
  unfold mutate. intros (hit & t1 & _ & H)%rbind_ret.
  destruct hit; [|apply rret_ret in H as [-> _]; by left].
  apply rbind_ret in H as (idx & t2 & Hidx & H).
  destruct idx as [|idx1 [|idx2 [|? ?]]]; try done.
  apply lift_ret in H as [H _].
  apply random_sample_two in Hidx as (i & j & Hij & Hi & Hj).
  apply lookup_seq in Hi as [-> Hi]. apply lookup_seq in Hj as [-> Hj].
  right. exists (0 + i)%nat, (0 + j)%nat. split_and!; [lia..|done].
Qed.

Lemma mutation_loop_mutations (new_population : list (list Z)) :
  ∀ t mutated t',
    mutation_loop self rate_num rate_den new_population t = Ret (mutated, t') →
    Forall2 (mutation_of self) new_population mutated.
Proof.
  induction new_population as [|individual rest IH]; intros t mutated t' H;
    simpl in H.
  - apply rret_ret in H as [-> _]. constructor.
  - apply rbind_ret in H as (individual' & t1 & Hmut & H).
    apply rbind_ret in H as (rest' & t2 & Hrest & [-> _]%rret_ret).
    constructor; [by eapply mutate_mutation | by eapply IH].
Qed.

(** A round: the new population is the mutated children, nothing else. *)
Lemma generation_replaces population t population' t' :
  generation self population_size rate_num rate_den population t
    = Ret (population', t') →
  replaced_by_children self population_size population population'.
Proof.
  intros H. pose proof (generation_length _ _ _ _ _ _ _ _ H) as Hlen.
  unfold generation in H. apply rbind_ret in H as (scores & t1 & Hscores & H).
  apply lift_ret in Hscores as [Hscores _].
  apply rbind_ret in H as (children & t2 & Hloop & H).
  apply crossover_loop_children in Hloop as (children' & -> & Hchildren).
  apply mutation_loop_mutations in H. rewrite app_nil_l in H.
  exists scores, children'. split_and!; [done| |done|done].
  by rewrite (Forall2_length _ _ _ H).
Qed.

Lemma generations_trace_rounds (rounds : nat) :
  ∀ population t trace t',
    generations_trace rounds self population_size rate_num rate_den population t
      = Ret (trace, t') →
    ∀ (round : nat) p p',
      trace !! round = Some p → trace !! S round = Some p' →
      replaced_by_children self population_size p p'.
Proof.
  induction rounds as [|rounds IH]; intros population t trace t' H round p p' Hp Hp';
    simpl in H.
  - apply rret_ret in H as [-> _]. done.
  - apply rbind_ret in H as (population' & t1 & Hgen & H).
    apply rbind_ret in H as (later & t2 & Hlater & [-> _]%rret_ret).
    assert (later !! 0%nat = Some population') as Hhead.
    { destruct rounds; simpl in Hlater.
      - by apply rret_ret in Hlater as [-> _].
      - apply rbind_ret in Hlater as (? & ? & _ & Hl).
        by apply rbind_ret in Hl as (? & ? & _ & [-> _]%rret_ret). }
    destruct round as [|round]; simpl in Hp, Hp'.
    + injection Hp as <-. rewrite Hhead in Hp'. injection Hp' as <-.
      by eapply generation_replaces.
    + by eapply IH.
Qed.

Lemma genetic_rounds generations t best makespan self' trace t' :
  genetic_algorithm self population_size generations rate_num rate_den t
    = Ret (best, makespan, self', trace, t') →
  ∀ (round : nat) p p',
    trace !! round = Some p → trace !! S round = Some p' →
    replaced_by_children self population_size p p'.
Proof.
  unfold genetic_algorithm. intros (population & t1 & Hinit & H)%rbind_ret.
  apply rbind_ret in H as (trace0 & t2 & Htrace & H).
  apply rbind_ret in H as (scores & t3 & _ & H).
  apply rbind_ret in H as (best0 & t4 & _ & H).
  apply rbind_ret in H as (mk & t5 & _ & H).
  apply rbind_ret in H as (self1 & t6 & _ & [[= _ _ _ <-] _]%rret_ret).
  by eapply generations_trace_rounds.
Qed.

End genetic_round.

Section main_population.
Import Main.

Variable jobs : list job.
Variable machines : list Z.
Variable population_size : Z.
Variable rate_num : Z.
Variable rate_den : positive.

Let n : nat := Z.to_nat population_size.

(** A round of main.py keeps [population_size] survivors and appends the
    two children of each of their pairs. *)
Lemma main_generation_length population t population' children t' :
  generation jobs machines population_size rate_num rate_den population t
    = Ret (population', children, t') →
  (n ≤ length population)%nat →
  (population_size < 0 → population = []) →
  ∃ survivors,
    population' = survivors ++ children
    ∧ survivors ⊆ population
    ∧ length survivors = n
    ∧ length children = (2 * (n / 2))%nat.
Proof.
  intros (ranked & Hperm & -> & Hchildren & _)%generation_ret Hlen Hneg.
  exists (slice_to ranked population_size).
  assert (length (slice_to ranked population_size) = n) as Hsurv.
  { destruct (decide (population_size < 0)) as [Hlt|Hge].
    - rewrite (Hneg Hlt) in Hperm. apply Permutation_nil_r in Hperm. subst ranked.
      unfold slice_to. case_decide; rewrite take_nil; subst n; simpl; lia.
    - subst n. apply slice_to_length. rewrite (Permutation_length Hperm). lia. }
  split_and!; [done| |done|by rewrite Hchildren, Hsurv].
  intros x Hx%slice_to_subseteq. by rewrite <- Hperm.
Qed.

Lemma main_generations_trace (rounds : nat) :
  ∀ population t trace t',
    generations_trace jobs machines population_size rate_num rate_den
      rounds population t = Ret (trace, t') →
    (n ≤ length population)%nat →
    (population_size < 0 → population = []) →
    ∃ later,
      trace = population :: later
      ∧ length later = rounds
      ∧ Forall (λ p, length p = (n + 2 * (n / 2))%nat) later.
Proof.
  induction rounds as [|rounds IH]; intros population t trace t' H Hlen Hneg;
    simpl in H.
  - apply rret_ret in H as [-> _]. exists []. by split_and!.
  - apply rbind_ret in H as ([population' children] & t1 & Hgen & H).
    apply rbind_ret in H as (later & t2 & Hlater & [-> _]%rret_ret).
    apply main_generation_length in Hgen as (survivors & -> & _ & Hs & Hc);
      [|done..].
    assert (length (survivors ++ children) = (n + 2 * (n / 2))%nat) as Hlen'
      by (rewrite length_app; lia).
    apply IH in Hlater as (later' & -> & Hrounds & Hlater').
    + eexists. split_and!; [done|simpl; lia|]. by constructor.
    + lia.
    + intros Hlt. apply nil_length_inv. rewrite Hlen'. subst n.
      replace (Z.to_nat population_size) with 0%nat by lia. done.
Qed.

Lemma main_genetic_trace generations t s trace t' :
  genetic_algorithm jobs machines population_size rate_num rate_den generations t
    = Ret (s, trace, t') →
  ∃ population later,
    trace = population :: later
    ∧ length population = n
    ∧ length later = Z.to_nat generations
    ∧ Forall (λ p, length p = (n + 2 * (n / 2))%nat) later.
Proof.
  unfold genetic_algorithm. intros (population & t1 & Hinit & H)%rbind_ret.
  apply rbind_ret in H as (trace0 & t2 & Htrace & H).
  apply rbind_ret in H as (keys & t3 & _ & H).
  apply rbind_ret in H as (best & t4 & _ & H).
  apply rbind_ret in H as (s0 & t5 & _ & [[= _ <-] _]%rret_ret).
  apply initialize_population_ret in Hinit as [Hlen _].
  apply main_generations_trace in Htrace as (later & -> & ? & ?).
  - by exists population, later.
  - subst n. lia.
  - intros Hlt. apply nil_length_inv. lia.
Qed.

End main_population.

(** C8 as amended: in GeneticAlgorithm.py every round makes exactly
    [population_size] children, which replace the prior generation, so every
    population of a run holds [population_size] individuals (and the bound of
    the model's [while] loop is never reached). In main.py a round keeps the
    best [population_size] individuals and appends the two children of each
    of their pairs: the first round starts from [population_size]
    individuals, every later one from [population_size + 2 * (population_size
    // 2)]. The last two parts state the replacement in GeneticAlgorithm.py:
    the population a round ends with is, position by position, exactly
    [population_size] children, each the crossover of two of the round's
    survivors followed by its mutation step; this holds of the loop body and
    of every two consecutive populations of a run. *)
Theorem population_sizes :
  (∀ self population_size generations rate_num rate_den tape best makespan self'
     trace tape',
     GeneticAlgorithm.genetic_algorithm self population_size generations
       rate_num rate_den tape = Ret (best, makespan, self', trace, tape') →
     length trace = S (Z.to_nat generations)
     ∧ constant_population population_size trace)
  ∧ (∀ self population population_size tape e,
     GeneticAlgorithm.crossover_loop (Z.to_nat population_size) self population
       population_size [] tape = Raise e →
     e = ValueError)
  ∧ (∀ jobs machines population_size rate_num rate_den generations tape s trace tape',
     Main.genetic_algorithm jobs machines population_size rate_num rate_den
       generations tape = Ret (s, trace, tape') →
     ∃ population later,
       trace = population :: later
       ∧ length population = Z.to_nat population_size
       ∧ length later = Z.to_nat generations
       ∧ Forall (λ p, length p = (Z.to_nat population_size
                                   + 2 * (Z.to_nat population_size / 2))%nat) later)
  ∧ (∀ jobs machines population_size rate_num rate_den population tape
       population' children tape',
     Main.generation jobs machines population_size rate_num rate_den population tape
       = Ret (population', children, tape') →
     (Z.to_nat population_size ≤ length population)%nat →
     0 <= population_size →
     ∃ survivors,
       population' = survivors ++ children
       ∧ survivors ⊆ population
       ∧ length survivors = Z.to_nat population_size
       ∧ length children = (2 * (Z.to_nat population_size / 2))%nat)
  ∧ (∀ self population_size rate_num rate_den population tape population' tape',
     GeneticAlgorithm.generation self population_size rate_num rate_den
       population tape = Ret (population', tape') →
     RoundProps.replaced_by_children self population_size population population')
  ∧ (∀ self population_size generations rate_num rate_den tape best makespan self'
       trace tape',
     GeneticAlgorithm.genetic_algorithm self population_size generations
       rate_num rate_den tape = Ret (best, makespan, self', trace, tape') →
     ∀ (round : nat) population population',
       trace !! round = Some population →
       trace !! S round = Some population' →
       RoundProps.replaced_by_children self population_size population population').
Proof.
  split_and!.
  - intros. by eapply genetic_trace.
  - intros self population population_size tape e H.
    eapply crossover_loop_fuel; [|exact H]. simpl. lia.
  - intros. by eapply main_genetic_trace.
  - intros ?????????? H Hlen Hps.
    eapply main_generation_length; [exact H | done | lia].
  - intros. by eapply generation_replaces.
  - intros ??????????? H round population population' Hp Hp'.
    eapply genetic_rounds; [exact H | exact Hp | exact Hp'].
Qed.

(** C8 as stated fails on main.py: with [population_size = 4] and two rounds
    the population holds 4 individuals at the start of the first round and 8
    at the start of the second: the children are appended to the survivors. *)
Lemma population_size_not_constant :
  ∃ s trace tape',
    Main.genetic_algorithm Scenario.rows [1; 2] 4 1 10 2
      [3; 1; 4; 1; 5; 9; 2; 6]%N = Ret (s, trace, tape')
    ∧ length <$> trace = [4; 8; 8]%nat
    ∧ ¬ constant_population 4 trace.
Proof.
  eexists _, _, _. split; [vm_compute; reflexivity|]. split; [reflexivity|].
  intros H. apply Forall_cons in H as [_ H]. apply Forall_cons in H as [H _].
  vm_compute in H. discriminate.
Qed.

(** Runs of both optimizers with [population_size = 4] and two rounds, and
    one round of GeneticAlgorithm.py from the first population of that run:
    the four individuals it ends with are four children of the two best. *)
Lemma population_sizes_witness :
  (∃ best makespan self' trace tape',
     GeneticAlgorithm.genetic_algorithm Scenario.scenario_scheduler 4 2 1 10
       [3; 1; 4; 1; 5; 9; 2; 6]%N = Ret (best, makespan, self', trace, tape')
     ∧ length trace = 3%nat ∧ constant_population 4 trace)
  ∧ (∃ s trace tape' population later,
     Main.genetic_algorithm Scenario.rows [1; 2] 4 1 10 2
       [3; 1; 4; 1; 5; 9; 2; 6]%N = Ret (s, trace, tape')
     ∧ trace = population :: later
     ∧ length population = 4%nat
     ∧ Forall (λ p, length p = 8%nat) later)
  ∧ (∃ population' tape',
     GeneticAlgorithm.generation Scenario.scenario_scheduler 4 1 10
       [[4; 2; 3; 5; 1]; [5; 3; 1; 2; 4]; [1; 2; 3; 4; 5]; [1; 2; 3; 4; 5]]
       [2; 7; 1; 8; 2; 8; 1; 8; 2; 8; 4; 5; 9; 0; 4; 5]%N
       = Ret (population', tape')
     ∧ length population' = 4%nat
     ∧ RoundProps.replaced_by_children Scenario.scenario_scheduler 4
         [[4; 2; 3; 5; 1]; [5; 3; 1; 2; 4]; [1; 2; 3; 4; 5]; [1; 2; 3; 4; 5]]
         population').
Proof.
  pose proof population_sizes as (Hga & _ & Hmain & _ & Hround & _).
  split_and!.
  - eexists _, _, _, _, _. split; [vm_compute; reflexivity|].
    eapply (Hga Scenario.scenario_scheduler 4 2 1 10%positive
              [3; 1; 4; 1; 5; 9; 2; 6]%N).
    vm_compute. reflexivity.
  - destruct (Main.genetic_algorithm Scenario.rows [1; 2] 4 1 10 2
                [3; 1; 4; 1; 5; 9; 2; 6]%N) as [[[s trace] tape']|e] eqn:E;
      [|by vm_compute in E].
    destruct (Hmain _ _ _ _ _ _ _ _ _ _ E) as (population & later & ? & ? & _ & ?).
    by exists s, trace, tape', population, later.
  - eexists _, _. split; [vm_compute; reflexivity|]. split; [reflexivity|].
    eapply (Hround Scenario.scenario_scheduler 4 1 10%positive
              [[4; 2; 3; 5; 1]; [5; 3; 1; 2; 4]; [1; 2; 3; 4; 5]; [1; 2; 3; 4; 5]]
              [2; 7; 1; 8; 2; 8; 1; 8; 2; 8; 4; 5; 9; 0; 4; 5]%N).
    vm_compute. reflexivity.
Defined.

(** * Kahn's algorithm: [topological_sort] *)

Section kahn_fuel.
Import Scheduler.

Implicit Types (d : gmap Z Z) (queue : list Z).

(** The jobs that still wait for a predecessor. *)
Definition waiting d : nat := size (filter (λ kv : Z * Z, 1 <= kv.2) d).

Lemma waiting_le_size d : (waiting d ≤ size d)%nat.
Proof. apply map_subseteq_size, map_filter_subseteq. Qed.

Lemma waiting_decrement d (v n : Z) :
  d !! v = Some n →
  Nat.add (waiting (<[v := n - 1]> d)) (if decide (n - 1 = 0) then 1%nat else 0%nat)
  = waiting d.
Proof.
  intros Hv. unfold waiting.
  destruct (decide (1 <= n - 1)) as [Hbig|Hsmall].
  - rewrite map_filter_insert_True by done.
    rewrite map_size_insert_Some.
    + rewrite decide_False by lia. lia.
    + exists n. apply map_lookup_filter_Some. split; [done | simpl; lia].
  - rewrite map_filter_insert_False by done. rewrite map_filter_delete.
    case_decide as Hn.
    + rewrite map_size_delete_Some.
      * assert (size (filter (λ kv : Z * Z, 1 <= kv.2) d) ≠ 0%nat); [|lia].
        intros Hz%map_size_empty_inv.
        assert (filter (λ kv : Z * Z, 1 <= kv.2) d !! v = Some n) as Hf
          by (apply map_lookup_filter_Some; split; [done | simpl; lia]).
        by rewrite Hz, lookup_empty in Hf.
      * exists n. apply map_lookup_filter_Some. split; [done | simpl; lia].
    + rewrite delete_id; [lia|]. apply map_lookup_filter_None. right.
      intros x Hx. simpl. rewrite Hv in Hx. injection Hx as <-. lia.
Qed.

(** Relaxing the successors of a job moves jobs from waiting to the queue. *)
Lemma relax_measure vs :
  ∀ d queue d' queue',
    relax vs d queue = Ret (d', queue') →
    (length queue' + waiting d' = length queue + waiting d)%nat.
Proof.
  induction vs as [|v vs IH]; intros d queue d' queue' H; simpl in H.
  - by inversion H.
  - apply bind_ret in H as (n & Hn%getitem_ret & H).
    pose proof (waiting_decrement d v n Hn) as Hw.
    destruct (decide (n - 1 = 0)); apply IH in H;
      rewrite ?length_app in H; simpl in H; lia.
Qed.

Lemma relax_raise vs :
  ∀ d queue e, relax vs d queue = Raise e → e = KeyError.
Proof.
  induction vs as [|v vs IH]; intros d queue e H; simpl in H; [done|].
  apply bind_raise in H as [[-> _]%getitem_raise|(n & _ & H)]; [done|].
  destruct (decide (n - 1 = 0)); by eapply IH.
Qed.

Lemma kahn_loop_raise g (fuel : nat) :
  ∀ queue d topo_order e,
    (length queue + waiting d ≤ fuel)%nat →
    kahn_loop fuel g queue d topo_order = Raise e → e = KeyError.
Proof.
  induction fuel as [|fuel IH]; intros queue d topo e Hfuel H;
    destruct queue as [|u queue]; simpl in *; try done; try lia.
  apply bind_raise in H as [H|([d' queue'] & Hrelax & H)];
    [by eapply relax_raise|].
  apply relax_measure in Hrelax. eapply IH; [|exact H]. lia.
Qed.

Lemma initial_queue_ret ids d :
  ∀ queue, initial_queue ids d = Ret queue →
    queue = filter (λ j, d !! j = Some 0) ids
    ∧ Forall (λ j, is_Some (d !! j)) ids.
Proof.
  induction ids as [|j ids IH]; intros queue H; simpl in H.
  - by inversion H.
  - apply bind_ret in H as (n & Hn%getitem_ret & H).
    apply bind_ret in H as (q & Hq & [= <-]). apply IH in Hq as [-> Hids].
    split; [|constructor; eauto]. rewrite filter_cons.
    destruct (decide (n = 0)) as [->|Hne].
    + by rewrite decide_True.
    + rewrite decide_False; [done|]. rewrite Hn. by intros [= ?].
Qed.

Lemma initial_queue_raise ids d e :
  initial_queue ids d = Raise e → e = KeyError.
Proof.
  induction ids as [|j ids IH]; simpl; [done|].
  intros [[-> _]%getitem_raise|(n & _ & H)]%bind_raise; [done|].
  apply bind_raise in H as [H|(q & _ & H)]; [by apply IH | done].
Qed.

(** The bound of Kahn's loop is never reached: [topological_sort] returns,
    or raises the [KeyError] of a job missing from [in_degree]. *)
Lemma topological_sort_fuel self e :
  topological_sort self = Raise e → e = KeyError.
Proof.
  unfold topological_sort.
  intros [H|(queue & Hq & H)]%bind_raise; [by eapply initial_queue_raise|].
  apply bind_raise in H as [H|([topo d] & _ & H)]; [|done].
  eapply kahn_loop_raise; [|exact H].
  apply initial_queue_ret in Hq as [-> _].
  pose proof (length_filter (λ j, in_degree self !! j = Some 0)
                (od_keys (jobs self))) as Hlen.
  pose proof (waiting_le_size (in_degree self)).
  unfold kahn_fuel, od_keys in *. rewrite length_fmap in Hlen. lia.
Qed.

End kahn_fuel.

Section kahn_edges.
Import Scheduler.

Implicit Types (d : gmap Z Z) (g : gmap Z (list Z)) (deps : list (Z * Z)).

Definition occurrences (w : Z) (vs : list Z) : nat :=
  length (filter (λ x, x = w) vs).

Lemma occurrences_cons w v vs :
  occurrences w (v :: vs)
  = if decide (v = w) then S (occurrences w vs) else occurrences w vs.
Proof. unfold occurrences. rewrite filter_cons. by case_decide. Qed.

(** [_build_graph] stores under each job its successors, in the order of
    the dependencies, and counts for each job its predecessors. *)
Lemma build_edges_ret deps :
  ∀ g0 d0 g d,
    build_edges deps g0 d0 = Ret (g, d) →
    (∀ u, graph_get g u
          = graph_get g0 u ++ (filter (λ e : Z * Z, e.1 = u) deps).*2)
    ∧ (∀ v, d !! v
            = (λ n, n + Z.of_nat (length (filter (λ e : Z * Z, e.2 = v) deps)))
              <$> d0 !! v)
    ∧ Forall (λ e : Z * Z, is_Some (d0 !! e.2)) deps.
Proof.
  induction deps as [|[u v] deps IH]; intros g0 d0 g d H; simpl in H.
  - inversion H; subst. split_and!; [| |constructor].
    + intros u. by rewrite app_nil_r.
    + intros v. destruct (d !! v); simpl; [f_equal; lia | done].
  - apply bind_ret in H as (n & Hn%getitem_ret & H).
    apply IH in H as (Hg & Hd & Hall). split_and!.
    + intros u'. rewrite Hg, filter_cons. unfold graph_get at 1. simpl.
      destruct (decide (u = u')) as [->|Hne].
      * rewrite lookup_insert_eq. simpl. by rewrite <- app_assoc.
      * rewrite lookup_insert_ne by done. done.
    + intros v'. rewrite Hd, filter_cons. simpl.
      destruct (decide (v = v')) as [->|Hne].
      * rewrite lookup_insert_eq, Hn. simpl. f_equal. lia.
      * by rewrite lookup_insert_ne.
    + constructor; [simpl; eauto|].
      eapply Forall_impl; [exact Hall|]. intros e He. simpl in He.
      rewrite lookup_insert in He. case_decide; subst; eauto.
Qed.

(** What relaxing the successors [vs] does: every in-degree drops by the
    number of times the job occurs in [vs], and the jobs whose in-degree
    reaches zero on the way join the queue, each once. *)
Lemma relax_ret vs :
  ∀ d queue d' queue',
    relax vs d queue = Ret (d', queue') →
    ∃ pushed,
      queue' = queue ++ pushed
      ∧ NoDup pushed
      ∧ (∀ w, d' !! w = (λ n, n - Z.of_nat (occurrences w vs)) <$> d !! w)
      ∧ (∀ w, w ∈ pushed ↔
              ∃ n, d !! w = Some n ∧ 1 <= n <= Z.of_nat (occurrences w vs)).
Proof.
  induction vs as [|v vs IH]; intros d queue d' queue' H; simpl in H.
  { inversion H; subst. exists []. split_and!.
    - by rewrite app_nil_r.
    - constructor.
    - intros w. unfold occurrences.
      destruct (d' !! w); simpl; [f_equal; lia | done].
    - intros w. split; [by intros ?%elem_of_nil|].
      intros (n & _ & Hn). unfold occurrences in Hn. simpl in Hn. lia. }
  apply bind_ret in H as (n & Hn%getitem_ret & H).
  destruct (decide (n - 1 = 0)) as [Hzero|Hnz];
    apply IH in H as (pushed & -> & Hnd & Hd' & Hin).
  - exists (v :: pushed). split_and!.
    + by rewrite <- app_assoc.
    + constructor; [|done]. intros (n1 & Hn1 & ?)%Hin.
      rewrite lookup_insert_eq in Hn1. injection Hn1 as <-. lia.
    + intros w. rewrite Hd', occurrences_cons.
      destruct (decide (v = w)) as [->|Hne].
      * rewrite lookup_insert_eq, Hn. simpl. f_equal. lia.
      * by rewrite lookup_insert_ne.
    + intros w. rewrite elem_of_cons, Hin, occurrences_cons.
      destruct (decide (v = w)) as [->|Hne].
      * rewrite lookup_insert_eq. split.
        -- intros _. exists n. split; [done|lia].
        -- auto.
      * rewrite lookup_insert_ne by done. split; [|auto].
        intros [?|?]; [congruence | done].
  - exists pushed. split_and!; [done..| |].
    + intros w. rewrite Hd', occurrences_cons.
      destruct (decide (v = w)) as [->|Hne].
      * rewrite lookup_insert_eq, Hn. simpl. f_equal. lia.
      * by rewrite lookup_insert_ne.
    + intros w. rewrite Hin, occurrences_cons.
      destruct (decide (v = w)) as [->|Hne].
      * rewrite lookup_insert_eq, Hn. split.
        -- intros (n1 & [= <-] & ?). exists n. split; [done|lia].
        -- intros (n1 & [= <-] & ?). exists (n - 1). split; [done|lia].
      * by rewrite lookup_insert_ne.
Qed.

End kahn_edges.

Section kahn_order.
Import Scheduler.

Variable deps : list (Z * Z).
Variable g : gmap Z (list Z).
Hypothesis graph_successors :
  ∀ u, graph_get g u = (filter (λ e : Z * Z, e.1 = u) deps).*2.

Implicit Types (d : gmap Z Z) (queue topo : list Z).

(** The dependencies into [v] whose predecessor is not yet in the order. *)
Definition remaining (topo : list Z) (v : Z) : Z :=
  Z.of_nat (length (filter (λ e : Z * Z, e.2 = v ∧ e.1 ∉ topo) deps)).

Lemma remaining_snoc topo u v :
  u ∉ topo →
  remaining topo v
  = remaining (topo ++ [u]) v + Z.of_nat (occurrences v (graph_get g u)).
Proof.
  intros Hu. rewrite graph_successors. unfold remaining. clear graph_successors.
  induction deps as [|[a b] l IH]; [done|].
  rewrite !filter_cons. cbn [fst snd].
  destruct (decide (a = u)) as [->|Hau].
  - rewrite fmap_cons, occurrences_cons. cbn [snd].
    rewrite (decide_False (P := _ ∧ u ∉ topo ++ [u]))
    by (intros [_ Hn]; apply Hn, elem_of_app; right; apply list_elem_of_here).
    destruct (decide (b = v)) as [->|Hbv].
    + rewrite decide_True by done. simpl length. lia.
    + rewrite decide_False by tauto. lia.
  - destruct (decide (b = v ∧ a ∉ topo)) as [[-> Ha]|Hn].
    + rewrite decide_True; [simpl length; lia|].
    split; [done|]. intros [?|?%list_elem_of_singleton]%elem_of_app; done.
    + rewrite decide_False; [lia|].
    intros [? Hx]. apply Hn. split; [done|]. intros ?. apply Hx, elem_of_app. auto.
Qed.

Lemma remaining_zero topo u v :
  remaining topo v = 0 → (u, v) ∈ deps → u ∈ topo.
Proof.
  unfold remaining. intros Hz Hin.
  destruct (decide (u ∈ topo)) as [|Hout]; [done|]. exfalso.
  assert ((u, v) ∈ filter (λ e : Z * Z, e.2 = v ∧ e.1 ∉ topo) deps) as Hf
    by (apply list_elem_of_filter; auto).
  destruct (filter _ deps); [by apply elem_of_nil in Hf | simpl in Hz; lia].
Qed.

Lemma remaining_nonneg topo v : 0 <= remaining topo v.
Proof. unfold remaining. lia. Qed.

(** The invariant of Kahn's loop: [topo] holds the jobs already popped. *)
Definition kahn_inv topo queue d : Prop :=
  NoDup (topo ++ queue)
  ∧ (∀ v n, d !! v = Some n → n = remaining topo v)
  ∧ (∀ v, v ∈ topo ++ queue → d !! v = Some 0)
  ∧ (∀ i v u, (topo ++ queue) !! i = Some v → (u, v) ∈ deps →
       ∃ j, (j < i)%nat ∧ topo !! j = Some u).

Lemma kahn_step topo u queue d d' queue' :
  kahn_inv topo (u :: queue) d →
  relax (graph_get g u) d queue = Ret (d', queue') →
  kahn_inv (topo ++ [u]) queue' d'.
Proof.
  intros (Hnd & Hrem & Hzero & Hord) (pushed & -> & Hpushed & Hd' & Hin)%relax_ret.
  assert (u ∉ topo) as Hu.
  { apply NoDup_app in Hnd as (_ & Hnd & _). intros ?. eapply Hnd; [done|].
    apply list_elem_of_here. }
  assert ((topo ++ [u]) ++ queue ++ pushed = (topo ++ u :: queue) ++ pushed) as Heq
    by (by rewrite <- !app_assoc).
  assert (∀ v n, d' !! v = Some n → n = remaining (topo ++ [u]) v) as Hrem'.
  { intros v n. rewrite Hd'. destruct (d !! v) as [n0|] eqn:Hv; [|done].
    simpl. intros [= <-]. rewrite (Hrem _ _ Hv), (remaining_snoc topo u v Hu). lia. }
  assert (∀ v, v ∈ (topo ++ u :: queue) ++ pushed → d' !! v = Some 0) as Hzero'.
  { intros v [Hold|Hnew]%elem_of_app.
    - pose proof (Hzero _ Hold) as Hv. rewrite Hd', Hv. simpl. f_equal.
      pose proof (Hrem _ _ Hv) as Hr. rewrite (remaining_snoc topo u v Hu) in Hr.
      pose proof (remaining_nonneg (topo ++ [u]) v). lia.
    - apply Hin in Hnew as (n & Hv & Hn). rewrite Hd', Hv. simpl. f_equal.
      pose proof (Hrem _ _ Hv) as Hr. rewrite (remaining_snoc topo u v Hu) in Hr.
      pose proof (remaining_nonneg (topo ++ [u]) v). lia. }
  unfold kahn_inv. rewrite Heq. split_and!; [|done|done|].
  - apply NoDup_app. split_and!; [done| |done].
    intros v Hold (n & Hv & Hn)%Hin. rewrite (Hzero _ Hold) in Hv.
    injection Hv as <-. lia.
  - intros i v u' Hi Hdep.
    destruct (decide (i < length (topo ++ u :: queue))%nat) as [Hlt|Hge].
    + rewrite lookup_app_l in Hi by done.
      destruct (Hord _ _ _ Hi Hdep) as (j & Hj & Htopo).
      exists j. split; [done|]. rewrite lookup_app_l; [done|].
      by eapply lookup_lt_Some.
    + assert (v ∈ (topo ++ u :: queue) ++ pushed) as Hv
        by (by eapply list_elem_of_lookup_2).
      apply Hzero' in Hv. apply Hrem' in Hv. symmetry in Hv.
      apply (remaining_zero _ u') in Hv; [|done].
      apply list_elem_of_lookup_1 in Hv as [j Hj]. exists j. split; [|done].
      apply lookup_lt_Some in Hj. rewrite length_app in *. simpl in *. lia.
Qed.

Lemma kahn_loop_inv (fuel : nat) :
  ∀ queue d topo topo' d',
    kahn_inv topo queue d →
    kahn_loop fuel g queue d topo = Ret (topo', d') →
    kahn_inv topo' [] d'.
Proof.
  induction fuel as [|fuel IH]; intros queue d topo topo' d' Hinv H;
    destruct queue as [|u queue]; simpl in H; try done;
    try (by inversion H; subst).
  apply bind_ret in H as ([d1 queue1] & Hrelax & H).
  eapply IH; [|exact H]. by eapply kahn_step.
Qed.

End kahn_order.

Section kahn_correct.
Import Scheduler.

Lemma lookup_zeros (keys : list Z) (v : Z) :
  (list_to_map ((λ k, (k, 0)) <$> keys) : gmap Z Z) !! v
  = if decide (v ∈ keys) then Some 0 else None.
Proof.
  induction keys as [|k keys IH]; cbn [fmap list_fmap list_to_map foldr].
  - by rewrite lookup_empty, decide_False by apply not_elem_of_nil.
  - simpl. rewrite lookup_insert. destruct (decide (k = v)) as [->|Hne].
    + by rewrite decide_True by apply list_elem_of_here.
    + rewrite IH. destruct (decide (v ∈ keys)).
      * by rewrite decide_True by (by apply list_elem_of_further).
      * rewrite decide_False; [done|]. intros [?|?]%elem_of_cons; congruence.
Qed.

Lemma kahn_loop_dom g (fuel : nat) :
  ∀ queue (d : gmap Z Z) topo topo' d',
    kahn_loop fuel g queue d topo = Ret (topo', d') →
    ∀ w, is_Some (d' !! w) ↔ is_Some (d !! w).
Proof.
  induction fuel as [|fuel IH]; intros queue d topo topo' d' H w;
    destruct queue as [|u queue]; simpl in H; try done;
    try (by inversion H; subst).
  apply bind_ret in H as ([d1 queue1] & Hrelax & H).
  rewrite (IH _ _ _ _ _ H w).
  apply relax_ret in Hrelax as (_ & _ & _ & Hd1 & _). rewrite Hd1.
  by rewrite fmap_is_Some.
Qed.

(** The order Kahn's algorithm returns for a freshly built scheduler, when
    it is not the empty list of "no order", holds every job once and every
    predecessor before its successors. *)
Lemma topological_sort_order js deps ms self topo_order self1 :
  init js deps ms = Ret self →
  topological_sort self = Ret (topo_order, self1) →
  topo_order ≠ [] →
  NoDup topo_order
  ∧ topo_order ≡ₚ od_keys (jobs self)
  ∧ ∀ p q, (p, q) ∈ deps →
      ∃ i j, (i < j)%nat ∧ topo_order !! i = Some p ∧ topo_order !! j = Some q.
Proof.
  intros Hinit Htopo Hne.
  pose proof (init_keys_NoDup _ _ _ _ Hinit) as Hkeys.
  unfold init, _build_graph in Hinit.
  apply bind_ret in Hinit as ([g d] & Hbuild & [= <-]). simpl in Hbuild, Hkeys.
  set (self_jobs := foldl (λ d job, od_set (job_id job) job d) [] js) in *.
  apply build_edges_ret in Hbuild as (Hg & Hd & Htargets).
  assert (∀ u, graph_get g u = (filter (λ e : Z * Z, e.1 = u) deps).*2) as Hg'.
  { intros u. rewrite Hg. unfold graph_get at 1. by rewrite lookup_empty. }
  unfold topological_sort in Htopo. simpl in Htopo.
  apply bind_ret in Htopo as (queue & [-> _]%initial_queue_ret & Htopo).
  apply bind_ret in Htopo as ([topo d'] & Hloop & [= <- _]).
  case_decide as Hlen; [|done]. clear Hne.
  pose proof (kahn_loop_dom _ _ _ _ _ _ _ Hloop) as Hdom.
  eapply (kahn_loop_inv deps g Hg') in Hloop.
  - destruct Hloop as (Hnd & _ & Hzero & Hord).
    rewrite app_nil_r in Hnd. simpl.
    assert (∀ v, v ∈ topo → v ∈ od_keys self_jobs) as Hsub.
    { intros v Hv. assert (is_Some (d !! v)) as Hs.
      { apply Hdom. rewrite Hzero; [eauto|]. by rewrite app_nil_r. }
      rewrite Hd, fmap_is_Some, lookup_zeros in Hs. case_decide; [done|].
      by destruct Hs. }
    assert (topo ≡ₚ od_keys self_jobs) as Hperm.
    { apply submseteq_length_Permutation; [by apply NoDup_submseteq|].
      unfold od_keys. rewrite length_fmap. lia. }
    split_and!; [done..|].
    intros p q Hpq.
    assert (q ∈ topo) as [j Hj]%list_elem_of_lookup_1.
    { rewrite Hperm. rewrite Forall_forall in Htargets.
      apply Htargets in Hpq. simpl in Hpq. rewrite lookup_zeros in Hpq.
      case_decide; [done|]. by destruct Hpq. }
    destruct (Hord j q p) as (i & Hi & Hp); [by rewrite app_nil_r | done |].
    by exists i, j.
  - split_and!.
    + simpl. by apply NoDup_filter.
    + intros v n. rewrite Hd, lookup_zeros. case_decide; [|done].
      simpl. intros [= <-]. unfold remaining. rewrite Z.add_0_l.
      f_equal. f_equal. apply list_filter_iff. intros e. split; [|tauto].
      intros ?. split; [done | apply not_elem_of_nil].
    + intros v. simpl. by intros [? _]%list_elem_of_filter.
    + intros i v u Hi Hdep. simpl in Hi. exfalso.
      apply list_elem_of_lookup_2, list_elem_of_filter in Hi as [Hv _].
      rewrite Hd, lookup_zeros in Hv. case_decide; [|done].
      simpl in Hv. injection Hv as Hv.
      assert ((u, v) ∈ filter (λ e : Z * Z, e.2 = v) deps) as Hf
        by (by apply list_elem_of_filter).
      destruct (filter _ deps); [by apply elem_of_nil in Hf | simpl in Hv; lia].
Qed.

End kahn_correct.

(** * Precedence in the list scheduler *)

Section placement_order.
Import Scheduler SchedulerProps.

Variable self_jobs : list (Z * Job).
Hypothesis times : nonneg_times self_jobs.

Implicit Types (usage : gmap string Z) (sched : gmap Z (Z * list string)).

Lemma place_jobs_untouched order :
  ∀ usage sched starts usage' sched' starts' j,
    place_jobs self_jobs order usage sched starts = Ret (usage', sched', starts') →
    j ∉ order → sched' !! j = sched !! j.
Proof using Type.
  induction order as [|j0 order IH];
    intros usage sched starts usage' sched' starts' j H Hj; simpl in H.
  { by inversion H. }
  apply bind_ret in H as (job0 & _ & H). apply bind_ret in H as (t0 & _ & H).
  rewrite (IH _ _ _ _ _ _ _ H) by (intros ?; apply Hj; by apply list_elem_of_further).
  apply lookup_insert_ne. intros ->. apply Hj, list_elem_of_here.
Qed.

(** A job placed later starts no earlier than the usage its machines had. *)
Lemma place_jobs_later order :
  ∀ usage sched starts usage' sched' starts' q,
    place_jobs self_jobs order usage sched starts = Ret (usage', sched', starts') →
    NoDup order → q ∈ order →
    ∃ jobq tq,
      od_get self_jobs q = Ret jobq
      ∧ sched' !! q = Some (tq, required_machines jobq)
      ∧ ∀ m u, m ∈ required_machines jobq → usage !! m = Some u → u <= tq.
Proof using times.
  induction order as [|j0 order IH];
    intros usage sched starts usage' sched' starts' q H Hnd Hq; simpl in H.
  { by apply elem_of_nil in Hq. }
  apply NoDup_cons in Hnd as [Hj0 Hnd].
  apply bind_ret in H as (job0 & Hjob0 & H).
  apply bind_ret in H as (t0 & Ht0 & H).
  apply earliest_start_ret in Ht0 as [_ Hms0].
  destruct (decide (q = j0)) as [->|Hne].
  - exists job0, t0. split_and!; [done| |].
    + rewrite (place_jobs_untouched _ _ _ _ _ _ _ _ H Hj0).
      apply lookup_insert_eq.
    + intros m u Hm Hu. destruct (Hms0 _ Hm) as (u' & Hu' & ?).
      rewrite Hu in Hu'. by injection Hu' as <-.
  - apply elem_of_cons in Hq as [?|Hq]; [done|].
    destruct (IH _ _ _ _ _ _ _ H Hnd Hq) as (jobq & tq & Hjobq & Hsq & Hu).
    exists jobq, tq. split_and!; [done..|].
    intros m u Hm Hmu. pose proof (times _ _ Hjob0) as Hpt0.
    destruct (decide (m ∈ required_machines job0)) as [Hin|Hout].
    + destruct (Hms0 _ Hin) as (u' & Hu' & ?).
      rewrite Hmu in Hu'. injection Hu' as <-.
      assert (t0 + processing_time job0 <= tq); [|lia].
      apply (Hu m); [done|]. rewrite occupy_lookup. by rewrite decide_True.
    + apply (Hu m); [done|]. rewrite occupy_lookup. by rewrite decide_False.
Qed.

(** Of two jobs of the order, the later one starts after the earlier one
    has completed on every machine they share. *)
Lemma place_jobs_precedence order :
  ∀ usage sched starts usage' sched' starts' (i j : nat) p q,
    place_jobs self_jobs order usage sched starts = Ret (usage', sched', starts') →
    NoDup order → (i < j)%nat → order !! i = Some p → order !! j = Some q →
    ∃ jobp jobq tp tq,
      od_get self_jobs p = Ret jobp ∧ od_get self_jobs q = Ret jobq
      ∧ sched' !! p = Some (tp, required_machines jobp)
      ∧ sched' !! q = Some (tq, required_machines jobq)
      ∧ ∀ m, m ∈ required_machines jobp → m ∈ required_machines jobq →
          tp + processing_time jobp <= tq.
Proof using times.
  induction order as [|j0 order IH];
    intros usage sched starts usage' sched' starts' i j p q H Hnd Hij Hi Hj;
    [done|].
  destruct j as [|j]; [lia|]. simpl in Hj.
  destruct i as [|i]; simpl in Hi.
  - injection Hi as ->. simpl in H. apply NoDup_cons in Hnd as [Hp Hnd].
    apply bind_ret in H as (jobp & Hjobp & H).
    apply bind_ret in H as (tp & _ & H).
    destruct (place_jobs_later _ _ _ _ _ _ _ q H Hnd) as (jobq & tq & Hjobq & Hsq & Hu);
      [by eapply list_elem_of_lookup_2|].
    exists jobp, jobq, tp, tq. split_and!; [done..| |done|].
    + rewrite (place_jobs_untouched _ _ _ _ _ _ _ _ H Hp). apply lookup_insert_eq.
    + intros m Hmp Hmq. apply (Hu m); [done|].
      rewrite occupy_lookup. by rewrite decide_True.
  - simpl in H. apply NoDup_cons in Hnd as [_ Hnd].
    apply bind_ret in H as (job0 & _ & H). apply bind_ret in H as (t0 & _ & H).
    eapply (IH _ _ _ _ _ _ i j); [exact H | done | lia | done | done].
Qed.

End placement_order.

(** C2 as amended: in the schedule the list scheduler returns, for every
    dependency (p, s) both jobs are placed, and on every machine the two
    share the successor starts no earlier than the predecessor completes:
    [start(s) >= start(p) + processing_time(p)]. (Between jobs with no common
    machine only the placement order is fixed, and the backtracking solver of
    main.py takes no dependencies at all.) *)
Theorem precedence_on_shared_machines js deps ms self s self' :
  Scheduler.init js deps ms = Ret self →
  Backtracking.schedule_jobs self = Ret (Backtracking.Schedule s, self') →
  Forall (λ job, 0 <= Scheduler.processing_time job) js →
  ∀ p q, (p, q) ∈ deps →
    ∃ jobp jobq tp tq,
      od_get (Scheduler.jobs self) p = Ret jobp
      ∧ od_get (Scheduler.jobs self) q = Ret jobq
      ∧ s !! p = Some (tp, Scheduler.required_machines jobp)
      ∧ s !! q = Some (tq, Scheduler.required_machines jobq)
      ∧ ∀ m, m ∈ Scheduler.required_machines jobp →
             m ∈ Scheduler.required_machines jobq →
             tp + Scheduler.processing_time jobp <= tq.
Proof.
  intros Hinit H Hjs p q Hpq. unfold Backtracking.schedule_jobs in H.
  apply bind_ret in H as ([topo self1] & Htopo & H).
  destruct topo as [|j0 topo]; [done|].
  apply bind_ret in H as ([[usage' sched'] starts'] & Hplace & [= <- _]).
  destruct (topological_sort_order _ _ _ _ _ _ Hinit Htopo) as (Hnd & _ & Hord);
    [done|].
  destruct (Hord p q Hpq) as (i & j & Hij & Hi & Hj).
  apply topological_sort_fields in Htopo as (Hjobs & _).
  rewrite Hjobs in Hplace.
  eapply place_jobs_precedence; [|exact Hplace|done|exact Hij|done|done].
  by eapply init_nonneg_times.
Qed.

(** Jobs 1 and 4 of the scenario share machine A: job 4 starts at 8, after
    job 1 has ended at 5. *)
Lemma precedence_on_shared_machines_witness :
  ∃ s self' jobp jobq tp tq,
    Backtracking.schedule_jobs Scenario.scenario_scheduler
      = Ret (Backtracking.Schedule s, self')
    ∧ s !! 1 = Some (tp, Scheduler.required_machines jobp)
    ∧ s !! 4 = Some (tq, Scheduler.required_machines jobq)
    ∧ ∀ m, m ∈ Scheduler.required_machines jobp →
           m ∈ Scheduler.required_machines jobq →
           tp + Scheduler.processing_time jobp <= tq.
Proof.
  destruct (Backtracking.schedule_jobs Scenario.scenario_scheduler)
    as [[[|s] self']|e] eqn:E; try by vm_compute in E.
  destruct (precedence_on_shared_machines Scenario.scenario_jobs
              Scenario.scenario_dependencies Scenario.scenario_machines
              Scenario.scenario_scheduler s self' scenario_init E)
    with (p := 1) (q := 4) as (jobp & jobq & tp & tq & _ & _ & Hp & Hq & Hm).
  - repeat constructor; simpl; lia.
  - apply list_elem_of_here.
  - by exists s, self', jobp, jobq, tp, tq.
Defined.

(** C2 as stated fails: with job 1 on machine A for 5 time units and its
    successor job 2 on machine B, the list scheduler starts both at 0; and the
    backtracking solver, given the two rows in the order that respects the
    dependency, starts both at 0 as well. *)
Lemma precedence_not_respected :
  (∃ self s self',
     Scheduler.init Scenario.apart_jobs Scenario.apart_dependencies
       Scenario.apart_machines = Ret self
     ∧ Backtracking.schedule_jobs self = Ret (Backtracking.Schedule s, self')
     ∧ s !! 1 = Some (0, ["A"%string]) ∧ s !! 2 = Some (0, ["B"%string])
     ∧ ¬ SchedulerProps.precedence_respected (Scheduler.jobs self)
           Scenario.apart_dependencies s)
  ∧ (∃ s,
     Main.backtracking_algorithm Scenario.apart_rows [1; 2] = Ret (Some s)
     ∧ s !! 1 = Some [(1, 0, 5)] ∧ s !! 2 = Some [(2, 0, 3)]
     ∧ ¬ MainProps.rows_precedence_respected Scenario.apart_dependencies s).
Proof.
  split.
  - eexists _, _, _.
    split; [vm_compute; reflexivity|]. split; [vm_compute; reflexivity|].
    split; [vm_compute; reflexivity|]. split; [vm_compute; reflexivity|].
    intros H.
    specialize (H 1 2 0 0 ["A"%string] ["B"%string]
                  {| Scheduler.job_id := 1; Scheduler.processing_time := 5;
                     Scheduler.required_machines := ["A"%string] |}).
    simpl in H. assert (0 + 5 <= 0) as Hle; [|lia].
    apply H; [apply list_elem_of_here | vm_compute; reflexivity
              | vm_compute; reflexivity | vm_compute; reflexivity].
  - eexists.
    split; [vm_compute; reflexivity|]. split; [vm_compute; reflexivity|].
    split; [vm_compute; reflexivity|].
    intros H.
    specialize (H 1 2 1 2 [(1, 0, 5)] [(2, 0, 3)] (1, 0, 5) (2, 0, 3)).
    assert (MainProps.task_end (1, 0, 5) <= MainProps.task_start (2, 0, 3)) as Hle.
    { apply H; try reflexivity; try apply list_elem_of_here; vm_compute; reflexivity. }
    vm_compute in Hle. by apply Hle.
Qed.

(** * Kahn's algorithm: when [topological_sort] finds an order *)

Section kahn_total.
Import Scheduler.

Implicit Types (d : gmap Z Z) (queue : list Z).

Lemma relax_total vs :
  ∀ d queue,
    Forall (λ v, is_Some (d !! v)) vs → ∃ r, relax vs d queue = Ret r.
Proof.
  induction vs as [|v vs IH]; intros d queue Hvs; simpl; [eauto|].
  apply Forall_cons in Hvs as [[n Hn] Hvs].
  rewrite (proj2 (getitem_ret d v n) Hn). simpl.
  assert (Forall (λ w, is_Some (<[v := n - 1]> d !! w)) vs) as Hvs'.
  { eapply Forall_impl; [exact Hvs|]. intros w Hw. simpl.
    rewrite lookup_insert. case_decide; eauto. }
  destruct (decide (n - 1 = 0)); by apply IH.
Qed.

Lemma kahn_loop_total g (fuel : nat) :
  ∀ queue d topo,
    (∀ u v, v ∈ graph_get g u → is_Some (d !! v)) →
    (length queue + waiting d ≤ fuel)%nat →
    ∃ r, kahn_loop fuel g queue d topo = Ret r.
Proof.
  induction fuel as [|fuel IH]; intros queue d topo Hdom Hfuel;
    destruct queue as [|u queue]; simpl in *; eauto; try lia.
  destruct (relax_total (graph_get g u) d queue) as [[d' queue'] Hrelax].
  { apply Forall_forall. intros v Hv. eauto. }
  rewrite Hrelax. simpl. apply IH.
  - intros u' v Hv.
    apply relax_ret in Hrelax as (_ & _ & _ & Hd' & _).
    rewrite Hd', fmap_is_Some. eauto.
  - apply relax_measure in Hrelax. lia.
Qed.

Lemma initial_queue_total ids d :
  Forall (λ j, is_Some (d !! j)) ids → ∃ queue, initial_queue ids d = Ret queue.
Proof.
  induction ids as [|j ids IH]; intros Hids; simpl; [eauto|].
  apply Forall_cons in Hids as [[n Hn] Hids].
  rewrite (proj2 (getitem_ret d j n) Hn). simpl.
  destruct (IH Hids) as [q ->]. simpl. eauto.
Qed.

(** With no positive in-degree left, the loop pops the queue as it is. *)
Lemma kahn_loop_drained g (fuel : nat) :
  ∀ queue d topo,
    (∀ u v, v ∈ graph_get g u → is_Some (d !! v)) →
    (∀ v n, d !! v = Some n → n <= 0) →
    (length queue ≤ fuel)%nat →
    ∃ d', kahn_loop fuel g queue d topo = Ret (topo ++ queue, d').
Proof.
  induction fuel as [|fuel IH]; intros queue d topo Hdom Hneg Hfuel;
    destruct queue as [|u queue]; simpl in *; try lia;
    try (by rewrite app_nil_r; eauto).
  destruct (relax_total (graph_get g u) d queue) as [[d' queue'] Hrelax].
  { apply Forall_forall. intros v Hv. eauto. }
  rewrite Hrelax. simpl.
  apply relax_ret in Hrelax as (pushed & -> & _ & Hd' & Hin).
  assert (pushed = []) as ->.
  { destruct pushed as [|w pushed]; [done|]. exfalso.
    destruct (proj1 (Hin w)) as (n & Hn & Hle); [apply list_elem_of_here|].
    apply Hneg in Hn. lia. }
  rewrite app_nil_r.
  destruct (IH queue d' (topo ++ [u])) as [d'' Hloop].
  - intros u' v Hv. rewrite Hd', fmap_is_Some. eauto.
  - intros v n. rewrite Hd'. destruct (d !! v) as [n0|] eqn:Hv; [|done].
    simpl. intros [= <-]. apply Hneg in Hv. lia.
  - lia.
  - exists d''. by rewrite Hloop, <- app_assoc.
Qed.

End kahn_total.

Section kahn_complete.
Import Scheduler.

Variable deps : list (Z * Z).
Variable g : gmap Z (list Z).
Hypothesis graph_successors :
  ∀ u, graph_get g u = (filter (λ e : Z * Z, e.1 = u) deps).*2.

Implicit Types (d : gmap Z Z) (queue topo : list Z).

(** Every job whose in-degree is zero has been queued. *)
Definition kahn_ready topo queue d : Prop :=
  ∀ v, d !! v = Some 0 → v ∈ topo ++ queue.

Lemma kahn_step_ready topo u queue d d' queue' :
  kahn_inv deps topo (u :: queue) d →
  kahn_ready topo (u :: queue) d →
  relax (graph_get g u) d queue = Ret (d', queue') →
  kahn_ready (topo ++ [u]) queue' d'.
Proof.
  intros (Hnd & Hrem & _) Hready (pushed & -> & _ & Hd' & Hin)%relax_ret v Hv.
  assert (u ∉ topo) as Hu.
  { apply NoDup_app in Hnd as (_ & Hnd & _). intros ?. eapply Hnd; [done|].
    apply list_elem_of_here. }
  rewrite Hd' in Hv. destruct (d !! v) as [n|] eqn:Hdv; [|done].
  simpl in Hv. injection Hv as Hv.
  assert ((topo ++ [u]) ++ queue ++ pushed = (topo ++ u :: queue) ++ pushed)
    as -> by (by rewrite <- !app_assoc).
  destruct (decide (n = 0)) as [->|Hn].
  - apply elem_of_app. left. by apply Hready.
  - apply elem_of_app. right. apply Hin. exists n. split; [done|].
    pose proof (Hrem _ _ Hdv) as Hr.
    rewrite (remaining_snoc deps g graph_successors topo u v Hu) in Hr.
    pose proof (remaining_nonneg deps (topo ++ [u]) v). lia.
Qed.

Lemma kahn_loop_ready (fuel : nat) :
  ∀ queue d topo topo' d',
    kahn_inv deps topo queue d →
    kahn_ready topo queue d →
    kahn_loop fuel g queue d topo = Ret (topo', d') →
    kahn_ready topo' [] d'.
Proof.
  induction fuel as [|fuel IH]; intros queue d topo topo' d' Hinv Hready H;
    destruct queue as [|u queue]; simpl in H; try done;
    try (by inversion H; subst).
  apply bind_ret in H as ([d1 queue1] & Hrelax & H).
  eapply IH; [| |exact H].
  - by eapply kahn_step.
  - by eapply kahn_step_ready.
Qed.

End kahn_complete.

Section kahn_run.
Import Scheduler OrderProps.

Lemma od_keys_jobs_elem (js : list Job) (d : list (Z * Job)) (v : Z) :
  v ∈ od_keys (foldl (λ d job, od_set (job_id job) job d) d js)
  ↔ v ∈ od_keys d ∨ v ∈ job_id <$> js.
Proof.
  revert d. induction js as [|job js IH]; intros d; cbn [foldl].
  - rewrite fmap_nil. split; [auto|]. intros [?|?%elem_of_nil]; done.
  - rewrite IH, od_keys_set, fmap_cons, elem_of_cons.
    case_decide as Hin.
    + split; [tauto|]. intros [?|[->|?]]; auto.
    + rewrite elem_of_app, list_elem_of_singleton. tauto.
Qed.

(** The keys of [self.jobs] are the ids of the jobs given to the constructor. *)
Lemma init_keys js deps ms self :
  init js deps ms = Ret self →
  ∀ v, v ∈ od_keys (jobs self) ↔ v ∈ job_id <$> js.
Proof.
  intros (-> & _)%init_fields v. rewrite od_keys_jobs_elem.
  split; [|auto]. intros [?%elem_of_nil|?]; done.
Qed.

(** One run of [topological_sort] on a freshly built scheduler: [topo] is
    the list Kahn's loop has built when the queue is empty. *)
Lemma kahn_run js deps ms self :
  init js deps ms = Ret self →
  ∃ topo d',
    topological_sort self
    = Ret (if decide (length topo = length (jobs self)) then topo else [],
           set_graph_in_degree self (graph self) d')
    ∧ NoDup topo
    ∧ (∀ v, v ∈ topo → v ∈ od_keys (jobs self))
    ∧ (∀ v, v ∈ od_keys (jobs self) → remaining deps topo v = 0 → v ∈ topo)
    ∧ (∀ i v u, topo !! i = Some v → (u, v) ∈ deps →
         ∃ j, (j < i)%nat ∧ topo !! j = Some u)
    ∧ (∀ v, v ∈ topo → d' !! v = Some 0)
    ∧ (∀ v, is_Some (d' !! v) ↔ v ∈ od_keys (jobs self))
    ∧ (∀ u, graph_get (graph self) u = (filter (λ e : Z * Z, e.1 = u) deps).*2)
    ∧ (∀ p q, (p, q) ∈ deps → q ∈ od_keys (jobs self)).
Proof.
  intros Hinit.
  pose proof (init_keys_NoDup _ _ _ _ Hinit) as Hkeys.
  unfold init, _build_graph in Hinit.
  apply bind_ret in Hinit as ([g d] & Hbuild & [= <-]).
  cbn [jobs dependencies graph in_degree set_graph_in_degree] in *.
  set (self_jobs := foldl (λ d job, od_set (job_id job) job d) [] js) in *.
  apply build_edges_ret in Hbuild as (Hg & Hd & Htargets).
  assert (∀ u, graph_get g u = (filter (λ e : Z * Z, e.1 = u) deps).*2) as Hg'.
  { intros u. rewrite Hg. unfold graph_get at 1. by rewrite lookup_empty. }
  assert (∀ v, is_Some (d !! v) ↔ v ∈ od_keys self_jobs) as Hdom0.
  { intros v. rewrite Hd, fmap_is_Some, lookup_zeros.
    case_decide; split; intros H'; first [done | by eauto | by destruct H']. }
  assert (∀ p q, (p, q) ∈ deps → q ∈ od_keys self_jobs) as Htg.
  { rewrite Forall_forall in Htargets. intros p q Hpq.
    apply Htargets in Hpq. simpl in Hpq. rewrite lookup_zeros in Hpq.
    case_decide; [done|]. by destruct Hpq. }
  unfold topological_sort.
  cbn [jobs dependencies graph in_degree set_graph_in_degree].
  destruct (initial_queue_total (od_keys self_jobs) d) as [queue Hq].
  { apply Forall_forall. intros v Hv. by apply Hdom0. }
  rewrite Hq. cbn [bind]. apply initial_queue_ret in Hq as [-> _].
  match goal with
  | |- context [kahn_loop ?f g ?q d []] =>
      destruct (kahn_loop_total g f q d []) as [[topo d'] Hloop]
  end.
  { intros u v Hv. rewrite Hg' in Hv.
    apply list_elem_of_fmap in Hv as ([p q] & -> & [_ Hf]%list_elem_of_filter).
    apply Hdom0. by eapply Htg. }
  { pose proof (length_filter (λ j, d !! j = Some 0) (od_keys self_jobs)) as Hlen.
    pose proof (waiting_le_size d).
    unfold kahn_fuel, od_keys in *. simpl.
    rewrite length_fmap in Hlen. lia. }
  rewrite Hloop. cbn [bind]. exists topo, d'. split; [done|].
  pose proof (kahn_loop_dom _ _ _ _ _ _ _ Hloop) as Hdom.
  assert (kahn_inv deps [] (filter (λ j, d !! j = Some 0) (od_keys self_jobs)) d)
    as Hinv0.
  { split_and!.
    - simpl. by apply NoDup_filter.
    - intros v n. rewrite Hd, lookup_zeros. case_decide; [|done].
      simpl. intros [= <-]. unfold remaining. rewrite Z.add_0_l.
      f_equal. f_equal. apply list_filter_iff. intros e. split; [|tauto].
      intros ?. split; [done | apply not_elem_of_nil].
    - intros v. simpl. by intros [? _]%list_elem_of_filter.
    - intros i v u Hi Hdep. simpl in Hi. exfalso.
      apply list_elem_of_lookup_2, list_elem_of_filter in Hi as [Hv _].
      rewrite Hd, lookup_zeros in Hv. case_decide; [|done].
      simpl in Hv. injection Hv as Hv.
      assert ((u, v) ∈ filter (λ e : Z * Z, e.2 = v) deps) as Hf
        by (by apply list_elem_of_filter).
      destruct (filter _ deps); [by apply elem_of_nil in Hf | simpl in Hv; lia]. }
  assert (kahn_ready [] (filter (λ j, d !! j = Some 0) (od_keys self_jobs)) d)
    as Hready0.
  { intros v Hv. simpl. apply list_elem_of_filter. split; [done|].
    apply Hdom0. eauto. }
  pose proof (kahn_loop_ready deps g Hg' _ _ _ _ _ _ Hinv0 Hready0 Hloop) as Hready.
  pose proof (kahn_loop_inv deps g Hg' _ _ _ _ _ _ Hinv0 Hloop)
    as (Hnd & Hrem & Hzero & Hord).
  rewrite app_nil_r in Hnd. unfold kahn_ready in Hready.
  setoid_rewrite app_nil_r in Hready. setoid_rewrite app_nil_r in Hzero.
  setoid_rewrite app_nil_r in Hord.
  split_and!; [done| | |done|done| |done|done].
  - intros v Hv. apply Hdom0, Hdom. rewrite Hzero; eauto.
  - intros v Hv%Hdom0%Hdom Hr. destruct Hv as [n Hn].
    apply Hready. rewrite Hn. f_equal. apply Hrem in Hn. lia.
  - intros v. by rewrite Hdom, Hdom0.
Qed.

End kahn_run.

(** * [topological_sort]: what it returns, and when *)

Section kahn_theorems.
Import Scheduler OrderProps.

Lemma schedule_jobs_no_order self self1 :
  topological_sort self = Ret ([], self1) →
  Backtracking.schedule_jobs self = Ret (Backtracking.NoOrder, self1).
Proof. unfold Backtracking.schedule_jobs. by intros ->. Qed.

Lemma reaches_target deps p q : reaches deps p q → ∃ u, (u, q) ∈ deps.
Proof. induction 1 as [x y H|x y z _ _ IH]; [by exists x | done]. Qed.

(** In a list where every job comes after its predecessors, it comes after
    every job a chain of dependencies leads from. *)
Lemma order_chain deps (topo : list Z) :
  (∀ i v u, topo !! i = Some v → (u, v) ∈ deps →
     ∃ j, (j < i)%nat ∧ topo !! j = Some u) →
  ∀ p q, reaches deps p q →
    ∀ i, topo !! i = Some q → ∃ j, (j < i)%nat ∧ topo !! j = Some p.
Proof.
  intros Hord p q Hpq. induction Hpq as [x y H|x y z H _ IH]; intros i Hi.
  - by eapply Hord.
  - destruct (IH i Hi) as (j & Hj & Hy).
    destruct (Hord j y x Hy H) as (k & Hk & Hx). exists k. split; [lia|done].
Qed.

Lemma remaining_zero_intro deps (topo : list Z) v :
  (∀ u, (u, v) ∈ deps → u ∈ topo) → remaining deps topo v = 0.
Proof.
  intros H. unfold remaining.
  destruct (filter _ deps) as [|[a b] l] eqn:E; [done|]. exfalso.
  assert ((a, b) ∈ filter (λ e : Z * Z, e.2 = v ∧ e.1 ∉ topo) deps) as Hin
    by (rewrite E; apply list_elem_of_here).
  apply list_elem_of_filter in Hin as [[Hb Ha] Hin]. simpl in *. subst b.
  by apply Ha, H.
Qed.

(** The list Kahn's loop builds is returned when it holds every job. *)
Lemma kahn_full (topo keys : list Z) :
  NoDup topo → (∀ v, v ∈ topo → v ∈ keys) → length topo = length keys →
  topo ≡ₚ keys.
Proof.
  intros Hnd Hsub Hlen.
  apply submseteq_length_Permutation; [by apply NoDup_submseteq | lia].
Qed.

End kahn_theorems.

(** X1 (Kahn's algorithm is sound): an order that [topological_sort]
    returns for a freshly constructed scheduler, other than the empty list
    that stands for "no order", holds every job id exactly once and has the
    predecessor of every dependency before its successor. *)
Theorem topological_order_sound js deps ms self topo self1 :
  Scheduler.init js deps ms = Ret self →
  Scheduler.topological_sort self = Ret (topo, self1) →
  topo ≠ [] →
  NoDup topo
  ∧ topo ≡ₚ od_keys (Scheduler.jobs self)
  ∧ OrderProps.topological deps topo.
Proof.
  intros Hinit Htopo Hne.
  by destruct (topological_sort_order _ _ _ _ _ _ Hinit Htopo Hne) as (? & ? & ?).
Qed.

Lemma topological_order_sound_witness :
  ∃ topo self1,
    Scheduler.topological_sort Scenario.scenario_scheduler = Ret (topo, self1)
    ∧ NoDup topo
    ∧ topo ≡ₚ od_keys (Scheduler.jobs Scenario.scenario_scheduler)
    ∧ OrderProps.topological Scenario.scenario_dependencies topo.
Proof.
  destruct (Scheduler.topological_sort Scenario.scenario_scheduler)
    as [[topo self1]|e] eqn:E; [|by vm_compute in E].
  exists topo, self1. split; [done|].
  apply (topological_order_sound Scenario.scenario_jobs
           Scenario.scenario_dependencies Scenario.scenario_machines
           Scenario.scenario_scheduler topo self1 scenario_init E).
  intros ->. by vm_compute in E.
Defined.

(** X2 (cyclic dependencies): when a chain of dependencies leads from a job
    back to itself, [topological_sort] on the freshly constructed scheduler
    returns the empty list and [schedule_jobs] returns its "no schedule"
    value; neither raises or loops. *)
Theorem cyclic_dependencies_give_no_order js deps ms self p :
  Scheduler.init js deps ms = Ret self →
  OrderProps.reaches deps p p →
  ∃ self1,
    Scheduler.topological_sort self = Ret ([], self1)
    ∧ Backtracking.schedule_jobs self = Ret (Backtracking.NoOrder, self1).
Proof.
  intros Hinit Hcycle.
  destruct (kahn_run _ _ _ _ Hinit)
    as (topo & d' & Hts & Hnd & Hsub & _ & Hord & _ & _ & _ & Htg).
  eexists. split; [|apply schedule_jobs_no_order]; rewrite Hts;
    (case_decide as Hlen; [exfalso | reflexivity]).
  all: assert (topo ≡ₚ od_keys (Scheduler.jobs self)) as Hperm
    by (apply kahn_full; [done..|]; by unfold od_keys; rewrite length_fmap).
  all: destruct (reaches_target _ _ _ Hcycle) as [u Hu].
  all: apply Htg in Hu; rewrite <- Hperm in Hu.
  all: apply list_elem_of_lookup_1 in Hu as [i Hi].
  all: destruct (order_chain deps topo Hord p p Hcycle i Hi) as (j & Hj & Hp).
  all: pose proof (NoDup_lookup _ _ _ _ Hnd Hi Hp); lia.
Qed.

Lemma cyclic_dependencies_give_no_order_witness :
  ∃ self self1,
    Scheduler.init Scenario.apart_jobs Examples.cyclic_dependencies
      Scenario.apart_machines = Ret self
    ∧ Scheduler.topological_sort self = Ret ([], self1)
    ∧ Backtracking.schedule_jobs self = Ret (Backtracking.NoOrder, self1).
Proof.
  destruct (Scheduler.init Scenario.apart_jobs Examples.cyclic_dependencies
              Scenario.apart_machines) as [self|e] eqn:E; [|by vm_compute in E].
  destruct (cyclic_dependencies_give_no_order Scenario.apart_jobs
              Examples.cyclic_dependencies Scenario.apart_machines self 1 E)
    as (self1 & H1 & H2).
  - apply (tc_l _ 1 2 1); [|apply tc_once]; unfold OrderProps.depends; by_compute.
  - by exists self, self1.
Defined.

(** X3 (a predecessor that is not a job): a dependency whose first
    component is not the id of any job passes the constructor unnoticed,
    and then [topological_sort] returns the empty list and [schedule_jobs]
    its "no schedule" value: the successor's in-degree never reaches zero. *)
Theorem unknown_predecessor_gives_no_order js deps ms self p q :
  Scheduler.init js deps ms = Ret self →
  (p, q) ∈ deps →
  p ∉ Scheduler.job_id <$> js →
  ∃ self1,
    Scheduler.topological_sort self = Ret ([], self1)
    ∧ Backtracking.schedule_jobs self = Ret (Backtracking.NoOrder, self1).
Proof.
  intros Hinit Hpq Hp.
  destruct (kahn_run _ _ _ _ Hinit)
    as (topo & d' & Hts & Hnd & Hsub & _ & Hord & _ & _ & _ & Htg).
  eexists. split; [|apply schedule_jobs_no_order]; rewrite Hts;
    (case_decide as Hlen; [exfalso | reflexivity]).
  all: assert (topo ≡ₚ od_keys (Scheduler.jobs self)) as Hperm
    by (apply kahn_full; [done..|]; by unfold od_keys; rewrite length_fmap).
  all: pose proof (Htg _ _ Hpq) as Hq; rewrite <- Hperm in Hq.
  all: apply list_elem_of_lookup_1 in Hq as [i Hi].
  all: destruct (Hord i q p Hi Hpq) as (j & _ & Hj).
  all: apply Hp, (init_keys _ _ _ _ Hinit), Hsub.
  all: by eapply list_elem_of_lookup_2.
Qed.

Lemma unknown_predecessor_gives_no_order_witness :
  ∃ self self1,
    Scheduler.init Scenario.apart_jobs Examples.dangling_dependencies
      Scenario.apart_machines = Ret self
    ∧ Scheduler.topological_sort self = Ret ([], self1)
    ∧ Backtracking.schedule_jobs self = Ret (Backtracking.NoOrder, self1).
Proof.
  destruct (Scheduler.init Scenario.apart_jobs Examples.dangling_dependencies
              Scenario.apart_machines) as [self|e] eqn:E; [|by vm_compute in E].
  destruct (unknown_predecessor_gives_no_order Scenario.apart_jobs
              Examples.dangling_dependencies Scenario.apart_machines self 9 1 E)
    as (self1 & H1 & H2).
  - by_compute.
  - by_compute.
  - by exists self, self1.
Defined.

(** The loop reaches every job when some arrangement of the jobs respects
    the dependencies. *)
Lemma kahn_complete js deps ms self order :
  Scheduler.init js deps ms = Ret self →
  js ≠ [] →
  order ≡ₚ od_keys (Scheduler.jobs self) →
  OrderProps.topological deps order →
  ∃ topo self1,
    Scheduler.topological_sort self = Ret (topo, self1)
    ∧ topo ≠ []
    ∧ topo ≡ₚ od_keys (Scheduler.jobs self)
    ∧ OrderProps.topological deps topo.
Proof.
  intros Hinit Hjs Horder Htopological.
  pose proof (init_keys_NoDup _ _ _ _ Hinit) as Hkeys.
  destruct (kahn_run _ _ _ _ Hinit)
    as (topo & d' & Hts & Hnd & Hsub & Hcomp & Hord & _ & _ & _ & Htg).
  assert (NoDup order) as Hndo by (by rewrite Horder).
  assert (∀ n i v, (i < n)%nat → order !! i = Some v → v ∈ topo) as Hall.
  { induction n as [|n IH]; intros i v Hi Hv; [lia|].
    apply Hcomp.
    - rewrite <- Horder. by eapply list_elem_of_lookup_2.
    - apply remaining_zero_intro. intros u Hu.
      destruct (Htopological u v Hu) as (i' & j' & Hlt & Hu' & Hv').
      pose proof (NoDup_lookup _ _ _ _ Hndo Hv Hv'). subst j'.
      apply (IH i'); [lia | done]. }
  assert (topo ≡ₚ od_keys (Scheduler.jobs self)) as Hperm.
  { apply NoDup_Permutation; [done..|]. intros v. split; [by apply Hsub|].
    rewrite <- Horder. intros [i Hi]%list_elem_of_lookup_1.
    apply (Hall (S i) i); [lia | done]. }
  rewrite decide_True in Hts
    by (rewrite Hperm; unfold od_keys; by rewrite length_fmap).
  eexists _, _. split; [exact Hts|]. split_and!; [|done|].
  - intros ->. apply Permutation_nil_l in Hperm.
    destruct js as [|job js]; [done|].
    assert (Scheduler.job_id job ∈ od_keys (Scheduler.jobs self)) as Hin
      by (apply (init_keys _ _ _ _ Hinit); rewrite fmap_cons;
          apply list_elem_of_here).
    rewrite <- Hperm in Hin. by apply elem_of_nil in Hin.
  - intros p q Hpq. pose proof (Htg _ _ Hpq) as Hq. rewrite <- Hperm in Hq.
    apply list_elem_of_lookup_1 in Hq as [j Hj].
    destruct (Hord j q p Hj Hpq) as (i & Hi & Hp). by exists i, j.
Qed.

(** X4 (Kahn's algorithm is complete): if the job ids can be arranged so
    that every dependency goes forward, and there is at least one job, then
    [topological_sort] on the freshly constructed scheduler returns a
    non-empty order of all the jobs in which every dependency goes forward. *)
Theorem topological_sort_complete js deps ms self order :
  Scheduler.init js deps ms = Ret self →
  js ≠ [] →
  order ≡ₚ od_keys (Scheduler.jobs self) →
  OrderProps.topological deps order →
  ∃ topo self1,
    Scheduler.topological_sort self = Ret (topo, self1)
    ∧ topo ≠ []
    ∧ topo ≡ₚ od_keys (Scheduler.jobs self)
    ∧ OrderProps.topological deps topo.
Proof. apply kahn_complete. Qed.

Lemma topological_sort_complete_witness :
  ∃ topo self1,
    Scheduler.topological_sort Scenario.scenario_scheduler = Ret (topo, self1)
    ∧ topo ≠ []
    ∧ topo ≡ₚ od_keys (Scheduler.jobs Scenario.scenario_scheduler)
    ∧ OrderProps.topological Scenario.scenario_dependencies topo.
Proof.
  apply (topological_sort_complete Scenario.scenario_jobs
           Scenario.scenario_dependencies Scenario.scenario_machines
           Scenario.scenario_scheduler [3; 2; 5; 1; 4] scenario_init).
  - done.
  - by_compute.
  - intros p q Hpq. unfold Scenario.scenario_dependencies in Hpq.
    repeat (apply elem_of_cons in Hpq as [[= -> ->]|Hpq]);
      [exists 3%nat, 4%nat | exists 1%nat, 2%nat
       | exists 0%nat, 2%nat | by apply elem_of_nil in Hpq];
      (split; [lia | by split]).
Defined.

Section constructor.
Import Scheduler.

Lemma build_edges_raise deps :
  ∀ g0 (d0 : gmap Z Z) e,
    build_edges deps g0 d0 = Raise e →
    e = KeyError ∧ ∃ p q, (p, q) ∈ deps ∧ d0 !! q = None.
Proof.
  induction deps as [|[u v] deps IH]; intros g0 d0 e H; simpl in H; [done|].
  apply bind_raise in H as [[-> Hv]%getitem_raise|(n & Hn%getitem_ret & H)].
  - split; [done|]. exists u, v. split; [apply list_elem_of_here | done].
  - apply IH in H as (-> & p & q & Hpq & Hq). split; [done|].
    exists p, q. split; [by apply list_elem_of_further|].
    rewrite lookup_insert in Hq. by case_decide.
Qed.

Lemma init_raise js deps ms e :
  init js deps ms = Raise e →
  e = KeyError ∧ ∃ p q, (p, q) ∈ deps ∧ q ∉ job_id <$> js.
Proof.
  unfold init, _build_graph. intros [H|([g d] & _ & H)]%bind_raise; [|done].
  simpl in H. apply build_edges_raise in H as (-> & p & q & Hpq & Hq).
  split; [done|]. exists p, q. split; [done|].
  rewrite lookup_zeros in Hq. case_decide as Hin; [done|].
  intros Hq'. apply Hin, od_keys_jobs_elem. auto.
Qed.

Lemma filter_all {A : Type} (P : A → Prop) `{∀ x, Decision (P x)} (l : list A) :
  Forall P l → filter P l = l.
Proof.
  induction 1 as [|x l Hx _ IH]; [done|].
  by rewrite filter_cons, decide_True, IH.
Qed.

End constructor.

(** X5 (errors of the constructor): [JobScheduler(jobs, dependencies,
    machines)] raises exactly when some dependency names as successor an id
    that is not the id of a job, and what it raises then is [KeyError] (from
    [self.in_degree[v] += 1]); unknown machine names and unknown
    predecessors are accepted. *)
Theorem constructor_key_error js deps ms e :
  Scheduler.init js deps ms = Raise e
  ↔ e = KeyError ∧ ∃ p q, (p, q) ∈ deps ∧ q ∉ Scheduler.job_id <$> js.
Proof.
  split; [apply init_raise|].
  intros (-> & p & q & Hpq & Hq).
  destruct (Scheduler.init js deps ms) as [self|e] eqn:E.
  - exfalso.
    destruct (kahn_run _ _ _ _ E) as (topo & d' & _ & _ & _ & _ & _ & _ & _ & _ & Htg).
    apply Hq, (init_keys _ _ _ _ E), (Htg p q Hpq).
  - by apply init_raise in E as [-> _].
Qed.

(** X6 ([topological_sort] cannot fail): on a constructed scheduler every
    [self.in_degree[...]] that [topological_sort] reads is present and the
    [while queue] loop ends: the call returns a list, never an exception.
    Every id of the list is a job id, and [self.jobs] is left as it was.
    (Nothing is stated about [self.graph]: reading [self.graph[u]] stores an
    empty list under a job without successors.) *)
Theorem topological_sort_returns js deps ms self :
  Scheduler.init js deps ms = Ret self →
  ∃ topo self1,
    Scheduler.topological_sort self = Ret (topo, self1)
    ∧ (∀ v, v ∈ topo → v ∈ Scheduler.job_id <$> js)
    ∧ Scheduler.jobs self1 = Scheduler.jobs self.
Proof.
  intros Hinit.
  destruct (kahn_run _ _ _ _ Hinit) as (topo & d' & Hts & _ & Hsub & _).
  eexists _, _. split; [exact Hts|]. split; [|done].
  intros v Hv. apply (init_keys _ _ _ _ Hinit).
  case_decide; [by apply Hsub | by apply elem_of_nil in Hv].
Qed.

Lemma topological_sort_returns_witness :
  ∃ topo self1,
    Scheduler.topological_sort Scenario.scenario_scheduler = Ret (topo, self1)
    ∧ (∀ v, v ∈ topo → v ∈ Scheduler.job_id <$> Scenario.scenario_jobs)
    ∧ Scheduler.jobs self1 = Scheduler.jobs Scenario.scenario_scheduler.
Proof.
  exact (topological_sort_returns Scenario.scenario_jobs
           Scenario.scenario_dependencies Scenario.scenario_machines
           Scenario.scenario_scheduler scenario_init).
Defined.

(** X7 ([topological_sort] uses up [in_degree]): after a call that found
    an order, every in-degree is zero, so a second call on the same object
    returns the job ids in the order the jobs were given to the
    constructor, whatever the dependencies are. *)
Theorem topological_sort_second_call js deps ms self topo self1 :
  Scheduler.init js deps ms = Ret self →
  Scheduler.topological_sort self = Ret (topo, self1) →
  topo ≠ [] →
  ∃ self2,
    Scheduler.topological_sort self1
    = Ret (od_keys (Scheduler.jobs self), self2).
Proof.
  intros Hinit Htopo Hne.
  destruct (kahn_run _ _ _ _ Hinit)
    as (topo' & d' & Hts & Hnd & Hsub & _ & _ & Hzero & Hdom & Hg & Htg).
  rewrite Hts in Htopo. injection Htopo as <- <-.
  case_decide as Hlen; [|done]. clear Hne.
  assert (topo' ≡ₚ od_keys (Scheduler.jobs self)) as Hperm
    by (apply kahn_full; [done..|]; by unfold od_keys; rewrite length_fmap).
  assert (∀ v, v ∈ od_keys (Scheduler.jobs self) → d' !! v = Some 0) as Hz.
  { intros v Hv. apply Hzero. by rewrite Hperm. }
  unfold Scheduler.topological_sort. simpl.
  destruct (initial_queue_total (od_keys (Scheduler.jobs self)) d') as [queue Hq].
  { apply Forall_forall. intros v Hv. rewrite Hz; eauto. }
  rewrite Hq. cbn [bind]. apply initial_queue_ret in Hq as [-> _].
  rewrite filter_all by (apply Forall_forall; intros v Hv; by apply Hz).
  match goal with
  | |- context [Scheduler.kahn_loop ?f ?g ?q d' []] =>
      destruct (kahn_loop_drained g f q d' []) as [d'' Hloop]
  end.
  - intros u v Hv. rewrite Hg in Hv.
    apply list_elem_of_fmap in Hv as ([p q] & -> & [_ Hf]%list_elem_of_filter).
    apply Hdom. by eapply Htg.
  - intros v n Hv. rewrite Hz in Hv; [injection Hv as <-; lia|].
    apply Hdom. eauto.
  - unfold Scheduler.kahn_fuel, od_keys. simpl. rewrite length_fmap. lia.
  - rewrite Hloop. cbn [bind app].
    rewrite decide_True by (unfold od_keys; by rewrite length_fmap). eauto.
Qed.

(** Job 2, entered first, depends on job 1: the first call returns [1; 2],
    the second [2; 1]. *)
Lemma topological_sort_second_call_witness :
  ∃ self self1 self2,
    Scheduler.init Examples.reversed_jobs Scenario.apart_dependencies
      Scenario.apart_machines = Ret self
    ∧ Scheduler.topological_sort self = Ret ([1; 2], self1)
    ∧ Scheduler.topological_sort self1 = Ret ([2; 1], self2).
Proof.
  destruct (Scheduler.init Examples.reversed_jobs Scenario.apart_dependencies
              Scenario.apart_machines) as [self|e] eqn:E; [|by vm_compute in E].
  destruct (Scheduler.topological_sort self) as [[topo self1]|e] eqn:E1.
  - destruct (topological_sort_second_call Examples.reversed_jobs
                Scenario.apart_dependencies Scenario.apart_machines
                self topo self1 E E1) as [self2 H2].
    + intros ->. revert E1. injection E as <-. by vm_compute.
    + exists self, self1, self2. split; [done|].
      revert E1 H2. injection E as <-. vm_compute.
      intros [= <- <-]. vm_compute. intros [= <-]. done.
  - exfalso. revert E1. injection E as <-. by vm_compute.
Defined.

(** * The placement loop: which jobs it places, when, and when it fails *)

Section placement_facts.
Import Scheduler SchedulerProps PlacementProps.

Variable self_jobs : list (Z * Job).

Implicit Types (usage : gmap string Z) (sched : gmap Z (Z * list string))
  (starts : gmap Z Z).

Lemma od_get_raise {V : Type} (d : list (Z * V)) (k : Z) e :
  od_get d k = Raise e → e = KeyError ∧ k ∉ od_keys d.
Proof.
  unfold od_keys. induction d as [|[k' v'] d IH]; cbn [od_get].
  - intros [= <-]. split; [done | apply not_elem_of_nil].
  - case_decide as Hk; [done|]. intros [-> Hout]%IH. split; [done|].
    rewrite fmap_cons. intros [?|?]%elem_of_cons; done.
Qed.

Lemma od_get_ret {V : Type} (d : list (Z * V)) (k : Z) (v : V) :
  od_get d k = Ret v → (k, v) ∈ d.
Proof.
  induction d as [|[k' v'] d IH]; cbn [od_get]; [done|].
  case_decide as Hk.
  - intros [= ->]. subst. apply list_elem_of_here.
  - intros ?. by apply list_elem_of_further, IH.
Qed.

Lemma od_get_elem {V : Type} (d : list (Z * V)) (k : Z) (v : V) :
  NoDup (od_keys d) → (k, v) ∈ d → od_get d k = Ret v.
Proof.
  unfold od_keys. induction d as [|[k' v'] d IH]; cbn [od_get].
  - by intros _ ?%elem_of_nil.
  - rewrite fmap_cons. intros [Hk' Hnd]%NoDup_cons [[= -> ->]|Hin]%elem_of_cons.
    + by rewrite decide_True.
    + rewrite decide_False; [by apply IH|]. intros ->. apply Hk'.
      apply list_elem_of_fmap. by exists (k', v).
Qed.

Lemma earliest_start_tight usage ms t0 t :
  earliest_start usage ms t0 = Ret t →
  t = t0 ∨ ∃ m, m ∈ ms ∧ usage !! m = Some t.
Proof.
  revert t0. induction ms as [|m0 ms IH]; simpl; intros t0 H.
  - inversion H; auto.
  - apply bind_ret in H as (u0 & Hu0%getitem_ret & H).
    apply IH in H as [->|(m & Hm & Hu)].
    + destruct (Z.max_spec t0 u0) as [[_ ->]|[_ ->]]; [|auto].
      right. exists m0. split; [apply list_elem_of_here | done].
    + right. exists m. split; [by apply list_elem_of_further | done].
Qed.

Lemma earliest_start_raise usage ms t0 e :
  earliest_start usage ms t0 = Raise e →
  e = KeyError ∧ ∃ m, m ∈ ms ∧ usage !! m = None.
Proof.
  revert t0. induction ms as [|m0 ms IH]; simpl; intros t0 H; [done|].
  apply bind_raise in H as [[-> Hm]%getitem_raise|(u & _ & H)].
  - split; [done|]. exists m0. split; [apply list_elem_of_here | done].
  - apply IH in H as (-> & m & Hm & Hu). split; [done|].
    exists m. split; [by apply list_elem_of_further | done].
Qed.

Lemma place_jobs_untouched_starts order :
  ∀ usage sched starts usage' sched' starts' j,
    place_jobs self_jobs order usage sched starts = Ret (usage', sched', starts') →
    j ∉ order → sched' !! j = sched !! j ∧ starts' !! j = starts !! j.
Proof.
  induction order as [|j0 order IH];
    intros usage sched starts usage' sched' starts' j H Hj; simpl in H.
  { by inversion H. }
  apply bind_ret in H as (job0 & _ & H). apply bind_ret in H as (t0 & _ & H).
  destruct (IH _ _ _ _ _ _ j H) as [-> ->].
  { intros ?. apply Hj. by apply list_elem_of_further. }
  assert (j0 ≠ j) by (intros ->; apply Hj, list_elem_of_here).
  by rewrite !lookup_insert_ne.
Qed.

(** Every job of the order is placed once, at or after time 0, on its own
    required machines, and recorded in [start_times] as well. *)
Lemma place_jobs_entries order :
  ∀ usage sched starts usage' sched' starts' j,
    place_jobs self_jobs order usage sched starts = Ret (usage', sched', starts') →
    NoDup order → j ∈ order →
    ∃ job t,
      od_get self_jobs j = Ret job
      ∧ sched' !! j = Some (t, required_machines job)
      ∧ starts' !! j = Some t
      ∧ 0 <= t
      ∧ ∀ m, m ∈ required_machines job → is_Some (usage !! m).
Proof.
  induction order as [|j0 order IH];
    intros usage sched starts usage' sched' starts' j H Hnd Hj; simpl in H.
  { by apply elem_of_nil in Hj. }
  apply NoDup_cons in Hnd as [Hj0 Hnd].
  apply bind_ret in H as (job0 & Hjob0 & H).
  apply bind_ret in H as (t0 & Ht0 & H).
  pose proof Ht0 as [Hpos Hms]%earliest_start_ret.
  destruct (decide (j = j0)) as [->|Hne].
  - exists job0, t0.
    destruct (place_jobs_untouched_starts _ _ _ _ _ _ _ j0 H Hj0) as [-> ->].
    rewrite !lookup_insert_eq. split_and!; try done.
    intros m Hm. destruct (Hms m Hm) as (u & -> & _). eauto.
  - apply elem_of_cons in Hj as [?|Hj]; [done|].
    destruct (IH _ _ _ _ _ _ j H Hnd Hj) as (job & t & ? & ? & ? & ? & Hdom).
    exists job, t. split_and!; try done.
    intros m Hm. specialize (Hdom m Hm). rewrite occupy_lookup in Hdom.
    case_decide as Hin; [|done]. destruct (Hms m Hin) as (u & -> & _). eauto.
Qed.

Lemma place_jobs_raise order :
  ∀ usage sched starts e,
    place_jobs self_jobs order usage sched starts = Raise e →
    e = KeyError
    ∧ ∃ j, j ∈ order
        ∧ (j ∉ od_keys self_jobs
           ∨ ∃ job m, od_get self_jobs j = Ret job
               ∧ m ∈ required_machines job ∧ usage !! m = None).
Proof.
  induction order as [|j0 order IH]; intros usage sched starts e H;
    simpl in H; [done|].
  apply bind_raise in H as [[-> Hout]%od_get_raise|(job0 & Hjob0 & H)].
  { split; [done|]. exists j0. split; [apply list_elem_of_here | auto]. }
  apply bind_raise in H as [(-> & m & Hm & Hu)%earliest_start_raise|(t0 & Ht0 & H)].
  { split; [done|]. exists j0. split; [apply list_elem_of_here|].
    right. by exists job0, m. }
  apply IH in H as (-> & j & Hj & Hcase). split; [done|].
  exists j. split; [by apply list_elem_of_further|].
  destruct Hcase as [?|(job & m & Hjob & Hm & Hu)]; [auto|].
  right. exists job, m. split_and!; [done..|].
  rewrite occupy_lookup in Hu. by case_decide.
Qed.

(** The usage of a machine is 0 or the completion time of a placed job
    that requires the machine. *)
Definition busy_inv usage sched : Prop :=
  ∀ m u, usage !! m = Some u →
    u = 0 ∨ ∃ k tk mk jobk,
      sched !! k = Some (tk, mk) ∧ od_get self_jobs k = Ret jobk
      ∧ m ∈ mk ∧ tk + processing_time jobk = u.

Lemma place_jobs_tight order :
  ∀ usage sched starts usage' sched' starts' j,
    place_jobs self_jobs order usage sched starts = Ret (usage', sched', starts') →
    NoDup order →
    (∀ k, is_Some (sched !! k) → k ∉ order) →
    busy_inv usage sched →
    j ∈ order →
    ∃ job t,
      od_get self_jobs j = Ret job
      ∧ sched' !! j = Some (t, required_machines job)
      ∧ starts_when_free self_jobs sched' j t (required_machines job).
Proof.
  induction order as [|j0 order IH];
    intros usage sched starts usage' sched' starts' j H Hnd Hfresh Hbusy Hj;
    simpl in H.
  { by apply elem_of_nil in Hj. }
  apply NoDup_cons in Hnd as [Hj0 Hnd].
  apply bind_ret in H as (job0 & Hjob0 & H).
  apply bind_ret in H as (t0 & Ht0 & H).
  destruct (decide (j = j0)) as [->|Hne].
  - exists job0, t0.
    destruct (place_jobs_untouched_starts _ _ _ _ _ _ _ j0 H Hj0) as [Hs _].
    rewrite Hs, lookup_insert_eq. split_and!; [done..|].
    apply earliest_start_tight in Ht0 as [->|(m & Hm & Hu)]; [by left|].
    destruct (Hbusy m t0 Hu) as [->|(k & tk & mk & jobk & Hk & Hjobk & Hmk & Hend)];
      [by left|].
    right. exists k, tk, mk, jobk, m.
    assert (k ∉ j0 :: order) as Hk' by (apply Hfresh; eauto).
    assert (k ≠ j0) as Hkj by (intros ->; apply Hk', list_elem_of_here).
    split_and!; try done.
    destruct (place_jobs_untouched_starts _ _ _ _ _ _ _ k H) as [-> _].
    + intros ?. apply Hk'. by apply list_elem_of_further.
    + by rewrite lookup_insert_ne.
  - apply elem_of_cons in Hj as [?|Hj]; [done|].
    eapply IH; [exact H | done | | | done].
    + intros k Hk. rewrite lookup_insert in Hk. case_decide as Hkj; [by subst|].
      intros ?. eapply Hfresh; [done|]. by apply list_elem_of_further.
    + intros m u. rewrite occupy_lookup. case_decide as Hin.
      * intros [= <-]. right.
        exists j0, t0, (required_machines job0), job0.
        by rewrite lookup_insert_eq.
      * intros Hu.
        destruct (Hbusy m u Hu) as [->|(k & tk & mk & jobk & Hk & ? & ? & ?)];
          [by left|].
        right. exists k, tk, mk, jobk. split_and!; try done.
        rewrite lookup_insert_ne; [done|]. intros <-.
        eapply Hfresh; [eauto | apply list_elem_of_here].
Qed.

Lemma place_jobs_busy order :
  ∀ usage sched starts usage' sched' starts',
    place_jobs self_jobs order usage sched starts = Ret (usage', sched', starts') →
    NoDup order →
    (∀ k, is_Some (sched !! k) → k ∉ order) →
    busy_inv usage sched →
    busy_inv usage' sched'.
Proof.
  induction order as [|j0 order IH];
    intros usage sched starts usage' sched' starts' H Hnd Hfresh Hbusy;
    simpl in H.
  { by inversion H; subst. }
  apply NoDup_cons in Hnd as [Hj0 Hnd].
  apply bind_ret in H as (job0 & Hjob0 & H).
  apply bind_ret in H as (t0 & Ht0 & H).
  eapply IH; [exact H | done | |].
  - intros k Hk. rewrite lookup_insert in Hk. case_decide as Hkj; [by subst|].
    intros ?. eapply Hfresh; [done|]. by apply list_elem_of_further.
  - intros m u. rewrite occupy_lookup. case_decide as Hin.
    + intros [= <-]. right.
      exists j0, t0, (required_machines job0), job0.
      by rewrite lookup_insert_eq.
    + intros Hu.
      destruct (Hbusy m u Hu) as [->|(k & tk & mk & jobk & Hk & ? & ? & ?)];
        [by left|].
      right. exists k, tk, mk, jobk. split_and!; try done.
      rewrite lookup_insert_ne; [done|]. intros <-.
      eapply Hfresh; [eauto | apply list_elem_of_here].
Qed.

(** The sum of the processing times of the jobs of an order. *)
Definition order_time (order : list Z) : Z :=
  foldr Z.add 0
    ((λ j, match od_get self_jobs j with
           | Ret job => processing_time job
           | Raise _ => 0
           end) <$> order).

Lemma earliest_start_bound usage ms t0 t (B : Z) :
  earliest_start usage ms t0 = Ret t →
  t0 <= B → (∀ m u, usage !! m = Some u → u <= B) → t <= B.
Proof.
  intros [->|(m & _ & Hu)]%earliest_start_tight ? Hall; [done|]. by eapply Hall.
Qed.

Lemma place_jobs_bound order :
  nonneg_times self_jobs →
  ∀ usage sched starts usage' sched' starts' (B : Z) j,
    place_jobs self_jobs order usage sched starts = Ret (usage', sched', starts') →
    NoDup order → 0 <= B →
    (∀ m u, usage !! m = Some u → u <= B) →
    j ∈ order →
    ∃ job t,
      od_get self_jobs j = Ret job
      ∧ sched' !! j = Some (t, required_machines job)
      ∧ t + processing_time job <= B + order_time order.
Proof.
  intros Hnn. induction order as [|j0 order IH];
    intros usage sched starts usage' sched' starts' B j H Hnd HB Hall Hj;
    simpl in H.
  { by apply elem_of_nil in Hj. }
  apply NoDup_cons in Hnd as [Hj0 Hnd].
  apply bind_ret in H as (job0 & Hjob0 & H).
  apply bind_ret in H as (t0 & Ht0 & H).
  pose proof (Hnn _ _ Hjob0) as Hpt0.
  pose proof (earliest_start_bound _ _ _ _ B Ht0 HB Hall) as Ht0B.
  unfold order_time. rewrite fmap_cons. cbn [foldr]. rewrite Hjob0.
  fold (order_time order).
  assert (0 <= order_time order) as Hrest.
  { clear -Hnn. unfold order_time. induction order as [|k order IH]; [done|].
    rewrite fmap_cons. cbn [foldr].
    destruct (od_get self_jobs k) as [job|] eqn:E; [|lia].
    pose proof (Hnn _ _ E). lia. }
  destruct (decide (j = j0)) as [->|Hne].
  - exists job0, t0.
    destruct (place_jobs_untouched_starts _ _ _ _ _ _ _ j0 H Hj0) as [-> _].
    rewrite lookup_insert_eq. split_and!; [done..|lia].
  - apply elem_of_cons in Hj as [?|Hj]; [done|].
    destruct (IH _ _ _ _ _ _ (B + processing_time job0) j H Hnd) as
      (job & t & ? & ? & ?); [lia| |done|].
    + intros m u. rewrite occupy_lookup. case_decide.
      * intros [= <-]. lia.
      * intros Hu%Hall. lia.
    + exists job, t. split_and!; [done..|lia].
Qed.

End placement_facts.

(** * The list scheduler: the schedule it returns *)

Section list_schedule_facts.
Import Scheduler SchedulerProps PlacementProps.

Lemma od_get_jobs_id (js : list Job) (d : list (Z * Job)) (j : Z) (job : Job) :
  od_get (foldl (λ d job, od_set (job_id job) job d) d js) j = Ret job →
  (job ∈ js ∧ job_id job = j) ∨ od_get d j = Ret job.
Proof.
  revert d. induction js as [|job0 js IH]; intros d; cbn [foldl]; [auto|].
  intros [[H ?]|H]%IH; [left; split; [by apply list_elem_of_further | done]|].
  apply od_get_set in H as [[-> ->]|[_ ?]]; [|auto].
  left. split; [apply list_elem_of_here | done].
Qed.

(** The machines of a constructed scheduler are those given by name. *)
Lemma init_machines js deps ms self (m : string) :
  init js deps ms = Ret self →
  is_Some (fresh_usage self !! m) ↔ m ∈ name <$> ms.
Proof.
  unfold init, _build_graph. intros ([g d] & _ & [= <-])%bind_ret.
  unfold fresh_usage. cbn [machines set_graph_in_degree].
  rewrite lookup_fmap, fmap_is_Some.
  assert (∀ (d0 : gmap string Machine),
    is_Some (foldl (λ d m, <[name m := m]> d) d0 ms !! m)
    ↔ is_Some (d0 !! m) ∨ m ∈ name <$> ms) as Hfold.
  { induction ms as [|m0 ms IH]; intros d0; cbn [foldl].
    - rewrite fmap_nil. split; [auto|]. intros [?|?%elem_of_nil]; done.
    - rewrite IH, fmap_cons, elem_of_cons, lookup_insert.
      case_decide as Hm.
      + subst. split; [auto|]. intros _. left. eauto.
      + split; [tauto|]. intros [?|[?|?]]; [auto | congruence | auto]. }
  rewrite Hfold, lookup_empty. split; [|auto]. intros [[? ?]|?]; done.
Qed.

Lemma fresh_usage_zero self (m : string) (u : Z) :
  fresh_usage self !! m = Some u → u = 0.
Proof.
  unfold fresh_usage. rewrite lookup_fmap.
  destruct (machines self !! m); simpl; congruence.
Qed.

(** What [schedule_jobs] of Backtracking.py does when it returns a schedule. *)
Lemma list_schedule_run js deps ms self s self' :
  init js deps ms = Ret self →
  Backtracking.schedule_jobs self = Ret (Backtracking.Schedule s, self') →
  ∃ topo self1 usage',
    topological_sort self = Ret (topo, self1)
    ∧ NoDup topo
    ∧ topo ≡ₚ od_keys (jobs self)
    ∧ place_jobs (jobs self) topo (fresh_usage self) ∅ ∅
      = Ret (usage', s, start_times self')
    ∧ jobs self' = jobs self.
Proof.
  intros Hinit H. unfold Backtracking.schedule_jobs in H.
  apply bind_ret in H as ([topo self1] & Htopo & H).
  destruct topo as [|j0 topo]; [done|].
  apply bind_ret in H as ([[usage' sched'] starts'] & Hplace & [= <- <-]).
  destruct (topological_sort_order _ _ _ _ _ _ Hinit Htopo) as (Hnd & Hperm & _);
    [done|].
  pose proof (topological_sort_fields _ _ _ Htopo) as (Hjobs & Hsched & Hst & Hms).
  destruct (init_fields _ _ _ _ Hinit) as (_ & Hs0 & Hst0).
  rewrite Hjobs, Hsched, Hst, Hs0, Hst0 in Hplace.
  assert (fresh_usage self1 = fresh_usage self) as Hfu
    by (unfold fresh_usage; by rewrite Hms).
  rewrite Hfu in Hplace.
  exists (j0 :: topo), self1, usage'. split_and!; done.
Qed.

Lemma Zsum_perm (l1 l2 : list Z) :
  l1 ≡ₚ l2 → foldr Z.add 0 l1 = foldr Z.add 0 l2.
Proof. induction 1; simpl; lia. Qed.

Lemma order_time_total (d : list (Z * Job)) (order : list Z) :
  NoDup (od_keys d) → order ≡ₚ od_keys d → order_time d order = total_time d.
Proof.
  intros Hnd Hperm. unfold order_time, total_time.
  rewrite (Zsum_perm _ _ (fmap_Permutation _ _ _ Hperm)).
  unfold od_keys. rewrite <- list_fmap_compose. f_equal.
  apply Forall_fmap_ext, Forall_forall. intros [k v] Hkv. simpl.
  by rewrite (od_get_elem d k v Hnd Hkv).
Qed.

(** With no id twice, [self.jobs] lists the jobs as they were given. *)
Lemma jobs_distinct (js : list Job) (d : list (Z * Job)) :
  NoDup (od_keys d ++ (job_id <$> js)) →
  foldl (λ d job, od_set (job_id job) job d) d js
  = d ++ ((λ job, (job_id job, job)) <$> js).
Proof.
  revert d. induction js as [|job js IH]; intros d Hnd; cbn [foldl].
  - by rewrite fmap_nil, app_nil_r.
  - rewrite fmap_cons in Hnd.
    assert (od_set (job_id job) job d = d ++ [(job_id job, job)]) as ->.
    { apply NoDup_app in Hnd as (_ & Hout & _).
      assert (job_id job ∉ od_keys d) as Hk
        by (intros ?; eapply Hout; [done | apply list_elem_of_here]).
      clear -Hk. unfold od_keys in Hk.
      induction d as [|[k v] d IH]; cbn [od_set]; [done|].
      rewrite fmap_cons in Hk. apply not_elem_of_cons in Hk as [? ?].
      rewrite decide_False by done. simpl. f_equal. by apply IH. }
    rewrite IH.
    + rewrite fmap_cons, <- app_assoc. done.
    + unfold od_keys in *. rewrite fmap_app, <- app_assoc. done.
Qed.

End list_schedule_facts.

(** X8 (every job is scheduled): the schedule that [schedule_jobs] of
    Backtracking.py returns has an entry for exactly the ids of the jobs;
    the entry of a job holds a start time that is not negative, also stored
    in [start_times], and the job's own list of required machines, all of
    which are machines of the scheduler. *)
Theorem list_schedule_places_every_job js deps ms self s self' :
  Scheduler.init js deps ms = Ret self →
  Backtracking.schedule_jobs self = Ret (Backtracking.Schedule s, self') →
  (∀ j, is_Some (s !! j) ↔ j ∈ Scheduler.job_id <$> js)
  ∧ ∀ j t rm, s !! j = Some (t, rm) →
      0 <= t
      ∧ Scheduler.start_times self' !! j = Some t
      ∧ (∀ m, m ∈ rm → m ∈ Scheduler.name <$> ms)
      ∧ ∃ job, od_get (Scheduler.jobs self) j = Ret job ∧ job ∈ js
          ∧ Scheduler.job_id job = j ∧ rm = Scheduler.required_machines job.
Proof.
  intros Hinit H.
  destruct (list_schedule_run _ _ _ _ _ _ Hinit H)
    as (topo & self1 & usage' & _ & Hnd & Hperm & Hplace & _).
  assert (∀ j, j ∈ topo ↔ j ∈ Scheduler.job_id <$> js) as Hids.
  { intros j. rewrite Hperm. apply (init_keys _ _ _ _ Hinit). }
  assert (∀ j, is_Some (s !! j) → j ∈ topo) as Hdom.
  { intros j Hj. destruct (decide (j ∈ topo)) as [|Hout]; [done|].
    destruct (place_jobs_untouched_starts _ _ _ _ _ _ _ _ j Hplace Hout) as [Hs _].
    rewrite Hs, lookup_empty in Hj. by destruct Hj. }
  split.
  - intros j. rewrite <- Hids. split; [by apply Hdom|]. intros Hj.
    destruct (place_jobs_entries _ _ _ _ _ _ _ _ j Hplace Hnd Hj)
      as (job & t & _ & -> & _). eauto.
  - intros j t rm Hj. assert (j ∈ topo) as Hin by (apply Hdom; eauto).
    destruct (place_jobs_entries _ _ _ _ _ _ _ _ j Hplace Hnd Hin)
      as (job & t' & Hjob & Hs & Hst & Ht & Hms).
    rewrite Hj in Hs. injection Hs as -> ->. split_and!; [done..| |].
    + intros m Hm. by apply (init_machines _ _ _ _ m Hinit), Hms.
    + exists job. pose proof Hjob as Hjob'.
      destruct (init_fields _ _ _ _ Hinit) as (Hjobs & _). rewrite Hjobs in Hjob'.
      apply od_get_jobs_id in Hjob' as [[? ?]|?]; done.
Qed.

Lemma list_schedule_places_every_job_witness :
  ∃ s self',
    Backtracking.schedule_jobs Scenario.scenario_scheduler
      = Ret (Backtracking.Schedule s, self')
    ∧ (∀ j, is_Some (s !! j) ↔ j ∈ [1; 2; 3; 4; 5])
    ∧ ∀ j t rm, s !! j = Some (t, rm) →
        0 <= t
        ∧ Scheduler.start_times self' !! j = Some t
        ∧ (∀ m, m ∈ rm → m ∈ Scheduler.name <$> Scenario.scenario_machines)
        ∧ ∃ job, od_get (Scheduler.jobs Scenario.scenario_scheduler) j = Ret job
            ∧ job ∈ Scenario.scenario_jobs
            ∧ Scheduler.job_id job = j ∧ rm = Scheduler.required_machines job.
Proof.
  destruct (Backtracking.schedule_jobs Scenario.scenario_scheduler)
    as [[[|s] self']|e] eqn:E; try by vm_compute in E.
  exists s, self'. split; [done|].
  exact (list_schedule_places_every_job Scenario.scenario_jobs
           Scenario.scenario_dependencies Scenario.scenario_machines
           Scenario.scenario_scheduler s self' scenario_init E).
Defined.

(** X9 (no needless waiting): in the schedule that [schedule_jobs] of
    Backtracking.py returns every job starts at time 0 or at the very
    moment another job of the schedule completes on one of the machines
    the job requires. *)
Theorem list_schedule_starts_when_free js deps ms self s self' :
  Scheduler.init js deps ms = Ret self →
  Backtracking.schedule_jobs self = Ret (Backtracking.Schedule s, self') →
  ∀ j t rm, s !! j = Some (t, rm) →
    PlacementProps.starts_when_free (Scheduler.jobs self) s j t rm.
Proof.
  intros Hinit H j t rm Hj.
  destruct (list_schedule_run _ _ _ _ _ _ Hinit H)
    as (topo & self1 & usage' & _ & Hnd & Hperm & Hplace & _).
  assert (j ∈ topo) as Hin.
  { destruct (decide (j ∈ topo)) as [|Hout]; [done|].
    destruct (place_jobs_untouched_starts _ _ _ _ _ _ _ _ j Hplace Hout) as [Hs _].
    by rewrite Hs, lookup_empty in Hj. }
  destruct (place_jobs_tight _ _ _ _ _ _ _ _ j Hplace Hnd)
    as (job & t' & _ & Hs & Hfree); [| |done|].
  - intros k [? Hk]. by rewrite lookup_empty in Hk.
  - intros m u ->%fresh_usage_zero. by left.
  - rewrite Hj in Hs. by injection Hs as -> ->.
Qed.

(** In the scenario job 4 starts at 8, when job 2 completes on machine B. *)
Lemma list_schedule_starts_when_free_witness :
  ∃ s self',
    Backtracking.schedule_jobs Scenario.scenario_scheduler
      = Ret (Backtracking.Schedule s, self')
    ∧ s !! 4 = Some (8, ["A"%string; "B"%string])
    ∧ PlacementProps.starts_when_free
        (Scheduler.jobs Scenario.scenario_scheduler) s 4 8
        ["A"%string; "B"%string].
Proof.
  destruct (Backtracking.schedule_jobs Scenario.scenario_scheduler)
    as [[[|s] self']|e] eqn:E; try by vm_compute in E.
  assert (s !! 4 = Some (8, ["A"%string; "B"%string])) as H4.
  { revert E. vm_compute. intros [= <- _]. reflexivity. }
  exists s, self'. split_and!; [done..|].
  exact (list_schedule_starts_when_free Scenario.scenario_jobs
           Scenario.scenario_dependencies Scenario.scenario_machines
           Scenario.scenario_scheduler s self' scenario_init E 4 8 _ H4).
Defined.

(** X10 (never worse than one job after the other): with no job id given
    twice and no negative processing time, every job of the schedule that
    [schedule_jobs] of Backtracking.py returns completes no later than the
    sum of all processing times, and so does the schedule as a whole. *)
Theorem list_schedule_within_total_time js deps ms self s self' :
  Scheduler.init js deps ms = Ret self →
  Backtracking.schedule_jobs self = Ret (Backtracking.Schedule s, self') →
  NoDup (Scheduler.job_id <$> js) →
  Forall (λ job, 0 <= Scheduler.processing_time job) js →
  (∀ job, job ∈ js →
     ∃ t, s !! Scheduler.job_id job = Some (t, Scheduler.required_machines job)
          ∧ 0 <= t
          ∧ t + Scheduler.processing_time job
            <= foldr Z.add 0 (Scheduler.processing_time <$> js))
  ∧ Backtracking.makespan js s
    <= foldr Z.add 0 (Scheduler.processing_time <$> js).
Proof.
  intros Hinit H Hids Htimes.
  destruct (list_schedule_run _ _ _ _ _ _ Hinit H)
    as (topo & self1 & usage' & _ & Hnd & Hperm & Hplace & _).
  pose proof (init_keys_NoDup _ _ _ _ Hinit) as Hkeys.
  pose proof (init_nonneg_times _ _ _ _ Hinit Htimes) as Hnn.
  destruct (init_fields _ _ _ _ Hinit) as (Hjobs & _).
  rewrite (jobs_distinct js []) in Hjobs by done. rewrite app_nil_l in Hjobs.
  assert (PlacementProps.total_time (Scheduler.jobs self)
          = foldr Z.add 0 (Scheduler.processing_time <$> js)) as Htotal.
  { unfold PlacementProps.total_time. rewrite Hjobs, <- list_fmap_compose. done. }
  assert (∀ job, job ∈ js →
     ∃ t, s !! Scheduler.job_id job = Some (t, Scheduler.required_machines job)
          ∧ 0 <= t
          ∧ t + Scheduler.processing_time job
            <= foldr Z.add 0 (Scheduler.processing_time <$> js)) as Hall.
  { intros job Hjob.
    assert (od_get (Scheduler.jobs self) (Scheduler.job_id job) = Ret job) as Hget.
    { apply od_get_elem; [done|]. rewrite Hjobs.
      apply list_elem_of_fmap. by exists job. }
    assert (Scheduler.job_id job ∈ topo) as Hin.
    { rewrite Hperm. apply (init_keys _ _ _ _ Hinit).
      by apply list_elem_of_fmap_2. }
    destruct (place_jobs_entries _ _ _ _ _ _ _ _ _ Hplace Hnd Hin)
      as (job1 & t & Hjob1 & Hs & _ & Ht & _).
    destruct (place_jobs_bound _ _ Hnn _ _ _ _ _ _ 0 (Scheduler.job_id job)
                Hplace Hnd) as (job2 & t2 & Hjob2 & Hs2 & Hend);
      [lia | by intros m u ->%fresh_usage_zero | done |].
    rewrite Hget in Hjob1, Hjob2. injection Hjob1 as <-. injection Hjob2 as <-.
    rewrite Hs in Hs2. injection Hs2 as <-.
    exists t. split_and!; [done..|].
    rewrite (order_time_total _ _ Hkeys Hperm), Htotal in Hend. lia. }
  split; [done|].
  unfold Backtracking.makespan.
  assert (0 <= foldr Z.add 0 (Scheduler.processing_time <$> js)) as Hpos.
  { clear -Htimes. induction Htimes as [|job js Hjob _ IH]; [done|].
    rewrite fmap_cons. cbn [foldr]. lia. }
  revert Hall Hpos. generalize (foldr Z.add 0 (Scheduler.processing_time <$> js)).
  intros B Hall HB. clear -Hall HB.
  induction js as [|job js IH]; [done|].
  rewrite fmap_cons. cbn [foldr].
  destruct (Hall job) as (t & -> & _ & ?); [apply list_elem_of_here|].
  match goal with
  | |- Z.max _ ?rest <= _ => assert (rest <= B) as Hrest; [|lia]
  end.
  apply IH. intros job' ?. apply Hall. by apply list_elem_of_further.
Qed.

Lemma list_schedule_within_total_time_witness :
  ∃ s self',
    Backtracking.schedule_jobs Scenario.scenario_scheduler
      = Ret (Backtracking.Schedule s, self')
    ∧ Backtracking.makespan Scenario.scenario_jobs s <= 5 + 8 + 3 + 6 + 4.
Proof.
  destruct (Backtracking.schedule_jobs Scenario.scenario_scheduler)
    as [[[|s] self']|e] eqn:E; try by vm_compute in E.
  exists s, self'. split; [done|].
  destruct (list_schedule_within_total_time Scenario.scenario_jobs
           Scenario.scenario_dependencies Scenario.scenario_machines
           Scenario.scenario_scheduler s self' scenario_init E) as [_ Hm].
  - by_compute.
  - repeat constructor; simpl; lia.
  - exact Hm.
Defined.

(** X11 (unknown machines): once an order of the jobs is found,
    [schedule_jobs] of Backtracking.py raises exactly when some job of the
    scheduler requires a machine whose name was not given to the
    constructor, and what it raises is [KeyError] (from
    [machine_usage[machine]]). *)
Theorem schedule_jobs_key_error js deps ms self topo self1 e :
  Scheduler.init js deps ms = Ret self →
  Scheduler.topological_sort self = Ret (topo, self1) →
  topo ≠ [] →
  Backtracking.schedule_jobs self = Raise e
  ↔ e = KeyError
    ∧ ∃ j job m,
        od_get (Scheduler.jobs self) j = Ret job
        ∧ m ∈ Scheduler.required_machines job
        ∧ m ∉ Scheduler.name <$> ms.
Proof.
  intros Hinit Htopo Hne.
  destruct (topological_sort_order _ _ _ _ _ _ Hinit Htopo Hne) as (Hnd & Hperm & _).
  pose proof (topological_sort_fields _ _ _ Htopo) as (Hjobs & Hsched & Hst & Hms).
  assert (Scheduler.fresh_usage self1 = Scheduler.fresh_usage self) as Hfu
    by (unfold Scheduler.fresh_usage; by rewrite Hms).
  assert (∀ e', Backtracking.schedule_jobs self = Raise e' →
            e' = KeyError
            ∧ ∃ j job m,
                od_get (Scheduler.jobs self) j = Ret job
                ∧ m ∈ Scheduler.required_machines job
                ∧ m ∉ Scheduler.name <$> ms) as Hraise.
  { intros e' H. unfold Backtracking.schedule_jobs in H. rewrite Htopo in H.
    cbn [bind] in H. destruct topo as [|j0 topo]; [done|].
    apply bind_raise in H as [H|([[u' s'] st'] & _ & H)]; [|done].
    rewrite Hjobs, Hfu in H.
    apply place_jobs_raise in H as (-> & j & Hj & [Hout|(job & m & Hjob & Hm & Hu)]).
    - exfalso. apply Hout. by rewrite <- Hperm.
    - split; [done|]. exists j, job, m. split_and!; [done..|].
      intros Hin%(init_machines _ _ _ _ m Hinit). rewrite Hu in Hin.
      by destruct Hin. }
  split; [apply Hraise|].
  intros (-> & j & job & m & Hjob & Hm & Hout).
  destruct (Backtracking.schedule_jobs self) as [[r self']|e'] eqn:E.
  - exfalso. unfold Backtracking.schedule_jobs in E. rewrite Htopo in E.
    cbn [bind] in E. destruct topo as [|j0 topo]; [done|].
    apply bind_ret in E as ([[u' s'] st'] & Hplace & _).
    rewrite Hjobs, Hfu in Hplace.
    assert (j ∈ j0 :: topo) as Hin.
    { rewrite Hperm. apply od_get_ret in Hjob.
      apply list_elem_of_fmap. by exists (j, job). }
    destruct (place_jobs_entries _ _ _ _ _ _ _ _ j Hplace Hnd Hin)
      as (job' & t & Hjob' & _ & _ & _ & Hdom).
    rewrite Hjob in Hjob'. injection Hjob' as <-.
    by apply Hout, (init_machines _ _ _ _ m Hinit), Hdom.
  - by destruct (Hraise e' eq_refl) as [-> _].
Qed.

(** Job 2 requires machine B, and only machine A was added. *)
Lemma schedule_jobs_key_error_witness :
  ∃ self,
    Scheduler.init Scenario.apart_jobs Scenario.apart_dependencies
      Examples.machine_a_only = Ret self
    ∧ Backtracking.schedule_jobs self = Raise KeyError.
Proof.
  destruct (Scheduler.init Scenario.apart_jobs Scenario.apart_dependencies
              Examples.machine_a_only) as [self|e] eqn:E; [|by vm_compute in E].
  destruct (Scheduler.topological_sort self) as [[topo self1]|e] eqn:E1.
  - exists self. split; [done|].
    apply (schedule_jobs_key_error Scenario.apart_jobs
             Scenario.apart_dependencies Examples.machine_a_only
             self topo self1 KeyError E E1).
    + intros ->. revert E1. injection E as <-. by vm_compute.
    + split; [done|].
      exists 2, {| Scheduler.job_id := 2; Scheduler.processing_time := 3;
                   Scheduler.required_machines := ["B"%string] |}, "B"%string.
      split_and!.
      * injection E as <-. vm_compute. reflexivity.
      * apply list_elem_of_here.
      * by_compute.
  - exfalso. revert E1. injection E as <-. by vm_compute.
Defined.

(** X28 (when the list scheduler has no schedule to show): building a
    scheduler from the lists entered and asking it for its schedule, as
    [show_gantt_chart] of Backtracking.py does, ends in the "no valid
    schedules" answer exactly when every dependency names a job as its
    successor and either no job was entered or no arrangement of the job
    ids has every dependency going forward. *)
Theorem no_schedule_exactly js deps ms :
  Backtracking.run_list_schedule js deps ms = Ret Backtracking.NoOrder
  ↔ (∀ p q, (p, q) ∈ deps → q ∈ Scheduler.job_id <$> js)
    ∧ ¬ (js ≠ []
         ∧ ∃ order, NoDup order
             ∧ (∀ v, v ∈ order ↔ v ∈ Scheduler.job_id <$> js)
             ∧ OrderProps.topological deps order).
Proof.
  unfold Backtracking.run_list_schedule. split.
  - intros (self & Hinit & H)%bind_ret.
    apply bind_ret in H as ([r self'] & Hs & [= ->]).
    pose proof (init_keys_NoDup _ _ _ _ Hinit) as Hkeys.
    destruct (kahn_run _ _ _ _ Hinit)
      as (topo & d' & _ & _ & _ & _ & _ & _ & _ & _ & Htg).
    split.
    + intros p q Hpq. apply (init_keys _ _ _ _ Hinit). by eapply Htg.
    + intros (Hjs & order & Hnd & Hin & Htopological).
      destruct (kahn_complete js deps ms self order Hinit Hjs)
        as (topo' & self1 & Htopo & Hne & _); [|done|].
      * apply NoDup_Permutation; [done..|]. intros v.
        by rewrite Hin, (init_keys _ _ _ _ Hinit).
      * unfold Backtracking.schedule_jobs in Hs. rewrite Htopo in Hs.
        cbn [bind] in Hs. destruct topo' as [|j0 topo']; [done|].
        by apply bind_ret in Hs as ([[? ?] ?] & _ & ?).
  - intros [Hsucc Hnone].
    destruct (Scheduler.init js deps ms) as [self|e] eqn:Hinit.
    2: { exfalso. apply init_raise in Hinit as (_ & p & q & Hpq & Hq).
         by apply Hq, (Hsucc p q). }
    cbn [bind].
    destruct (kahn_run _ _ _ _ Hinit) as (topo & d' & Hts & _).
    destruct (Scheduler.topological_sort self) as [[order self1]|e] eqn:Htopo;
      [|done]. clear Hts.
    unfold Backtracking.schedule_jobs. rewrite Htopo. cbn [bind].
    destruct order as [|j0 order]; [done|].
    exfalso. apply Hnone.
    destruct (topological_sort_order _ _ _ _ _ _ Hinit Htopo)
      as (Hnd & Hperm & Hord); [done|].
    split.
    + intros ->. destruct (init_fields _ _ _ _ Hinit) as (Hjobs & _).
      rewrite Hjobs in Hperm. by apply Permutation_nil_r in Hperm.
    + exists (j0 :: order). split_and!; [done| |done].
      intros v. by rewrite Hperm, (init_keys _ _ _ _ Hinit).
Qed.

(** * GeneticAlgorithm.py: the evaluator and the populations *)

Section evaluator_facts.
Import Scheduler SchedulerProps GeneticAlgorithm.

(** When the evaluator goes through the whole order it computes the machine
    usage that the placement loop of [schedule_jobs] computes. *)
Lemma evaluate_loop_place self order :
  ∀ usage (st : gmap Z Z) usage',
    evaluate_loop self order usage st = Ret (Some usage') →
    ∀ sched, ∃ sched' st',
      place_jobs (jobs self) order usage sched st = Ret (usage', sched', st').
Proof.
  induction order as [|j order IH]; intros usage st usage' H sched; simpl in H.
  { injection H as <-. simpl. eauto. }
  apply bind_ret in H as (job & Hjob & H).
  destruct (dependencies_placed (graph self) j st); [|done].
  apply bind_ret in H as (t & Ht & H).
  simpl. rewrite Hjob. cbn [bind]. rewrite Ht. cbn [bind].
  by eapply IH.
Qed.

Lemma foldl_max_spec (l : list Z) :
  ∀ x, (foldl Z.max x l = x ∨ foldl Z.max x l ∈ l)
       ∧ x <= foldl Z.max x l
       ∧ Forall (λ y, y <= foldl Z.max x l) l.
Proof.
  induction l as [|y l IH]; intros x; cbn [foldl].
  - split_and!; [by left | lia | constructor].
  - destruct (IH (Z.max x y)) as (Hin & Hle & Hall). split_and!.
    + destruct Hin as [Heq|Hin]; [|right; by apply list_elem_of_further].
      rewrite Heq. destruct (Z.max_spec x y) as [[_ ->]|[_ ->]]; [|by left].
      right. apply list_elem_of_here.
    + lia.
    + constructor; [lia | done].
Qed.

Lemma py_max_ret (l : list Z) (m : Z) :
  py_max l = Ret m → m ∈ l ∧ Forall (λ y, y <= m) l.
Proof.
  destruct l as [|x l]; [done|]. simpl. intros [= <-].
  destruct (foldl_max_spec l x) as (Hin & Hle & Hall). split.
  - destruct Hin as [->|?]; [apply list_elem_of_here | by apply list_elem_of_further].
  - by constructor.
Qed.

End evaluator_facts.

(** X12 (the evaluator rejects the orders that respect the dependencies):
    [evaluate_schedule] looks up [self.graph[job_id]], the successors of
    the job, so on a freshly constructed scheduler with at least one
    dependency it never returns a finite makespan for an order without
    repetition in which every predecessor comes before its successor: it
    returns [float('inf')] whenever it returns. *)
Theorem evaluator_rejects_topological_orders js deps ms self order f :
  Scheduler.init js deps ms = Ret self →
  deps ≠ [] →
  NoDup order →
  OrderProps.topological deps order →
  GeneticAlgorithm.evaluate_schedule self order = Ret f →
  f = GeneticAlgorithm.Infinity.
Proof.
  intros Hinit Hdeps Hnd Htopological Hf.
  destruct f as [m|]; [exfalso|done].
  pose proof (evaluate_schedule_ret _ _ _ Hf) as Hall. simpl in Hall.
  destruct (kahn_run _ _ _ _ Hinit)
    as (topo & d' & _ & _ & _ & _ & _ & _ & _ & Hg & _).
  destruct deps as [|[p q] deps']; [done|].
  destruct (Htopological p q) as (i & j & Hij & Hi & Hj); [apply list_elem_of_here|].
  assert (q ∈ take i order) as Hq.
  { apply (Hall (take i order) p (drop (S i) order) q).
    - symmetry. by apply take_drop_middle.
    - rewrite Hg. apply list_elem_of_fmap. exists (p, q). split; [done|].
      apply list_elem_of_filter. split; [done | apply list_elem_of_here]. }
  apply list_elem_of_lookup_1 in Hq as [k Hk].
  apply lookup_take_Some in Hk as [Hk Hlt].
  pose proof (NoDup_lookup _ _ _ _ Hnd Hk Hj). lia.
Qed.

(** The order [1, 2, 3, 4, 5] that [topological_sort] returns for the
    scenario is scored infinity. *)
Lemma evaluator_rejects_topological_orders_witness :
  GeneticAlgorithm.evaluate_schedule Scenario.scenario_scheduler [1; 2; 3; 4; 5]
  = Ret GeneticAlgorithm.Infinity.
Proof.
  destruct (GeneticAlgorithm.evaluate_schedule Scenario.scenario_scheduler
              [1; 2; 3; 4; 5]) as [f|e] eqn:E; [|by vm_compute in E].
  f_equal.
  apply (evaluator_rejects_topological_orders Scenario.scenario_jobs
           Scenario.scenario_dependencies Scenario.scenario_machines
           Scenario.scenario_scheduler [1; 2; 3; 4; 5] f scenario_init).
  - done.
  - by_compute.
  - intros p q Hpq. unfold Scenario.scenario_dependencies in Hpq.
    repeat (apply elem_of_cons in Hpq as [[= -> ->]|Hpq]);
      [exists 0%nat, 3%nat | exists 1%nat, 4%nat
       | exists 2%nat, 4%nat | by apply elem_of_nil in Hpq];
      (split; [lia | by split]).
  - exact E.
Defined.

(** X13 (a finite fitness is the makespan of the placement): when
    [evaluate_schedule] returns a finite value for an order without
    repetition, [schedule_jobs(order)] of GeneticAlgorithm.py places the
    order without raising; with no negative processing time, every placed
    job that requires a machine completes by that value, and the value is 0
    or the completion time of a placed job. *)
Theorem evaluate_schedule_is_makespan js deps ms self order m :
  Scheduler.init js deps ms = Ret self →
  NoDup order →
  Forall (λ job, 0 <= Scheduler.processing_time job) js →
  GeneticAlgorithm.evaluate_schedule self order = Ret (GeneticAlgorithm.Finite m) →
  ∃ self',
    GeneticAlgorithm.schedule_jobs self order = Ret self'
    ∧ (∀ j t rm job,
         Scheduler.schedule self' !! j = Some (t, rm) →
         od_get (Scheduler.jobs self) j = Ret job → rm ≠ [] →
         t + Scheduler.processing_time job <= m)
    ∧ (m = 0
       ∨ ∃ j t rm job,
           Scheduler.schedule self' !! j = Some (t, rm)
           ∧ od_get (Scheduler.jobs self) j = Ret job
           ∧ t + Scheduler.processing_time job = m).
Proof.
  intros Hinit Hnd Htimes H.
  pose proof (init_nonneg_times _ _ _ _ Hinit Htimes) as Hnn.
  destruct (init_fields _ _ _ _ Hinit) as (_ & Hs0 & Hst0).
  unfold GeneticAlgorithm.evaluate_schedule in H.
  apply bind_ret in H as ([usage'|] & Hloop & H); [|done].
  apply bind_ret in H as (m' & Hmax & [= ->]).
  destruct (evaluate_loop_place _ _ _ _ _ Hloop ∅) as (sched' & st' & Hplace).
  unfold GeneticAlgorithm.schedule_jobs. rewrite Hs0, Hst0, Hplace. cbn [bind].
  eexists. split; [done|]. cbn [Scheduler.schedule Scheduler.set_schedule].
  apply py_max_ret in Hmax as [Hin Hall]. rewrite Forall_forall in Hall.
  split.
  - intros j t rm job Hj Hjob Hrm.
    destruct rm as [|mach rm]; [done|].
    destruct (place_jobs_exclusive _ _ Hnn _ _ _ _ _ _ Hplace) as [Hpb _].
    + intros ? ? ? ? ? Hk. by rewrite lookup_empty in Hk.
    + intros ? ? ? ? ? ? ? ? ? ? Hk. by rewrite lookup_empty in Hk.
    + destruct (Hpb j t (mach :: rm) job mach Hj Hjob) as (u & Hu & Hle);
        [apply list_elem_of_here|].
      assert (u <= m); [|lia]. apply Hall.
      apply list_elem_of_fmap. exists (mach, u). split; [done|].
      by apply elem_of_map_to_list.
  - apply list_elem_of_fmap in Hin as ([mach u] & -> & Hu%elem_of_map_to_list).
    simpl.
    destruct (place_jobs_busy _ _ _ _ _ _ _ _ Hplace Hnd) with (m := mach) (u := u)
      as [->|(k & tk & mk & jobk & Hk & Hjobk & _ & Hend)]; [| |done|by left|].
    + intros k [? Hk]. by rewrite lookup_empty in Hk.
    + intros mch v ->%fresh_usage_zero. by left.
    + right. by exists k, tk, mk, jobk.
Qed.

(** On the scenario the reversed order [5, 4, 3, 2, 1] is scored 18. *)
Lemma evaluate_schedule_is_makespan_witness :
  ∃ self',
    GeneticAlgorithm.schedule_jobs Scenario.scenario_scheduler [5; 4; 3; 2; 1]
      = Ret self'
    ∧ (∀ j t rm job,
         Scheduler.schedule self' !! j = Some (t, rm) →
         od_get (Scheduler.jobs Scenario.scenario_scheduler) j = Ret job →
         rm ≠ [] →
         t + Scheduler.processing_time job <= 18)
    ∧ (18 = 0
       ∨ ∃ j t rm job,
           Scheduler.schedule self' !! j = Some (t, rm)
           ∧ od_get (Scheduler.jobs Scenario.scenario_scheduler) j = Ret job
           ∧ t + Scheduler.processing_time job = 18).
Proof.
  apply (evaluate_schedule_is_makespan Scenario.scenario_jobs
           Scenario.scenario_dependencies Scenario.scenario_machines
           Scenario.scenario_scheduler [5; 4; 3; 2; 1] 18 scenario_init).
  - by_compute.
  - repeat constructor; simpl; lia.
  - vm_compute. reflexivity.
Defined.

(** * GeneticAlgorithm.py: the individuals and the exceptions *)

Section swap_facts.
Context {A : Type}.

(** [l[i], l[j] = l[j], l[i]] rearranges the list. *)
Lemma swap_perm (l : list A) (i j : nat) l' : swap l i j = Ret l' → l' ≡ₚ l.
Proof.
  unfold swap, list_get. intros H.
  destruct (l !! j) as [x|] eqn:Hx; [|done]. simpl in H.
  destruct (l !! i) as [y|] eqn:Hy; [|done]. simpl in H. injection H as <-.
  pose proof (lookup_lt_Some _ _ _ Hx). pose proof (lookup_lt_Some _ _ _ Hy).
  apply Permutation_inj. split; [by rewrite !length_insert|].
  exists (λ k, if decide (k = j) then i else if decide (k = i) then j else k).
  split.
  - intros a b. repeat case_decide; intros; subst; congruence.
  - intros k. destruct (decide (k = j)) as [->|Hkj].
    + rewrite list_lookup_insert_eq by (by rewrite length_insert). done.
    + rewrite list_lookup_insert_ne by done. destruct (decide (k = i)) as [->|Hki].
      * rewrite list_lookup_insert_eq by done. done.
      * by rewrite list_lookup_insert_ne.
Qed.

Lemma swap_raise (l : list A) (i j : nat) e :
  swap l i j = Raise e →
  e = IndexError ∧ ((length l ≤ i)%nat ∨ (length l ≤ j)%nat).
Proof.
  unfold swap, list_get. intros H.
  destruct (l !! j) as [x|] eqn:Hx; simpl in H.
  - destruct (l !! i) as [y|] eqn:Hy; simpl in H; [done|].
    injection H as <-. split; [done|]. left. by apply lookup_ge_None.
  - injection H as <-. split; [done|]. right. by apply lookup_ge_None.
Qed.

Lemma map_outcome_raise {B : Type} (f : A → outcome B) (l : list A) e :
  map_outcome f l = Raise e → ∃ x, x ∈ l ∧ f x = Raise e.
Proof.
  induction l as [|x l IH]; simpl; [done|].
  intros [H|(y & _ & H)]%bind_raise.
  - exists x. split; [apply list_elem_of_here | done].
  - apply bind_raise in H as [H|(ys & _ & H)]; [|done].
    destruct (IH H) as (x' & ? & ?). exists x'.
    split; [by apply list_elem_of_further | done].
Qed.

Lemma repeat_rand_raise (f : rand A) (n : nat) :
  ∀ t e, repeat_rand n f t = Raise e → ∃ t0, f t0 = Raise e.
Proof.
  induction n as [|n IH]; intros t e H; simpl in H; [done|].
  apply rbind_raise in H as [H|(x & t1 & _ & H)]; [eauto|].
  apply rbind_raise in H as [H|(xs & t2 & _ & H)]; [by eapply IH | done].
Qed.

End swap_facts.

Section genetic_permutations.
Import Scheduler GeneticAlgorithm.

Variable self : JobScheduler.
Hypothesis keys_NoDup : NoDup (od_keys (jobs self)).
Variable population_size : Z.
Variable rate_num : Z.
Variable rate_den : positive.

(** Every individual is an arrangement of the job ids. *)
Definition permutations (population : list (list Z)) : Prop :=
  Forall (λ ind, ind ≡ₚ od_keys (jobs self)) population.

Lemma permutation_length (ind : list Z) :
  ind ≡ₚ od_keys (jobs self) → length ind = length (jobs self).
Proof. intros ->. unfold od_keys. by rewrite length_fmap. Qed.

Lemma initial_population_perm t population t' :
  initial_population self population_size t = Ret (population, t') →
  permutations population.
Proof using Type.
  unfold initial_population. intros H.
  eapply (repeat_rand_ret (λ ind, ind ≡ₚ od_keys (jobs self))) in H as [_ H];
    [exact H|].
  intros t0 x t0' Hx. apply (random_sample_all _ t0 x t0').
  enough (length (od_keys (jobs self)) = length (jobs self)) as -> by done.
  unfold od_keys. by rewrite length_fmap.
Qed.

Lemma crossover_step_perm population t child t' :
  permutations population →
  crossover_step self population t = Ret (child, t') →
  child ≡ₚ od_keys (jobs self).
Proof using keys_NoDup.
  intros Hpop H. unfold crossover_step in H.
  apply rbind_ret in H as (parents & t1 & Hparents & H).
  destruct parents as [|parent1 [|parent2 [|? ?]]]; try done.
  apply rbind_ret in H as (point & t2 & _ & [-> _]%rret_ret).
  apply random_sample_subseteq in Hparents.
  unfold permutations in Hpop. rewrite Forall_forall in Hpop.
  apply crossover_child_perm; [done| |]; apply Hpop, Hparents.
  - apply list_elem_of_here.
  - apply list_elem_of_further, list_elem_of_here.
Qed.

Lemma crossover_loop_perm population (fuel : nat) :
  permutations population →
  ∀ new_population t new_population' t',
    permutations new_population →
    crossover_loop fuel self population population_size new_population t
      = Ret (new_population', t') →
    permutations new_population'.
Proof using keys_NoDup.
  intros Hpop. induction fuel as [|fuel IH]; intros new t new' t' Hnew H;
    simpl in H;
    destruct (decide (Z.of_nat (length new) < population_size)) as [Hlt|Hge];
    try done; try by apply rret_ret in H as [-> _].
  apply rbind_ret in H as (child & t1 & Hchild & H).
  eapply IH; [|exact H]. apply Forall_app. split; [done|].
  apply Forall_singleton.
  eapply crossover_step_perm; [exact Hpop | exact Hchild].
Qed.

Lemma mutate_perm individual t individual' t' :
  mutate self rate_num rate_den individual t = Ret (individual', t') →
  individual' ≡ₚ individual.
Proof using Type.
  unfold mutate. intros (hit & t1 & _ & H)%rbind_ret.
  destruct hit; [|by apply rret_ret in H as [-> _]].
  apply rbind_ret in H as (idx & t2 & _ & H).
  destruct idx as [|idx1 [|idx2 [|? ?]]]; try done.
  apply lift_ret in H as [H _]. by eapply swap_perm.
Qed.

Lemma mutation_loop_perm new_population :
  ∀ t mutated t',
    permutations new_population →
    mutation_loop self rate_num rate_den new_population t = Ret (mutated, t') →
    permutations mutated.
Proof using Type.
  induction new_population as [|individual rest IH]; intros t mutated t' Hnew H;
    simpl in H.
  - by apply rret_ret in H as [-> _].
  - apply Forall_cons in Hnew as [Hind Hrest].
    apply rbind_ret in H as (individual' & t1 & Hm & H).
    apply rbind_ret in H as (rest' & t2 & Hrest' & [-> _]%rret_ret).
    constructor; [|by eapply IH].
    by rewrite (mutate_perm _ _ _ _ Hm).
Qed.

Lemma survivors_perm population (scores : list fitness) (k : Z) :
  permutations population →
  permutations (slice_to (sorted scored_lt (zip scores population)).*2 k).
Proof using Type.
  unfold permutations. rewrite !Forall_forall. intros Hpop ind Hind.
  apply slice_to_subseteq in Hind.
  apply list_elem_of_fmap in Hind as ([f ind'] & -> & Hin).
  rewrite sorted_perm in Hin. apply elem_of_zip_r in Hin. by apply Hpop.
Qed.

Lemma generation_perm population t population' t' :
  permutations population →
  generation self population_size rate_num rate_den population t
    = Ret (population', t') →
  permutations population'.
Proof using keys_NoDup.
  intros Hpop. unfold generation. intros (scores & t1 & _ & H)%rbind_ret.
  apply rbind_ret in H as (new_population & t2 & Hloop & H).
  eapply mutation_loop_perm; [|exact H].
  eapply crossover_loop_perm; [|constructor|exact Hloop].
  by apply survivors_perm.
Qed.

Lemma generations_trace_perm (rounds : nat) :
  ∀ population t trace t',
    permutations population →
    generations_trace rounds self population_size rate_num rate_den population t
      = Ret (trace, t') →
    Forall permutations trace.
Proof using keys_NoDup.
  induction rounds as [|rounds IH]; intros population t trace t' Hpop H;
    simpl in H.
  - apply rret_ret in H as [-> _]. by constructor.
  - apply rbind_ret in H as (population' & t1 & Hgen & H).
    apply rbind_ret in H as (later & t2 & Hlater & [-> _]%rret_ret).
    constructor; [done|]. eapply IH; [|exact Hlater]. by eapply generation_perm.
Qed.

Lemma last_Forall {B : Type} (P : B → Prop) (l : list B) (d : B) :
  Forall P l → P d → P (List.last l d).
Proof.
  induction 1 as [|x l Hx Hl IH]; intros Hd; [done|].
  destruct l as [|y l]; [done|]. by apply IH.
Qed.

(** The exceptions. *)

Lemma evaluate_schedule_raise order e :
  evaluate_schedule self order = Raise e → e = KeyError ∨ e = ValueError.
Proof using Type.
  unfold evaluate_schedule. intros [H|(r & _ & H)]%bind_raise.
  - left. revert H. generalize (fresh_usage self) (∅ : gmap Z Z).
    induction order as [|j order IH]; intros usage st H; simpl in H; [done|].
    apply bind_raise in H as [[-> _]%od_get_raise|(job & _ & H)]; [done|].
    destruct (dependencies_placed (graph self) j st); [|done].
    apply bind_raise in H as [[-> _]%earliest_start_raise|(t & _ & H)]; [done|].
    by eapply IH.
  - destruct r as [usage|]; [|done].
    apply bind_raise in H as [H|(m & _ & H)]; [|done].
    right. unfold py_max in H. destruct (_.*2); [by injection H | done].
Qed.

Lemma random_below_ret (num : Z) (den : positive) t :
  ∃ hit t', random_below num den t = Ret (hit, t').
Proof. unfold random_below, rbind, draw. destruct t; simpl; eauto. Qed.

Lemma mutate_raise individual t e :
  length individual = length (jobs self) →
  mutate self rate_num rate_den individual t = Raise e → e = ValueError.
Proof using Type.
  intros Hlen. unfold mutate. intros [H|(hit & t1 & _ & H)]%rbind_raise.
  { destruct (random_below_ret rate_num rate_den t) as (hit & t1 & Hhit).
    by rewrite Hhit in H. }
  destruct hit; [|done].
  apply rbind_raise in H as [H|(idx & t2 & Hidx & H)];
    [by eapply random_sample_raise|].
  destruct idx as [|idx1 [|idx2 [|? ?]]]; try by inversion H.
  apply random_sample_subseteq in Hidx.
  unfold lift in H. destruct (swap individual idx1 idx2) as [l|e'] eqn:E; [done|].
  injection H as <-. exfalso. apply swap_raise in E as [_ Hout].
  assert (idx1 ∈ seq 0 (length (jobs self))) as H1
    by apply Hidx, list_elem_of_here.
  assert (idx2 ∈ seq 0 (length (jobs self))) as H2
    by apply Hidx, list_elem_of_further, list_elem_of_here.
  apply elem_of_seq in H1, H2. lia.
Qed.

Lemma mutation_loop_raise new_population :
  ∀ t e,
    permutations new_population →
    mutation_loop self rate_num rate_den new_population t = Raise e →
    e = ValueError.
Proof using Type.
  induction new_population as [|individual rest IH]; intros t e Hnew H;
    simpl in H; [done|].
  apply Forall_cons in Hnew as [Hind Hrest].
  apply rbind_raise in H as [H|(individual' & t1 & _ & H)].
  { eapply mutate_raise; [|exact H]. by apply permutation_length. }
  apply rbind_raise in H as [H|(rest' & t2 & _ & H)]; [by eapply IH | done].
Qed.

Lemma lift_raise {B : Type} (o : outcome B) t e :
  lift o t = Raise e → o = Raise e.
Proof. unfold lift. destruct o; [done | by intros [= ->]]. Qed.

Lemma scores_raise population t e :
  lift (map_outcome (evaluate_schedule self) population) t = Raise e →
  e = KeyError ∨ e = ValueError.
Proof using Type.
  intros (x & _ & H)%lift_raise%map_outcome_raise.
  by eapply evaluate_schedule_raise.
Qed.

Lemma generation_raise population t e :
  permutations population →
  generation self population_size rate_num rate_den population t = Raise e →
  e = KeyError ∨ e = ValueError.
Proof using keys_NoDup.
  intros Hpop. unfold generation.
  intros [H|(scores & t1 & _ & H)]%rbind_raise; [by eapply scores_raise|].
  right. apply rbind_raise in H as [H|(new_population & t2 & Hloop & H)].
  - eapply crossover_loop_fuel; [|exact H]. simpl. lia.
  - eapply mutation_loop_raise; [|exact H].
    eapply crossover_loop_perm; [|constructor|exact Hloop].
    by apply survivors_perm.
Qed.

Lemma generations_trace_raise (rounds : nat) :
  ∀ population t e,
    permutations population →
    generations_trace rounds self population_size rate_num rate_den population t
      = Raise e →
    e = KeyError ∨ e = ValueError.
Proof using keys_NoDup.
  induction rounds as [|rounds IH]; intros population t e Hpop H;
    simpl in H; [done|].
  apply rbind_raise in H as [H|(population' & t1 & Hgen & H)];
    [by eapply generation_raise|].
  apply rbind_raise in H as [H|(later & t2 & _ & H)]; [|done].
  eapply IH; [|exact H]. by eapply generation_perm.
Qed.

Lemma genetic_algorithm_raise generations t e :
  genetic_algorithm self population_size generations rate_num rate_den t
    = Raise e →
  e = KeyError ∨ e = ValueError.
Proof using keys_NoDup.
  unfold genetic_algorithm.
  intros [H|(population & t1 & Hinit & H)]%rbind_raise.
  { right. apply repeat_rand_raise in H as [t0 H]. by eapply random_sample_raise. }
  apply initial_population_perm in Hinit.
  apply rbind_raise in H as [H|(trace & t2 & _ & H)];
    [by eapply generations_trace_raise|].
  apply rbind_raise in H as [H|(scores & t3 & _ & H)]; [by eapply scores_raise|].
  apply rbind_raise in H as [H|(best & t4 & _ & H)].
  { right. apply lift_raise in H. unfold py_min in H.
    destruct (zip _ _); [by injection H | done]. }
  apply rbind_raise in H as [H|(mk & t5 & _ & H)].
  { apply lift_raise in H. by eapply evaluate_schedule_raise. }
  apply rbind_raise in H as [H|(self1 & t6 & _ & H)]; [|done].
  left. apply lift_raise in H. unfold schedule_jobs in H.
  apply bind_raise in H as [H|([[? ?] ?] & _ & H)]; [|done].
  by apply place_jobs_raise in H as [-> _].
Qed.

Lemma genetic_algorithm_perm generations t best makespan self' trace t' :
  genetic_algorithm self population_size generations rate_num rate_den t
    = Ret (best, makespan, self', trace, t') →
  Forall permutations trace
  ∧ best ≡ₚ od_keys (jobs self)
  ∧ schedule_jobs self best = Ret self'.
Proof using keys_NoDup.
  unfold genetic_algorithm. intros (population & t1 & Hinit & H)%rbind_ret.
  apply initial_population_perm in Hinit.
  apply rbind_ret in H as (trace0 & t2 & Htrace & H).
  apply generations_trace_perm in Htrace; [|done].
  apply rbind_ret in H as (scores & t3 & _ & H).
  apply rbind_ret in H as (best0 & t4 & [Hbest _]%lift_ret & H).
  apply rbind_ret in H as (mk & t5 & _ & H).
  apply rbind_ret in H as (self1 & t6 & [Hs _]%lift_ret & H).
  apply rret_ret in H as [[= <- <- <- <-] _].
  split_and!; [done| |done].
  apply py_min_elem in Hbest.
  apply list_elem_of_fmap in Hbest as ([f ind] & -> & Hin%elem_of_zip_r).
  pose proof (last_Forall permutations _ population Htrace Hinit) as Hlast.
  unfold permutations in Hlast. rewrite Forall_forall in Hlast. by apply Hlast.
Qed.

End genetic_permutations.

(** X14 (the genetic algorithm handles arrangements of the job ids only):
    in a run of [genetic_algorithm] of GeneticAlgorithm.py on a freshly
    constructed scheduler, every individual of every population is an
    arrangement of the job ids with none missing and none twice, so is the
    best order it returns, and the schedule it stores has an entry for
    exactly the job ids. *)
Theorem genetic_individuals_are_permutations js deps ms self population_size
    generations rate_num rate_den tape best makespan self' trace tape' :
  Scheduler.init js deps ms = Ret self →
  GeneticAlgorithm.genetic_algorithm self population_size generations
    rate_num rate_den tape = Ret (best, makespan, self', trace, tape') →
  Forall (Forall (λ ind, ind ≡ₚ od_keys (Scheduler.jobs self))) trace
  ∧ best ≡ₚ od_keys (Scheduler.jobs self)
  ∧ ∀ j, j ∈ Scheduler.job_id <$> js ↔ is_Some (Scheduler.schedule self' !! j).
Proof.
  intros Hinit H.
  pose proof (init_keys_NoDup _ _ _ _ Hinit) as Hkeys.
  destruct (genetic_algorithm_perm _ Hkeys _ _ _ _ _ _ _ _ _ _ H)
    as (Htrace & Hbest & Hs).
  split_and!; [exact Htrace | done |].
  intros j. rewrite <- (init_keys _ _ _ _ Hinit j), <- Hbest.
  unfold GeneticAlgorithm.schedule_jobs in Hs.
  apply bind_ret in Hs as ([[usage' sched'] starts'] & Hplace & [= <-]).
  cbn [Scheduler.schedule Scheduler.set_schedule].
  destruct (init_fields _ _ _ _ Hinit) as (_ & Hs0 & _). rewrite Hs0 in Hplace.
  assert (NoDup best) as Hnd by (by rewrite Hbest).
  split.
  - intros Hj.
    destruct (place_jobs_entries _ _ _ _ _ _ _ _ j Hplace Hnd Hj)
      as (job & t & _ & -> & _). eauto.
  - intros Hj. destruct (decide (j ∈ best)) as [|Hout]; [done|].
    destruct (place_jobs_untouched_starts _ _ _ _ _ _ _ _ j Hplace Hout) as [Hu _].
    rewrite Hu, lookup_empty in Hj. by destruct Hj.
Qed.

Lemma genetic_individuals_are_permutations_witness :
  ∃ best makespan self' trace tape',
    GeneticAlgorithm.genetic_algorithm Scenario.scenario_scheduler 4 2 1 10
      [3; 1; 4; 1; 5; 9; 2; 6]%N = Ret (best, makespan, self', trace, tape')
    ∧ Forall (Forall (λ ind, ind ≡ₚ [1; 2; 3; 4; 5])) trace
    ∧ best ≡ₚ [1; 2; 3; 4; 5]
    ∧ ∀ j, j ∈ [1; 2; 3; 4; 5] ↔ is_Some (Scheduler.schedule self' !! j).
Proof.
  destruct (GeneticAlgorithm.genetic_algorithm Scenario.scenario_scheduler 4 2 1 10
              [3; 1; 4; 1; 5; 9; 2; 6]%N)
    as [[[[[best makespan] self'] trace] tape']|e] eqn:E; [|by vm_compute in E].
  exists best, makespan, self', trace, tape'. split; [done|].
  exact (genetic_individuals_are_permutations Scenario.scenario_jobs
           Scenario.scenario_dependencies Scenario.scenario_machines
           Scenario.scenario_scheduler 4 2 1 10 [3; 1; 4; 1; 5; 9; 2; 6]%N
           best makespan self' trace tape' scenario_init E).
Defined.

(** X15 (the exceptions of the genetic algorithm): on a freshly
    constructed scheduler [genetic_algorithm] of GeneticAlgorithm.py raises
    nothing but [KeyError] (a required machine that was never added) and
    [ValueError] (from [random.sample], [random.randint], [max] or [min]);
    the two positions a mutation swaps are always inside the individual,
    and the [while] loop of the crossover ends. *)
Theorem genetic_algorithm_exceptions js deps ms self population_size
    generations rate_num rate_den tape e :
  Scheduler.init js deps ms = Ret self →
  GeneticAlgorithm.genetic_algorithm self population_size generations
    rate_num rate_den tape = Raise e →
  e = KeyError ∨ e = ValueError.
Proof.
  intros Hinit H. eapply genetic_algorithm_raise; [|exact H].
  by eapply init_keys_NoDup.
Qed.

(** With a population of two the survivors are one individual, and
    [random.sample(population, 2)] raises. *)
Lemma genetic_algorithm_exceptions_witness :
  ∃ e,
    GeneticAlgorithm.genetic_algorithm Scenario.scenario_scheduler 2 1 1 10 []
      = Raise e
    ∧ (e = KeyError ∨ e = ValueError).
Proof.
  destruct (GeneticAlgorithm.genetic_algorithm Scenario.scenario_scheduler 2 1 1 10 [])
    as [r|e] eqn:E; [by vm_compute in E|].
  exists e. split; [done|].
  exact (genetic_algorithm_exceptions Scenario.scenario_jobs
           Scenario.scenario_dependencies Scenario.scenario_machines
           Scenario.scenario_scheduler 2 1 1 10 [] e scenario_init E).
Defined.

(** X16 (inputs too small for the genetic algorithm): when at least one
    generation is run with a population of one to three individuals, or
    with a positive population size on a scheduler of fewer than two jobs,
    [genetic_algorithm] of GeneticAlgorithm.py never returns: every run
    raises, [ValueError] from [random.sample(population, 2)] or
    [random.randint(1, len(self.jobs) - 1)] unless an evaluation has raised
    before. *)
Theorem genetic_algorithm_small_inputs js deps ms self population_size
    generations rate_num rate_den tape :
  Scheduler.init js deps ms = Ret self →
  1 <= generations →
  1 <= population_size →
  population_size <= 3 ∨ (length (Scheduler.jobs self) ≤ 1)%nat →
  ∃ e,
    GeneticAlgorithm.genetic_algorithm self population_size generations
      rate_num rate_den tape = Raise e
    ∧ (e = KeyError ∨ e = ValueError).
Proof.
  intros Hinit Hgens Hps Hsmall.
  pose proof (init_keys_NoDup _ _ _ _ Hinit) as Hkeys.
  destruct (GeneticAlgorithm.genetic_algorithm self population_size generations
              rate_num rate_den tape) as [[r tape']|e] eqn:E.
  2: { exists e. split; [done|]. by eapply genetic_algorithm_raise. }
  exfalso. unfold GeneticAlgorithm.genetic_algorithm in E.
  apply rbind_ret in E as (population & t1 & _ & E).
  apply rbind_ret in E as (trace & t2 & Htrace & _).
  destruct (Z.to_nat generations) as [|rounds] eqn:Hrounds; [lia|].
  simpl in Htrace.
  apply rbind_ret in Htrace as (population' & t3 & Hgen & _).
  unfold GeneticAlgorithm.generation in Hgen.
  apply rbind_ret in Hgen as (scores & t4 & _ & Hgen).
  apply rbind_ret in Hgen as (new_population & t5 & Hloop & _).
  destruct (Z.to_nat population_size) as [|fuel] eqn:Hfuel; [lia|].
  simpl in Hloop. rewrite decide_True in Hloop by lia.
  apply rbind_ret in Hloop as (child & t6 & Hstep & _).
  unfold GeneticAlgorithm.crossover_step in Hstep.
  apply rbind_ret in Hstep as (parents & t7 & Hparents & Hstep).
  destruct Hsmall as [Hsmall|Hsmall].
  - unfold random_sample in Hparents.
    rewrite decide_False in Hparents; [done|].
    unfold slice_to. assert (0 <= population_size / 2 < 2) as Hhalf.
    { split; [apply Z.div_pos; lia | apply Z.div_lt_upper_bound; lia]. }
    rewrite decide_False by lia. rewrite length_take. lia.
  - apply random_sample_ret in Hparents as [Hlen _].
    destruct parents as [|parent1 [|parent2 [|? ?]]]; try done.
    apply rbind_ret in Hstep as (point & t8 & Hpoint & _).
    unfold randint in Hpoint. by rewrite decide_True in Hpoint by lia.
Qed.

(** One job only: [random.randint(1, 0)] raises. *)
Lemma genetic_algorithm_small_inputs_witness :
  ∃ self e,
    Scheduler.init [ {| Scheduler.job_id := 1; Scheduler.processing_time := 5;
                        Scheduler.required_machines := ["A"%string] |} ]
      [] Scenario.apart_machines = Ret self
    ∧ GeneticAlgorithm.genetic_algorithm self 50 100 1 10 [] = Raise e
    ∧ (e = KeyError ∨ e = ValueError).
Proof.
  destruct (Scheduler.init
              [ {| Scheduler.job_id := 1; Scheduler.processing_time := 5;
                   Scheduler.required_machines := ["A"%string] |} ]
              [] Scenario.apart_machines) as [self|e0] eqn:E;
    [|by vm_compute in E].
  destruct (genetic_algorithm_small_inputs _ _ _ self 50 100 1 10 [] E)
    as (e & He & Hcase); [lia | lia | |by exists self, e].
  right. injection E as <-. vm_compute. lia.
Defined.

(** * main.py: [fitness] and [create_schedule] *)

Section main_timelines.
Import Main MainProps TimelineProps.

Implicit Types (rows schedule individual : list job) (machines : list Z).

(** [{m: 0 for m in machines}] *)
Lemma lookup_zero_times machines m :
  foldl (λ d m, <[m := 0]> d) (∅ : gmap Z Z) machines !! m
  = if decide (m ∈ machines) then Some 0 else None.
Proof.
  assert (∀ d : gmap Z Z,
    foldl (λ d m, <[m := 0]> d) d machines !! m
    = if decide (m ∈ machines) then Some 0 else d !! m) as H.
  { induction machines as [|x machines IH]; intros d; cbn [foldl].
    - case_decide as Hin; [by apply elem_of_nil in Hin | done].
    - rewrite IH, lookup_insert. destruct (decide (m ∈ machines)) as [Hin|Hout].
      + by rewrite decide_True by (by apply list_elem_of_further).
      + destruct (decide (x = m)) as [->|Hne].
        * by rewrite decide_True by apply list_elem_of_here.
        * rewrite decide_False; [done|]. intros [?|?]%elem_of_cons; congruence. }
  by rewrite H.
Qed.

Lemma load_cons job_id op machine pt rows m :
  load ((job_id, op, machine, pt) :: rows) m
  = (if decide (machine = m) then pt else 0) + load rows m.
Proof.
  unfold load, on_machine. rewrite filter_cons. unfold job_machine at 1. simpl.
  destruct (decide (machine = m)); [rewrite fmap_cons; reflexivity | lia].
Qed.

Lemma load_app rows1 rows2 m : load (rows1 ++ rows2) m = load rows1 m + load rows2 m.
Proof.
  induction rows1 as [|[[[job_id op] machine] pt] rows1 IH]; [done|].
  rewrite <- app_comm_cons, !load_cons, IH. lia.
Qed.

Lemma add_times_ret schedule :
  ∀ (machine_times machine_times' : gmap Z Z),
    add_times schedule machine_times = Ret machine_times' →
    (∀ m, machine_times' !! m = (λ n, n + load schedule m) <$> machine_times !! m)
    ∧ Forall (λ j, is_Some (machine_times !! job_machine j)) schedule.
Proof.
  induction schedule as [|[[[job_id op] machine] pt] schedule IH];
    intros mt mt' H; simpl in H.
  - injection H as <-. split; [|constructor].
    intros m. destruct (mt !! m); simpl; [f_equal; unfold load; simpl; lia | done].
  - apply bind_ret in H as (t & Ht%getitem_ret & H).
    apply IH in H as [Hmt Hall]. split.
    + intros m. rewrite Hmt, load_cons, lookup_insert.
      case_decide as Hm; [subst; rewrite Ht|]; simpl.
      * f_equal. lia.
      * destruct (mt !! m); simpl; [f_equal; lia | done].
    + constructor; [unfold job_machine; simpl; eauto|].
      eapply Forall_impl; [exact Hall|]. intros j Hj. simpl in Hj.
      rewrite lookup_insert in Hj. case_decide; subst; eauto.
Qed.

Lemma add_times_raise schedule :
  ∀ (machine_times : gmap Z Z) e,
    add_times schedule machine_times = Raise e →
    e = KeyError ∧ Exists (λ j, machine_times !! job_machine j = None) schedule.
Proof.
  induction schedule as [|[[[job_id op] machine] pt] schedule IH];
    intros mt e H; simpl in H; [done|].
  apply bind_raise in H as [[-> Hm]%getitem_raise|(t & Ht%getitem_ret & H)].
  - split; [done|]. by apply Exists_cons_hd.
  - apply IH in H as [-> Hex]. split; [done|]. apply Exists_cons_tl.
    eapply Exists_impl; [exact Hex|]. intros j Hj. simpl in Hj.
    rewrite lookup_insert in Hj. by case_decide.
Qed.

Lemma packed_app rows1 rows2 (t0 : Z) :
  packed (rows1 ++ rows2) t0
  = packed rows1 t0 ++ packed rows2 (t0 + foldr Z.add 0 (job_time <$> rows1)).
Proof.
  revert t0. induction rows1 as [|[[[job_id op] machine] pt] rows1 IH];
    intros t0.
  - simpl. by rewrite Z.add_0_r.
  - cbn [app packed]. rewrite fmap_cons. cbn [foldr]. rewrite IH.
    change (job_time (job_id, op, machine, pt)) with pt. do 3 f_equal. lia.
Qed.

(** [create_schedule] keeps, for each machine, the rows placed so far back
    to back, and in [machine_end_times] the time they take. *)
Lemma place_packs machines rest :
  ∀ done (s : gmap Z (list task)) (ends : gmap Z Z) s',
    (∀ m, s !! m = if decide (m ∈ machines)
                   then Some (packed (on_machine m done) 0) else None) →
    (∀ m, ends !! m = if decide (m ∈ machines)
                      then Some (load done m) else None) →
    place rest s ends = Ret s' →
    (∀ m, s' !! m = if decide (m ∈ machines)
                    then Some (packed (on_machine m (done ++ rest)) 0) else None)
    ∧ Forall (λ j, job_machine j ∈ machines) rest.
Proof.
  induction rest as [|[[[job_id op] machine] pt] rest IH];
    intros done s ends s' Hs Hends H; simpl in H.
  { injection H as <-. rewrite app_nil_r. split; [done | constructor]. }
  apply bind_ret in H as (start & Hstart%getitem_ret & H).
  apply bind_ret in H as (tasks & Htasks%getitem_ret & H).
  rewrite Hends in Hstart. rewrite Hs in Htasks.
  case_decide as Hin; [|done].
  injection Hstart as <-. injection Htasks as <-.
  apply (IH (done ++ [(job_id, op, machine, pt)])) in H.
  - rewrite <- app_assoc in H. destruct H as [H Hall]. split; [exact H|].
    by constructor.
  - intros m. rewrite lookup_insert. unfold on_machine. rewrite filter_app.
    rewrite filter_cons, filter_nil.
    change (job_machine (job_id, op, machine, pt)) with machine.
    destruct (decide (machine = m)) as [->|Hne].
    + rewrite decide_True by done. rewrite packed_app. cbn [packed].
      rewrite Z.add_0_l. reflexivity.
    + rewrite Hs, app_nil_r. done.
  - intros m. rewrite lookup_insert, load_app, load_cons.
    destruct (decide (machine = m)) as [->|Hne].
    + rewrite decide_True by done. f_equal. unfold load at 3, on_machine.
      simpl. lia.
    + rewrite Hends. case_decide; [|done]. f_equal. unfold load at 3, on_machine.
      simpl. lia.
Qed.

Lemma place_raise rest :
  ∀ (s : gmap Z (list task)) (ends : gmap Z Z) e,
    (∀ m, is_Some (s !! m) ↔ is_Some (ends !! m)) →
    place rest s ends = Raise e →
    e = KeyError ∧ Exists (λ j, ends !! job_machine j = None) rest.
Proof.
  induction rest as [|[[[job_id op] machine] pt] rest IH];
    intros s ends e Hdom H; simpl in H; [done|].
  apply bind_raise in H as [[-> Hm]%getitem_raise|(start & Hstart%getitem_ret & H)].
  { split; [done|]. by apply Exists_cons_hd. }
  apply bind_raise in H as [[-> Hm]%getitem_raise|(tasks & Htasks%getitem_ret & H)].
  { exfalso. assert (is_Some (s !! machine)) as [? Hs] by (apply Hdom; eauto).
    by rewrite Hs in Hm. }
  apply IH in H as [-> Hex].
  - split; [done|]. apply Exists_cons_tl.
    eapply Exists_impl; [exact Hex|]. intros j Hj. simpl in Hj.
    rewrite lookup_insert in Hj. by case_decide.
  - intros m. rewrite !lookup_insert. case_decide; [split; eauto | apply Hdom].
Qed.

Lemma packed_ends rows :
  Forall (λ j, 0 <= job_time j) rows →
  ∀ t0 t, t ∈ packed rows t0 →
    task_end t <= t0 + foldr Z.add 0 (job_time <$> rows).
Proof.
  induction 1 as [|[[[job_id op] machine] pt] rows Hpt Hrows IH];
    intros t0 t Ht; simpl in Ht; [by apply elem_of_nil in Ht|].
  unfold job_time in Hpt. simpl in Hpt.
  assert (0 <= foldr Z.add 0 (job_time <$> rows)) as Hpos.
  { clear -Hrows. induction Hrows as [|j rows Hj _ IH]; [done|].
    rewrite fmap_cons. cbn [foldr]. lia. }
  rewrite fmap_cons. cbn [foldr].
  change (job_time (job_id, op, machine, pt)) with pt.
  apply elem_of_cons in Ht as [->|Ht].
  - unfold task_end. simpl. lia.
  - apply IH in Ht. lia.
Qed.

Lemma packed_last rows :
  rows ≠ [] →
  ∀ t0, ∃ t, t ∈ packed rows t0
    ∧ task_end t = t0 + foldr Z.add 0 (job_time <$> rows).
Proof.
  induction rows as [|[[[job_id op] machine] pt] rows IH]; [done|].
  intros _ t0. cbn [packed]. rewrite fmap_cons. cbn [foldr].
  change (job_time (job_id, op, machine, pt)) with pt.
  destruct rows as [|j rows].
  - eexists. split; [apply list_elem_of_here|]. unfold task_end. simpl. lia.
  - destruct (IH ltac:(done) (t0 + pt)) as (t & Ht & Hend).
    exists t. split; [by apply list_elem_of_further|]. rewrite Hend. lia.
Qed.

End main_timelines.

Section main_fitness_facts.
Import Main MainProps TimelineProps.

Lemma create_schedule_ret machines (individual : list job) s :
  create_schedule machines individual = Ret s →
  (∀ m, s !! m = if decide (m ∈ machines)
                 then Some (packed (on_machine m individual) 0) else None)
  ∧ Forall (λ j, job_machine j ∈ machines) individual.
Proof.
  unfold create_schedule. intros H.
  apply (place_packs machines individual []) in H; [done| |].
  - intros m. rewrite lookup_empty_schedule. by case_decide.
  - intros m. rewrite lookup_zero_times. by case_decide.
Qed.

Lemma create_schedule_raise machines (individual : list job) e :
  create_schedule machines individual = Raise e →
  e = KeyError ∧ Exists (λ j, job_machine j ∉ machines) individual.
Proof.
  unfold create_schedule. intros H. apply place_raise in H as [-> Hex].
  - split; [done|]. eapply Exists_impl; [exact Hex|]. intros j Hj. simpl in Hj.
    rewrite lookup_zero_times in Hj. by case_decide.
  - intros m. rewrite lookup_empty_schedule, lookup_zero_times.
    case_decide; split; intros [? Hx]; first [done | eexists; reflexivity].
Qed.

Lemma fitness_ret machines (schedule : list job) v :
  fitness machines schedule = Ret v →
  (∃ m, m ∈ machines ∧ load schedule m = v)
  ∧ (∀ m, m ∈ machines → load schedule m <= v)
  ∧ Forall (λ j, job_machine j ∈ machines) schedule.
Proof.
  unfold fitness. intros (mt & Hmt & Hmax)%bind_ret.
  apply add_times_ret in Hmt as [Hmt Hall].
  apply py_max_ret in Hmax as [Hin Hle]. rewrite Forall_forall in Hle.
  assert (∀ m, mt !! m = if decide (m ∈ machines)
                         then Some (load schedule m) else None) as Hlookup.
  { intros m. rewrite Hmt, lookup_zero_times. by case_decide. }
  split_and!.
  - apply list_elem_of_fmap in Hin as ([m u] & -> & Hu%elem_of_map_to_list).
    rewrite Hlookup in Hu. case_decide; [|done]. injection Hu as <-. by exists m.
  - intros m Hm. apply Hle. apply list_elem_of_fmap.
    exists (m, load schedule m). split; [done|]. apply elem_of_map_to_list.
    by rewrite Hlookup, decide_True.
  - eapply Forall_impl; [exact Hall|]. intros j Hj. simpl in Hj.
    rewrite lookup_zero_times in Hj. case_decide; [done | by destruct Hj].
Qed.

End main_fitness_facts.

(** X17 (the fitness is the largest load of a machine): when [fitness] of
    main.py returns, every row runs on a machine of the list, and the
    value is the largest, over the machines of the list, of the sum of the
    processing times of the rows on that machine. *)
Theorem fitness_is_maximum_load machines (schedule : list Main.job) v :
  Main.fitness machines schedule = Ret v →
  (∃ m, m ∈ machines ∧ TimelineProps.load schedule m = v)
  ∧ (∀ m, m ∈ machines → TimelineProps.load schedule m <= v)
  ∧ Forall (λ j, MainProps.job_machine j ∈ machines) schedule.
Proof. apply fitness_ret. Qed.

(** Machine 1 carries 5 + 4, machine 2 carries 3. *)
Lemma fitness_is_maximum_load_witness :
  (∃ m, m ∈ [1; 2] ∧ TimelineProps.load Scenario.rows m = 9)
  ∧ (∀ m, m ∈ [1; 2] → TimelineProps.load Scenario.rows m <= 9)
  ∧ Forall (λ j, MainProps.job_machine j ∈ [1; 2]) Scenario.rows.
Proof.
  apply (fitness_is_maximum_load [1; 2] Scenario.rows 9).
  vm_compute. reflexivity.
Defined.

(** X18 (the errors of [fitness]): [fitness] of main.py raises [KeyError]
    exactly when some row runs on a machine that is not in the list, and
    [ValueError] (from [max] of no values) exactly when there is neither a
    machine nor a row; it raises nothing else. *)
Theorem fitness_errors machines (schedule : list Main.job) e :
  Main.fitness machines schedule = Raise e
  ↔ (e = KeyError ∧ Exists (λ j, MainProps.job_machine j ∉ machines) schedule)
    ∨ (e = ValueError ∧ machines = [] ∧ schedule = []).
Proof.
  assert (Main.fitness machines schedule = Raise e →
    (e = KeyError ∧ Exists (λ j, MainProps.job_machine j ∉ machines) schedule)
    ∨ (e = ValueError ∧ machines = [] ∧ schedule = [])) as Hraise.
  { unfold Main.fitness. intros [H|(mt & Hmt & H)]%bind_raise.
    - left. apply add_times_raise in H as [-> Hex]. split; [done|].
      eapply Exists_impl; [exact Hex|]. intros j Hj. simpl in Hj.
      rewrite lookup_zero_times in Hj. by case_decide.
    - right. apply add_times_ret in Hmt as [Hmt Hall].
      unfold py_max in H. destruct ((map_to_list mt).*2) eqn:Hvals; [|done].
      injection H as <-. apply fmap_nil_inv, map_to_list_empty_iff in Hvals.
      subst mt.
      assert (machines = []) as ->.
      { destruct machines as [|m machines]; [done|]. specialize (Hmt m).
        rewrite lookup_zero_times, decide_True in Hmt by apply list_elem_of_here.
        by rewrite lookup_empty in Hmt. }
      split_and!; [done..|]. destruct schedule as [|j schedule]; [done|].
      apply Forall_cons in Hall as [[? Hj] _]. rewrite lookup_zero_times in Hj.
      case_decide as Hin; [by apply elem_of_nil in Hin | done]. }
  split; [exact Hraise|]. intros [[-> Hex]|(-> & -> & ->)].
  - destruct (Main.fitness machines schedule) as [v|e'] eqn:E.
    + apply fitness_ret in E as (_ & _ & Hall).
      apply Exists_exists in Hex as (j & Hj & Hout).
      rewrite Forall_forall in Hall. by apply Hall in Hj.
    + clear Hraise. unfold Main.fitness in E.
      apply bind_raise in E as [H|(mt & Hmt & H)].
      * by apply add_times_raise in H as [-> _].
      * apply add_times_ret in Hmt as [_ Hall].
        apply Exists_exists in Hex as (j & Hj & Hout).
        rewrite Forall_forall in Hall. apply Hall in Hj.
        rewrite lookup_zero_times in Hj. case_decide; [done | by destruct Hj].
  - reflexivity.
Qed.

(** X19 ([create_schedule] packs every machine): in the schedule that
    [create_schedule] of main.py returns, the timeline of each machine of
    the list holds the rows of that machine in the order of the individual,
    the first starting at 0 and each next one when the one before it ends;
    no other machine has a timeline. *)
Theorem create_schedule_packs machines (individual : list Main.job) s :
  Main.create_schedule machines individual = Ret s →
  ∀ m, s !! m = if decide (m ∈ machines)
                then Some (TimelineProps.packed
                             (TimelineProps.on_machine m individual) 0)
                else None.
Proof. by intros [? _]%create_schedule_ret. Qed.

Lemma create_schedule_packs_witness :
  ∃ s, Main.create_schedule [1; 2] Scenario.rows = Ret s
       ∧ s !! 1 = Some [(1, 0, 5); (3, 5, 9)]
       ∧ s !! 2 = Some [(2, 0, 3)]
       ∧ s !! 3 = None.
Proof.
  destruct (Main.create_schedule [1; 2] Scenario.rows) as [s|e] eqn:E;
    [|by vm_compute in E].
  exists s. split; [done|].
  pose proof (create_schedule_packs [1; 2] Scenario.rows s E) as H.
  split_and!; rewrite H; vm_compute; reflexivity.
Defined.

(** X20 (the errors of [create_schedule]): [create_schedule] of main.py
    raises exactly when some row of the individual runs on a machine that
    is not in the list of machines, and what it raises is [KeyError]. *)
Theorem create_schedule_errors machines (individual : list Main.job) e :
  Main.create_schedule machines individual = Raise e
  ↔ e = KeyError ∧ Exists (λ j, MainProps.job_machine j ∉ machines) individual.
Proof.
  split; [apply create_schedule_raise|]. intros [-> Hex].
  destruct (Main.create_schedule machines individual) as [s|e'] eqn:E.
  - apply create_schedule_ret in E as [_ Hall].
    apply Exists_exists in Hex as (j & Hj & Hout).
    rewrite Forall_forall in Hall. by apply Hall in Hj.
  - by apply create_schedule_raise in E as [-> _].
Qed.

(** X21 (the fitness is the makespan of the created schedule): when
    [fitness] of main.py returns a value for an individual with no
    negative processing time, [create_schedule] returns a schedule for it
    in which every task ends by that value, and the value is 0 or the end
    of a task of the schedule. *)
Theorem fitness_is_created_makespan machines (individual : list Main.job) v :
  Forall (λ j, 0 <= MainProps.job_time j) individual →
  Main.fitness machines individual = Ret v →
  ∃ s,
    Main.create_schedule machines individual = Ret s
    ∧ (∀ m l t, s !! m = Some l → t ∈ l → MainProps.task_end t <= v)
    ∧ (v = 0 ∨ ∃ m l t, s !! m = Some l ∧ t ∈ l ∧ MainProps.task_end t = v).
Proof.
  intros Hnn (Hmax & Hle & Hall)%fitness_ret.
  destruct (Main.create_schedule machines individual) as [s|e] eqn:E.
  2: { apply create_schedule_raise in E as [_ Hex].
       apply Exists_exists in Hex as (j & Hj & Hout).
       rewrite Forall_forall in Hall. by apply Hall in Hj. }
  apply create_schedule_ret in E as [Hs _].
  assert (∀ m, Forall (λ j, 0 <= MainProps.job_time j)
                 (TimelineProps.on_machine m individual)) as Hnn'.
  { intros m. unfold TimelineProps.on_machine. rewrite Forall_forall in *.
    intros j [_ Hj]%list_elem_of_filter. by apply Hnn. }
  exists s. split_and!; [done| |].
  - intros m l t Hl Ht. rewrite Hs in Hl. case_decide as Hm; [|done].
    injection Hl as <-. apply (packed_ends _ (Hnn' m)) in Ht.
    specialize (Hle m Hm). unfold TimelineProps.load in Hle. lia.
  - destruct Hmax as (m & Hm & Hv).
    destruct (TimelineProps.on_machine m individual) as [|j rows] eqn:Hrows.
    + left. unfold TimelineProps.load in Hv. by rewrite Hrows in Hv.
    + right. destruct (packed_last (j :: rows) ltac:(done) 0) as (t & Ht & Hend).
      exists m, (TimelineProps.packed (j :: rows) 0), t. split_and!; [|done|].
      * by rewrite Hs, decide_True, Hrows.
      * rewrite Hend. unfold TimelineProps.load in Hv. rewrite Hrows in Hv. lia.
Qed.

Lemma fitness_is_created_makespan_witness :
  ∃ s,
    Main.create_schedule [1; 2] Scenario.rows = Ret s
    ∧ (∀ m l t, s !! m = Some l → t ∈ l → MainProps.task_end t <= 9)
    ∧ (9 = 0 ∨ ∃ m l t, s !! m = Some l ∧ t ∈ l ∧ MainProps.task_end t = 9).
Proof.
  apply (fitness_is_created_makespan [1; 2] Scenario.rows 9).
  - repeat constructor; vm_compute; discriminate.
  - vm_compute. reflexivity.
Defined.

(** * main.py: the individuals and the exceptions of the genetic variant *)

Section main_permutations.
Import Main MainProps TimelineProps.

Variable jobs : list job.
Variable machines : list Z.
Variable population_size : Z.
Variable rate_num : Z.
Variable rate_den : positive.

Implicit Types (population : list (list job)) (individual : list job).

(** Every individual is an arrangement of the rows of the jobs table. *)
Definition arrangements population : Prop :=
  Forall (λ ind, ind ≡ₚ jobs) population.

Lemma main_crossover_perm parent1 parent2 t child t' :
  NoDup jobs →
  crossover jobs parent1 parent2 t = Ret (child, t') →
  parent1 ≡ₚ jobs → parent2 ≡ₚ jobs → child ≡ₚ jobs.
Proof.
  unfold crossover.
  intros Hnd (point & t1 & _ & [-> _]%rret_ret)%rbind_ret H1 H2.
  by apply crossover_child_perm.
Qed.

Lemma main_mutate_perm individual t individual' t' :
  mutate rate_num rate_den individual t = Ret (individual', t') →
  individual' ≡ₚ individual.
Proof.
  unfold mutate. intros (hit & t1 & _ & H)%rbind_ret. destruct hit.
  - apply rbind_ret in H as (idx & t2 & _ & H).
    destruct idx as [|i [|j [|? ?]]]; try done.
    apply lift_ret in H as [H _]. by apply swap_perm in H.
  - by apply rret_ret in H as [-> _].
Qed.

Lemma breed_perm population :
  NoDup jobs →
  ∀ next t next' t',
    breed jobs rate_num rate_den population next t = Ret (next', t') →
    arrangements population → arrangements next → arrangements next'.
Proof.
  intros Hnd.
  induction population as [population IH] using (induction_ltof1 _ length).
  unfold ltof in IH. intros next t next' t' H Hpop Hnext.
  destruct population as [|parent1 [|parent2 rest]]; simpl in H.
  - by apply rret_ret in H as [-> _].
  - by apply rret_ret in H as [-> _].
  - apply rbind_ret in H as (child1 & t1 & Hc1 & H).
    apply rbind_ret in H as (child2 & t2 & Hc2 & H).
    apply rbind_ret in H as (child1' & t3 & Hm1 & H).
    apply rbind_ret in H as (child2' & t4 & Hm2 & H).
    apply Forall_cons in Hpop as [Hp1 Hpop].
    apply Forall_cons in Hpop as [Hp2 Hpop].
    eapply IH; [|exact H|done|]; [simpl; lia|].
    apply Forall_app. split; [done|].
    apply main_mutate_perm in Hm1, Hm2.
    repeat constructor.
    + rewrite Hm1. by eapply main_crossover_perm.
    + rewrite Hm2. by eapply main_crossover_perm.
Qed.

Lemma main_generation_perm population t population' children t' :
  NoDup jobs →
  generation jobs machines population_size rate_num rate_den population t
    = Ret (population', children, t') →
  arrangements population → arrangements population'.
Proof.
  intros Hnd. unfold generation.
  intros (ranked & t1 & [Hrank _]%lift_ret & H)%rbind_ret Hpop.
  apply rbind_ret in H as (next & t2 & Hbreed & [[= -> _] _]%rret_ret).
  apply sort_by_fitness_perm in Hrank.
  assert (arrangements (slice_to ranked population_size)) as Hsurv.
  { apply Forall_forall. intros ind Hind%slice_to_subseteq.
    rewrite Hrank in Hind. unfold arrangements in Hpop.
    rewrite Forall_forall in Hpop. by apply Hpop. }
  apply Forall_app. split; [done|].
  eapply breed_perm; [done | exact Hbreed | done | constructor].
Qed.

Lemma main_generations_trace_perm rounds :
  NoDup jobs →
  ∀ population t trace t',
    generations_trace jobs machines population_size rate_num rate_den
      rounds population t = Ret (trace, t') →
    arrangements population → Forall arrangements trace.
Proof.
  intros Hnd.
  induction rounds as [|rounds IH]; intros population t trace t' H Hpop; simpl in H.
  - apply rret_ret in H as [-> _]. by constructor.
  - apply rbind_ret in H as ([population' children] & t1 & Hgen & H).
    apply rbind_ret in H as (later & t2 & Hlater & [-> _]%rret_ret).
    constructor; [done|]. eapply IH; [exact Hlater|].
    by eapply main_generation_perm.
Qed.

Lemma main_genetic_perm generations t s trace t' :
  NoDup jobs →
  genetic_algorithm jobs machines population_size rate_num rate_den generations t
    = Ret (s, trace, t') →
  Forall arrangements trace
  ∧ ∃ best, best ≡ₚ jobs ∧ create_schedule machines best = Ret s.
Proof.
  intros Hnd H. unfold genetic_algorithm in H.
  apply rbind_ret in H as (population & t1 & Hinit & H).
  apply rbind_ret in H as (trace0 & t2 & Htrace & H).
  apply rbind_ret in H as (keys & t3 & [Hkeys _]%lift_ret & H).
  apply rbind_ret in H as (best & t4 & [Hbest _]%lift_ret & H).
  apply rbind_ret in H as (s0 & t5 & [Hs _]%lift_ret & [[= <- <-] _]%rret_ret).
  apply initialize_population_ret in Hinit as [_ Hinit].
  apply main_generations_trace_perm in Htrace; [|done..].
  split; [done|]. exists best. split; [|done].
  apply py_min_elem in Hbest.
  apply list_elem_of_fmap in Hbest as ([f ind] & -> & Hin%elem_of_zip_r).
  pose proof (last_Forall arrangements _ population Htrace Hinit) as Hlast.
  unfold arrangements in Hlast. rewrite Forall_forall in Hlast. by apply Hlast.
Qed.

(** The exceptions. *)

Lemma main_fitness_raise (schedule : list job) e :
  fitness machines schedule = Raise e → e = KeyError ∨ e = ValueError.
Proof.
  unfold fitness. intros [H|(mt & _ & H)]%bind_raise.
  - left. by apply add_times_raise in H as [-> _].
  - right. unfold py_max in H. destruct (_.*2); [by injection H | done].
Qed.

Lemma main_mutate_raise individual t e :
  mutate rate_num rate_den individual t = Raise e → e = ValueError.
Proof.
  unfold mutate. intros [H|(hit & t1 & _ & H)]%rbind_raise.
  { destruct (random_below_ret rate_num rate_den t) as (hit & t1 & Hhit).
    by rewrite Hhit in H. }
  destruct hit; [|done].
  apply rbind_raise in H as [H|(idx & t2 & Hidx & H)];
    [by eapply random_sample_raise|].
  destruct idx as [|i [|j [|? ?]]]; try by inversion H.
  apply random_sample_subseteq in Hidx.
  unfold lift in H. destruct (swap individual i j) as [l|e'] eqn:E; [done|].
  injection H as <-. exfalso. apply swap_raise in E as [_ Hout].
  assert (i ∈ seq 0 (length individual)) as H1 by apply Hidx, list_elem_of_here.
  assert (j ∈ seq 0 (length individual)) as H2
    by apply Hidx, list_elem_of_further, list_elem_of_here.
  apply elem_of_seq in H1, H2. lia.
Qed.

Lemma main_crossover_raise parent1 parent2 t e :
  crossover jobs parent1 parent2 t = Raise e → e = ValueError.
Proof.
  unfold crossover. intros [H|(point & t1 & _ & H)]%rbind_raise; [|done].
  by eapply randint_raise.
Qed.

Lemma breed_raise population :
  ∀ next t e,
    breed jobs rate_num rate_den population next t = Raise e → e = ValueError.
Proof.
  induction population as [population IH] using (induction_ltof1 _ length).
  unfold ltof in IH. intros next t e H.
  destruct population as [|parent1 [|parent2 rest]]; simpl in H; try done.
  apply rbind_raise in H as [H|(child1 & t1 & _ & H)];
    [by eapply main_crossover_raise|].
  apply rbind_raise in H as [H|(child2 & t2 & _ & H)];
    [by eapply main_crossover_raise|].
  apply rbind_raise in H as [H|(child1' & t3 & _ & H)];
    [by eapply main_mutate_raise|].
  apply rbind_raise in H as [H|(child2' & t4 & _ & H)];
    [by eapply main_mutate_raise|].
  eapply IH; [|exact H]. simpl. lia.
Qed.

Lemma main_scores_raise population e :
  map_outcome (fitness machines) population = Raise e →
  e = KeyError ∨ e = ValueError.
Proof.
  intros (x & _ & H)%map_outcome_raise. by eapply main_fitness_raise.
Qed.

Lemma main_generation_raise population t e :
  generation jobs machines population_size rate_num rate_den population t
    = Raise e →
  e = KeyError ∨ e = ValueError.
Proof.
  unfold generation. intros [H|(ranked & t1 & _ & H)]%rbind_raise.
  - apply lift_raise in H. unfold sort_by_fitness in H.
    apply bind_raise in H as [H|(keys & _ & H)]; [|done].
    by eapply main_scores_raise.
  - right. apply rbind_raise in H as [H|(next & t2 & _ & H)]; [|done].
    by eapply breed_raise.
Qed.

Lemma main_generations_trace_raise rounds :
  ∀ population t e,
    generations_trace jobs machines population_size rate_num rate_den
      rounds population t = Raise e →
    e = KeyError ∨ e = ValueError.
Proof.
  induction rounds as [|rounds IH]; intros population t e H; simpl in H; [done|].
  apply rbind_raise in H as [H|([population' children] & t1 & _ & H)];
    [by eapply main_generation_raise|].
  apply rbind_raise in H as [H|(later & t2 & _ & H)]; [|done].
  by eapply IH.
Qed.

Lemma main_genetic_raise generations t e :
  genetic_algorithm jobs machines population_size rate_num rate_den generations t
    = Raise e →
  e = KeyError ∨ e = ValueError.
Proof.
  unfold genetic_algorithm.
  intros [H|(population & t1 & _ & H)]%rbind_raise.
  { right. apply repeat_rand_raise in H as [t0 H]. by eapply random_sample_raise. }
  apply rbind_raise in H as [H|(trace & t2 & _ & H)];
    [by eapply main_generations_trace_raise|].
  apply rbind_raise in H as [H|(keys & t3 & _ & H)].
  { apply lift_raise in H. by eapply main_scores_raise. }
  apply rbind_raise in H as [H|(best & t4 & _ & H)].
  { right. apply lift_raise in H. unfold py_min in H.
    destruct (zip _ _); [by injection H | done]. }
  apply rbind_raise in H as [H|(s & t5 & _ & H)]; [|done].
  left. apply lift_raise in H. by apply create_schedule_raise in H as [-> _].
Qed.

End main_permutations.

(** X22 (the genetic variant of main.py schedules every row once): for a
    jobs table that holds no row twice, every individual of every
    population of a run of [genetic_algorithm] of main.py is an arrangement
    of the rows with none missing and none twice, and the schedule returned
    is the one [create_schedule] builds from such an arrangement: on each
    machine of the list its rows back to back from time 0. *)
Theorem main_genetic_schedules_every_row (jobs : list Main.job) machines
    population_size rate_num rate_den generations tape s trace tape' :
  NoDup jobs →
  Main.genetic_algorithm jobs machines population_size rate_num rate_den
    generations tape = Ret (s, trace, tape') →
  Forall (Forall (λ ind, ind ≡ₚ jobs)) trace
  ∧ ∃ best,
      best ≡ₚ jobs
      ∧ ∀ m, s !! m = if decide (m ∈ machines)
                      then Some (TimelineProps.packed
                                   (TimelineProps.on_machine m best) 0)
                      else None.
Proof.
  intros Hnd H.
  destruct (main_genetic_perm _ _ _ _ _ _ _ _ _ _ Hnd H)
    as (Htrace & best & Hbest & Hs).
  split; [exact Htrace|]. exists best. split; [done|].
  by apply create_schedule_ret in Hs as [? _].
Qed.

Lemma main_genetic_schedules_every_row_witness :
  ∃ s trace tape',
    Main.genetic_algorithm Scenario.rows [1; 2] 4 1 10 2
      [3; 1; 4; 1; 5; 9; 2; 6]%N = Ret (s, trace, tape')
    ∧ Forall (Forall (λ ind, ind ≡ₚ Scenario.rows)) trace
    ∧ ∃ best,
        best ≡ₚ Scenario.rows
        ∧ ∀ m, s !! m = if decide (m ∈ [1; 2])
                        then Some (TimelineProps.packed
                                     (TimelineProps.on_machine m best) 0)
                        else None.
Proof.
  destruct (Main.genetic_algorithm Scenario.rows [1; 2] 4 1 10 2
              [3; 1; 4; 1; 5; 9; 2; 6]%N)
    as [[[s trace] tape']|e] eqn:E; [|by vm_compute in E].
  exists s, trace, tape'. split; [done|].
  apply (main_genetic_schedules_every_row Scenario.rows [1; 2] 4 1 10 2
           [3; 1; 4; 1; 5; 9; 2; 6]%N s trace tape'); [by_compute | exact E].
Defined.

(** X23 (the exceptions of the genetic variant of main.py):
    [genetic_algorithm] of main.py raises nothing but [KeyError] (a row on
    a machine that is not in the list) and [ValueError] (from
    [random.randint] on an empty jobs table, [random.sample] on an
    individual of fewer than two rows, [max] or [min]); the two positions a
    mutation swaps are always inside the individual. *)
Theorem main_genetic_exceptions (jobs : list Main.job) machines
    population_size rate_num rate_den generations tape e :
  Main.genetic_algorithm jobs machines population_size rate_num rate_den
    generations tape = Raise e →
  e = KeyError ∨ e = ValueError.
Proof. apply main_genetic_raise. Qed.

(** An empty jobs table: [random.randint(0, -1)] raises. *)
Lemma main_genetic_exceptions_witness :
  ∃ e,
    Main.genetic_algorithm [] [1; 2] 4 1 10 2 [] = Raise e
    ∧ (e = KeyError ∨ e = ValueError).
Proof.
  destruct (Main.genetic_algorithm [] [1; 2] 4 1 10 2 [])
    as [r|e] eqn:E; [by vm_compute in E|].
  exists e. split; [done|].
  exact (main_genetic_exceptions [] [1; 2] 4 1 10 2 [] e E).
Defined.

(** * main.py: which schedule the backtracking search returns, and when it raises *)

Section backtracking_order.
Import Main MainProps TimelineProps.

Implicit Types (s : gmap Z (list task)) (m : Z).

(** When the loop over the start times succeeds, it does so at the first
    candidate from which the remaining jobs can be placed. *)
Lemma try_starts_first rest job_id m pt :
  ∀ cands s s',
    try_starts (backtrack_from rest) job_id m pt cands s = Ret (true, s') →
    ∃ pre start post s1,
      cands = pre ++ start :: post
      ∧ is_safe s m start (start + pt) = Ret true
      ∧ append s m (job_id, start, start + pt) = Ret s1
      ∧ backtrack_from rest s1 = Ret (true, s')
      ∧ ∀ start' starts' s1' s'',
          start' ∈ pre →
          is_safe s m start' (start' + pt) = Ret true →
          append s m (job_id, start', start' + pt) = Ret s1' →
          ¬ placement rest s1' starts' s''.
Proof.
  induction cands as [|c cands IH]; intros s s' H; cbn [try_starts] in H; [done|].
  apply bind_ret in H as (safe & Hsafe & H). destruct safe.
  - apply bind_ret in H as (committed & Hcommit & H).
    apply bind_ret in H as ([success result] & Hnext & H). destruct success.
    + injection H as <-. exists [], c, cands, committed.
      split_and!; try done. intros ? ? ? ? Hin. by apply elem_of_nil in Hin.
    + apply bind_ret in H as (undone & Hpop & H).
      pose proof (backtrack_from_ret _ _ _ _ Hnext) as [-> Hnone].
      rewrite (pop_append _ _ _ _ Hcommit) in Hpop. injection Hpop as <-.
      destruct (IH _ _ H) as (pre & start & post & s1 & -> & ? & ? & ? & Hpre).
      exists (c :: pre), start, post, s1. split_and!; try done.
      intros start' starts' s1' s'' [->|Hin]%elem_of_cons Hsafe' Happ.
      * rewrite Hcommit in Happ. injection Happ as <-. apply Hnone.
      * by eapply Hpre.
  - destruct (IH _ _ H) as (pre & start & post & s1 & -> & ? & ? & ? & Hpre).
    exists (c :: pre), start, post, s1. split_and!; try done.
    intros start' starts' s1' s'' [->|Hin]%elem_of_cons Hsafe' Happ.
    + congruence.
    + by eapply Hpre.
Qed.

(** The start times of the window are tried in increasing order. *)
Lemma horizon_sorted (pre post : list Z) (start y : Z) :
  horizon = pre ++ start :: post → y ∈ post → start < y.
Proof.
  intros Hh [k Hk]%list_elem_of_lookup_1.
  assert (horizon !! length pre = Some start) as H1
    by (rewrite Hh; by apply list_lookup_middle).
  assert (horizon !! (length pre + S k)%nat = Some y) as H2.
  { rewrite Hh, lookup_app_r by lia.
    replace (length pre + S k - length pre)%nat with (S k) by lia. done. }
  unfold horizon in H1, H2.
  apply lookup_seqZ in H1 as [-> _]. apply lookup_seqZ in H2 as [-> _]. lia.
Qed.

Lemma backtrack_from_least remaining :
  ∀ s s',
    backtrack_from remaining s = Ret (true, s') →
    ∃ starts,
      placement remaining s starts s'
      ∧ ∀ starts' s'', placement remaining s starts' s'' → lex_le starts starts'.
Proof.
  induction remaining as [|[[[job_id op] m] pt] rest IH]; intros s s' H.
  - injection H as <-. exists []. split; [constructor | done].
  - rewrite backtrack_from_cons in H.
    destruct (try_starts_first _ _ _ _ _ _ _ H)
      as (pre & start & post & s1 & Hh & Hsafe & Happ & Hrest & Hpre).
    destruct (IH _ _ Hrest) as (starts & Hp & Hmin).
    exists (start :: starts). split.
    + econstructor; [|exact Hsafe|exact Happ|exact Hp].
      rewrite Hh. apply elem_of_app. right. apply list_elem_of_here.
    + intros starts' s'' Hp'.
      inversion Hp' as [|? ? ? ? ? ? start0 s2 starts0 ? Hin0 Hsafe0 Happ0 Hp0];
        subst.
      cbn [lex_le]. rewrite Hh in Hin0.
      apply elem_of_app in Hin0 as [Hin0|[->|Hin0]%elem_of_cons].
      * exfalso. by eapply Hpre.
      * right. split; [done|]. rewrite Happ in Happ0. injection Happ0 as <-.
        by eapply Hmin.
      * left. by eapply horizon_sorted.
Qed.

Lemma horizon_cons : horizon = 0 :: seqZ 1 99.
Proof. reflexivity. Qed.

(** On the way to a job whose machine has no timeline, the search raises
    when the jobs before it can be placed, and fails when they cannot. *)
Lemma try_starts_unknown (good : list job) (bad : job) (rest : list job)
    job_id m pt s (l : list task) :
  s !! m = Some l →
  s !! job_machine bad = None →
  (∀ s1, s1 !! job_machine bad = None →
     (∀ j, j ∈ good → is_Some (s !! job_machine j) → is_Some (s1 !! job_machine j)) →
     (backtrack_from (good ++ bad :: rest) s1 = Raise KeyError
      ∧ ∃ starts s', placement good s1 starts s')
     ∨ (backtrack_from (good ++ bad :: rest) s1 = Ret (false, s1)
        ∧ ∀ starts s', ¬ placement good s1 starts s')) →
  ∀ cands,
    (try_starts (backtrack_from (good ++ bad :: rest)) job_id m pt cands s
       = Raise KeyError
     ∧ ∃ start starts s1 s',
         start ∈ cands
         ∧ is_safe s m start (start + pt) = Ret true
         ∧ append s m (job_id, start, start + pt) = Ret s1
         ∧ placement good s1 starts s')
    ∨ (try_starts (backtrack_from (good ++ bad :: rest)) job_id m pt cands s
         = Ret (false, s)
       ∧ ∀ start starts s1 s',
           start ∈ cands →
           is_safe s m start (start + pt) = Ret true →
           append s m (job_id, start, start + pt) = Ret s1 →
           ¬ placement good s1 starts s').
Proof.
  intros Hl Hbad Hnext. induction cands as [|c cands IH]; cbn [try_starts].
  { right. split; [done|]. intros ? ? ? ? Hin. by apply elem_of_nil in Hin. }
  destruct (is_safe s m c (c + pt)) as [safe|e] eqn:Hsafe.
  2: { apply bind_raise in Hsafe as [[_ Hnone]%getitem_raise|(? & _ & ?)];
         [congruence | done]. }
  cbn [bind]. destruct safe.
  - destruct (append s m (job_id, c, c + pt)) as [s1|e] eqn:Happ.
    2: { apply bind_raise in Happ as [[_ Hnone]%getitem_raise|(? & _ & ?)];
           [congruence | done]. }
    cbn [bind]. pose proof Happ as (l' & Hl' & Hs1)%append_ret.
    assert (m ≠ job_machine bad) as Hm by congruence.
    destruct (Hnext s1) as [[Hraise Hplace]|[Hfail Hnone]].
    + subst s1. by rewrite lookup_insert_ne.
    + intros j _ Hj. subst s1. rewrite lookup_insert. case_decide; eauto.
    + left. rewrite Hraise. split; [done|].
      destruct Hplace as (starts & s' & Hp). exists c, starts, s1, s'.
      split_and!; [apply list_elem_of_here | done..].
    + rewrite Hfail. cbn [bind]. rewrite (pop_append _ _ _ _ Happ). cbn [bind].
      destruct IH as [[Hraise (start & starts & s2 & s' & ? & ? & ? & ?)]|[Hret Hall]].
      * left. split; [done|]. exists start, starts, s2, s'.
        split_and!; [by apply list_elem_of_further | done..].
      * right. split; [done|].
        intros start starts s2 s' [->|Hin]%elem_of_cons Hsafe' Happ'.
        -- rewrite Happ in Happ'. injection Happ' as <-. apply Hnone.
        -- by eapply Hall.
  - destruct IH as [[Hraise (start & starts & s2 & s' & ? & ? & ? & ?)]|[Hret Hall]].
    + left. split; [done|]. exists start, starts, s2, s'.
      split_and!; [by apply list_elem_of_further | done..].
    + right. split; [done|].
      intros start starts s2 s' [->|Hin]%elem_of_cons Hsafe' Happ'.
      * congruence.
      * by eapply Hall.
Qed.

Lemma backtrack_from_unknown (bad : job) (rest : list job) (good : list job) :
  ∀ s,
    s !! job_machine bad = None →
    Forall (λ j, is_Some (s !! job_machine j)) good →
    (backtrack_from (good ++ bad :: rest) s = Raise KeyError
     ∧ ∃ starts s', placement good s starts s')
    ∨ (backtrack_from (good ++ bad :: rest) s = Ret (false, s)
       ∧ ∀ starts s', ¬ placement good s starts s').
Proof.
  induction good as [|[[[job_id op] m] pt] good IH]; intros s Hbad Hgood.
  - left. split; [|exists [], s; constructor].
    cbn [app]. destruct bad as [[[bid bop] bm] bpt].
    rewrite backtrack_from_cons, horizon_cons. cbn [try_starts].
    unfold job_machine in Hbad. simpl in Hbad.
    unfold is_safe, getitem. by rewrite Hbad.
  - apply Forall_cons in Hgood as [[l Hl] Hgood].
    change (job_machine (job_id, op, m, pt)) with m in Hl.
    rewrite <- app_comm_cons, backtrack_from_cons.
    destruct (try_starts_unknown good bad rest job_id m pt s l Hl Hbad) with
      (cands := horizon)
      as [[Hraise (start & starts & s1 & s' & Hin & Hsafe & Happ & Hp)]|[Hret Hall]].
    + intros s1 Hbad1 Hdom. apply IH; [done|].
      rewrite Forall_forall in Hgood. apply Forall_forall.
      intros j Hj. apply Hdom; [done|]. by apply Hgood.
    + left. split; [done|]. exists (start :: starts), s'.
      by econstructor.
    + right. split; [done|]. intros starts s' Hp.
      inversion Hp as [|? ? ? ? ? ? start0 s2 starts0 ? Hin0 Hsafe0 Happ0 Hp0];
        subst.
      by eapply Hall.
Qed.

Lemma first_such {A : Type} (P : A → Prop) `{∀ x, Decision (P x)} (l : list A) :
  Exists P l → ∃ l1 x l2, l = l1 ++ x :: l2 ∧ Forall (λ y, ¬ P y) l1 ∧ P x.
Proof.
  induction l as [|y l IH]; intros Hex; [by apply Exists_nil in Hex|].
  destruct (decide (P y)) as [Hy|Hy].
  - exists [], y, l. split_and!; [done | constructor | done].
  - apply Exists_cons in Hex as [?|Hex]; [done|].
    destruct (IH Hex) as (l1 & x & l2 & -> & Hl1 & Hx).
    exists (y :: l1), x, l2. split_and!; [done | by constructor | done].
Qed.

End backtracking_order.

(** X24 (the backtracking search returns the first feasible assignment):
    the schedule that [backtracking_algorithm] of main.py returns gives the
    jobs a feasible list of start times that is least in the lexicographic
    order among all feasible lists of start times of the window: the first
    job starts as early as any feasible assignment allows, the second as
    early as possible given the first, and so on. *)
Theorem backtracking_returns_least_starts (jobs : list Main.job) machines s :
  Main.backtracking_algorithm jobs machines = Ret (Some s) →
  ∃ starts,
    MainProps.feasible jobs machines starts
    ∧ (∀ m, s !! m = if decide (m ∈ machines)
                     then Some (MainProps.assigned jobs starts m) else None)
    ∧ ∀ starts', MainProps.feasible jobs machines starts' →
        TimelineProps.lex_le starts starts'.
Proof.
  unfold Main.backtracking_algorithm, Main.backtrack.
  rewrite decide_False by (simpl; lia). rewrite drop_0.
  intros ([success result] & Hb & H)%bind_ret.
  destruct success; [|done]. injection H as ->.
  destruct (backtrack_from_least _ _ _ Hb) as (starts & Hp & Hmin).
  exists starts. split_and!.
  - apply feasible_placement. eauto.
  - apply placement_assigned in Hp as (_ & _ & _ & Hs' & _).
    intros m. rewrite Hs', lookup_empty_schedule. by case_decide.
  - intros starts' [s'' Hp']%feasible_placement. by eapply Hmin.
Qed.

(** Two jobs of 5 and 3 time units on machine 1: the starts are 0 and 5. *)
Lemma backtracking_returns_least_starts_witness :
  ∃ s starts,
    Main.backtracking_algorithm [(1, 1, 1, 5); (2, 1, 1, 3)] [1] = Ret (Some s)
    ∧ MainProps.feasible [(1, 1, 1, 5); (2, 1, 1, 3)] [1] starts
    ∧ (∀ m, s !! m = if decide (m ∈ [1])
                     then Some (MainProps.assigned
                                  [(1, 1, 1, 5); (2, 1, 1, 3)] starts m)
                     else None)
    ∧ ∀ starts', MainProps.feasible [(1, 1, 1, 5); (2, 1, 1, 3)] [1] starts' →
        TimelineProps.lex_le starts starts'.
Proof.
  destruct (Main.backtracking_algorithm [(1, 1, 1, 5); (2, 1, 1, 3)] [1])
    as [[s|]|e] eqn:E; [|by vm_compute in E..].
  destruct (backtracking_returns_least_starts
              [(1, 1, 1, 5); (2, 1, 1, 3)] [1] s E) as (starts & H).
  by exists s, starts.
Defined.

(** X25 (when the backtracking search raises): [backtracking_algorithm] of
    main.py raises exactly when the jobs before the first job whose
    machine is not in the list of machines have a feasible assignment of
    start times, so that the search reaches that job; what it raises is
    [KeyError]. When those jobs have no feasible assignment it reports
    that there is no schedule and the unknown machine goes unnoticed. *)
Theorem backtracking_key_error (jobs : list Main.job) machines e :
  Main.backtracking_algorithm jobs machines = Raise e
  ↔ e = KeyError
    ∧ ∃ good bad rest starts,
        jobs = good ++ bad :: rest
        ∧ Forall (λ j, MainProps.job_machine j ∈ machines) good
        ∧ (MainProps.job_machine bad ∉ machines)
        ∧ MainProps.feasible good machines starts.
Proof.
  assert (∀ good bad rest,
    Forall (λ j, MainProps.job_machine j ∈ machines) good →
    MainProps.job_machine bad ∉ machines →
    (Main.backtracking_algorithm (good ++ bad :: rest) machines = Raise KeyError
     ∧ ∃ starts, MainProps.feasible good machines starts)
    ∨ (Main.backtracking_algorithm (good ++ bad :: rest) machines = Ret None
       ∧ ∀ starts, ¬ MainProps.feasible good machines starts)) as Hcases.
  { intros good bad rest Hgood Hbad.
    unfold Main.backtracking_algorithm, Main.backtrack.
    rewrite decide_False by (simpl; lia). rewrite drop_0.
    destruct (backtrack_from_unknown bad rest good (Main.empty_schedule machines))
      as [[-> (starts & s' & Hp)]|[-> Hnone]].
    - rewrite lookup_empty_schedule. by rewrite decide_False.
    - eapply Forall_impl; [exact Hgood|]. intros j Hj. simpl in Hj.
      rewrite lookup_empty_schedule, decide_True by done. eauto.
    - left. split; [done|]. exists starts. apply feasible_placement. eauto.
    - right. split; [done|]. intros starts [s' Hp]%feasible_placement.
      by eapply Hnone. }
  split.
  - intros H. pose proof (backtracking_algorithm_spec jobs machines) as Hspec.
    rewrite H in Hspec. destruct Hspec as [-> Hex]. split; [done|].
    apply first_such in Hex as (good & bad & rest & -> & Hgood & Hbad);
      [|apply _].
    assert (Forall (λ j, MainProps.job_machine j ∈ machines) good) as Hgood'.
    { eapply Forall_impl; [exact Hgood|]. intros j Hj. simpl in Hj.
      by destruct (decide (MainProps.job_machine j ∈ machines)). }
    destruct (Hcases good bad rest Hgood' Hbad) as [[_ [starts Hf]]|[Hnone _]].
    + by exists good, bad, rest, starts.
    + by rewrite H in Hnone.
  - intros (-> & good & bad & rest & starts & -> & Hgood & Hbad & Hf).
    destruct (Hcases good bad rest Hgood Hbad) as [[Hraise _]|[_ Hnone]];
      [done|]. by apply Hnone in Hf.
Qed.

(** * main.py: when the backtracking search packs the machines *)

Section backtracking_packs.
Import Main MainProps TimelineProps.

Implicit Types (s : gmap Z (list task)) (m : Z) (rows : list job).

Lemma try_starts_skip next job_id m pt s (pre cands : list Z) :
  (∀ c, c ∈ pre → is_safe s m c (c + pt) = Ret false) →
  try_starts next job_id m pt (pre ++ cands) s
  = try_starts next job_id m pt cands s.
Proof.
  induction pre as [|c pre IH]; intros H; [done|].
  cbn [app try_starts]. rewrite H by apply list_elem_of_here. cbn [bind].
  apply IH. intros c' ?. apply H. by apply list_elem_of_further.
Qed.

(** Rows of positive length, back to back, leave no gap. *)
Lemma packed_covers rows :
  Forall (λ j, 0 < job_time j) rows →
  ∀ t0 c, t0 <= c < t0 + foldr Z.add 0 (job_time <$> rows) →
    ∃ t, t ∈ packed rows t0 ∧ task_start t <= c < task_end t.
Proof.
  induction 1 as [|[[[job_id op] machine] pt] rows Hpt Hrows IH]; intros t0 c Hc.
  { simpl in Hc. lia. }
  rewrite fmap_cons in Hc. cbn [foldr] in Hc.
  change (job_time (job_id, op, machine, pt)) with pt in Hc, Hpt.
  cbn [packed]. destruct (decide (c < t0 + pt)) as [Hlt|Hge].
  - exists (job_id, t0, t0 + pt). split; [apply list_elem_of_here|].
    unfold task_start, task_end. simpl. lia.
  - destruct (IH (t0 + pt) c) as (t & Ht & Hin); [lia|].
    exists t. split; [by apply list_elem_of_further | done].
Qed.

Lemma is_safe_busy s m (l : list task) (c pt : Z) :
  s !! m = Some l → 0 < pt →
  (∃ t, t ∈ l ∧ task_start t <= c < task_end t) →
  is_safe s m c (c + pt) = Ret false.
Proof.
  intros Hl Hpt (t & Ht & Hc). apply is_safe_ret. exists l. split; [done|].
  destruct (forallb _ l) eqn:E; [|done]. exfalso.
  rewrite forallb_forall in E. apply list_elem_of_In, E, bool_decide_eq_true in Ht.
  unfold task_start, task_end in Hc. lia.
Qed.

Lemma is_safe_free s m (l : list task) (c pt : Z) :
  s !! m = Some l → (∀ t, t ∈ l → task_end t <= c) →
  is_safe s m c (c + pt) = Ret true.
Proof.
  intros Hl Hends. apply is_safe_true. exists l. split; [done|].
  apply Forall_forall. intros t Ht. right. by apply Hends.
Qed.

Lemma load_nonneg rows m : Forall (λ j, 0 < job_time j) rows → 0 <= load rows m.
Proof.
  induction 1 as [|[[[job_id op] machine] pt] rows Hpt _ IH]; [done|].
  rewrite load_cons. change (job_time (job_id, op, machine, pt)) with pt in Hpt.
  case_decide; lia.
Qed.

Lemma on_machine_positive rows m :
  Forall (λ j, 0 < job_time j) rows →
  Forall (λ j, 0 < job_time j) (on_machine m rows).
Proof.
  rewrite !Forall_forall. intros H j [_ Hj]%list_elem_of_filter. by apply H.
Qed.

Lemma backtrack_from_packs (machines : list Z) rest :
  ∀ done s,
    (∀ m, s !! m = if decide (m ∈ machines)
                   then Some (packed (on_machine m done) 0) else None) →
    Forall (λ j, 0 < job_time j) (done ++ rest) →
    Forall (λ j, job_machine j ∈ machines) rest →
    (∀ m, m ∈ machines → load (done ++ rest) m <= 100) →
    ∃ s',
      backtrack_from rest s = Ret (true, s')
      ∧ ∀ m, s' !! m = if decide (m ∈ machines)
                       then Some (packed (on_machine m (done ++ rest)) 0)
                       else None.
Proof.
  induction rest as [|[[[job_id op] machine] pt] rest IH];
    intros done s Hs Hpos Hknown Hload.
  { exists s. rewrite app_nil_r. done. }
  apply Forall_cons in Hknown as [Hm Hknown].
  change (job_machine (job_id, op, machine, pt)) with machine in Hm.
  pose proof Hpos as [Hpos_done Hpos_rest]%Forall_app.
  apply Forall_cons in Hpos_rest as [Hpt Hpos_rest].
  change (job_time (job_id, op, machine, pt)) with pt in Hpt.
  set (E := load done machine).
  assert (0 <= E) as HE0 by (by apply load_nonneg).
  assert (E + pt <= 100) as HE.
  { specialize (Hload machine Hm). rewrite load_app, load_cons in Hload.
    rewrite decide_True in Hload by done.
    pose proof (load_nonneg rest machine Hpos_rest). unfold E. lia. }
  assert (s !! machine = Some (packed (on_machine machine done) 0)) as Hl
    by (by rewrite Hs, decide_True).
  assert (horizon = seqZ 0 E ++ E :: seqZ (E + 1) (99 - E)) as Hh.
  { unfold horizon. replace 100 with (E + (100 - E)) at 1 by lia.
    rewrite seqZ_app by lia. f_equal. rewrite seqZ_cons by lia.
    repeat (f_equal; try lia). }
  rewrite backtrack_from_cons, Hh, try_starts_skip.
  2: { intros c Hc%elem_of_seqZ. eapply is_safe_busy; [exact Hl | done |].
       apply packed_covers; [by apply on_machine_positive|].
       fold (load done machine). fold E. lia. }
  cbn [try_starts].
  rewrite (is_safe_free s machine _ E pt Hl).
  2: { intros t Ht. apply packed_ends in Ht.
       - fold (load done machine) in Ht. fold E in Ht. lia.
       - eapply Forall_impl; [by apply on_machine_positive|].
         intros j Hj. simpl in Hj. lia. }
  cbn [bind].
  rewrite (proj2 (append_ret s machine (job_id, E, E + pt) _)
             (ex_intro _ _ (conj Hl eq_refl))).
  cbn [bind].
  match goal with
  | |- context [backtrack_from rest ?s1] =>
      destruct (IH (done ++ [(job_id, op, machine, pt)]) s1) as (s' & Hb & Hs')
  end.
  - intros m. rewrite lookup_insert. unfold on_machine. rewrite filter_app.
    rewrite filter_cons, filter_nil.
    change (job_machine (job_id, op, machine, pt)) with machine.
    destruct (decide (machine = m)) as [<-|Hne].
    + rewrite decide_True by done. rewrite packed_app. cbn [packed].
      rewrite Z.add_0_l. reflexivity.
    + rewrite Hs, app_nil_r. done.
  - by rewrite <- app_assoc.
  - done.
  - intros m ?. rewrite <- app_assoc. by apply Hload.
  - rewrite Hb. cbn [bind]. exists s'. split; [done|].
    intros m. rewrite Hs'. by rewrite <- app_assoc.
Qed.

End backtracking_packs.

(** X26 (the two solvers of main.py agree on jobs that fit): when every
    processing time is positive, every job runs on a machine of the list
    and the jobs of each machine take at most 100 time units together, the
    backtracking search returns exactly the schedule that [create_schedule]
    builds from the jobs in the order given: on each machine its jobs back
    to back from time 0. *)
Theorem backtracking_agrees_with_create_schedule (jobs : list Main.job) machines :
  Forall (λ j, 0 < MainProps.job_time j) jobs →
  Forall (λ j, MainProps.job_machine j ∈ machines) jobs →
  Forall (λ m, TimelineProps.load jobs m <= 100) machines →
  ∃ s,
    Main.create_schedule machines jobs = Ret s
    ∧ Main.backtracking_algorithm jobs machines = Ret (Some s).
Proof.
  intros Hpos Hknown Hload.
  destruct (backtrack_from_packs machines jobs [] (Main.empty_schedule machines))
    as (s' & Hb & Hs'); try done.
  - intros m. rewrite lookup_empty_schedule. by case_decide.
  - intros m Hm. rewrite Forall_forall in Hload. by apply Hload.
  - destruct (Main.create_schedule machines jobs) as [s|e] eqn:E.
    + exists s. split; [done|].
      apply create_schedule_ret in E as [Hs _].
      assert (s' = s) as -> by (apply map_eq; intros m; by rewrite Hs, Hs').
      unfold Main.backtracking_algorithm, Main.backtrack.
      rewrite decide_False by (simpl; lia). rewrite drop_0, Hb. done.
    + apply create_schedule_raise in E as [_ Hex].
      apply Exists_exists in Hex as (j & Hj & Hout).
      rewrite Forall_forall in Hknown. by apply Hknown in Hj.
Qed.

Lemma backtracking_agrees_with_create_schedule_witness :
  ∃ s,
    Main.create_schedule [1; 2] Scenario.rows = Ret s
    ∧ Main.backtracking_algorithm Scenario.rows [1; 2] = Ret (Some s).
Proof.
  apply (backtracking_agrees_with_create_schedule Scenario.rows [1; 2]).
  - repeat constructor.
  - repeat constructor; by_compute.
  - repeat constructor; vm_compute; discriminate.
Defined.

(** * GeneticAlgorithm.py: what a finite best makespan means *)

Section genetic_makespan.
Import Scheduler GeneticAlgorithm.

(** The makespan returned is the evaluation of the order returned. *)
Lemma genetic_algorithm_makespan self population_size generations rate_num
    rate_den t best makespan self' trace t' :
  genetic_algorithm self population_size generations rate_num rate_den t
    = Ret (best, makespan, self', trace, t') →
  evaluate_schedule self best = Ret makespan.
Proof.
  unfold genetic_algorithm. intros (population & t1 & _ & H)%rbind_ret.
  apply rbind_ret in H as (trace0 & t2 & _ & H).
  apply rbind_ret in H as (scores & t3 & _ & H).
  apply rbind_ret in H as (best0 & t4 & _ & H).
  apply rbind_ret in H as (mk & t5 & [Hmk _]%lift_ret & H).
  apply rbind_ret in H as (self1 & t6 & _ & H).
  by apply rret_ret in H as [[= <- <- <- <-] _].
Qed.

End genetic_makespan.

(** X27 (a finite best makespan reverses the dependencies): when
    [genetic_algorithm] of GeneticAlgorithm.py, run on a freshly
    constructed scheduler, returns a finite makespan, the order it returns
    and schedules places the successor of every dependency between jobs
    before its predecessor: the orders that respect a dependency are the
    ones [evaluate_schedule] scores infinity. *)
Theorem genetic_finite_makespan_reverses_dependencies js deps ms self
    population_size generations rate_num rate_den tape best m self' trace tape' :
  Scheduler.init js deps ms = Ret self →
  GeneticAlgorithm.genetic_algorithm self population_size generations
    rate_num rate_den tape
    = Ret (best, GeneticAlgorithm.Finite m, self', trace, tape') →
  ∀ p q, (p, q) ∈ deps → p ∈ Scheduler.job_id <$> js →
    OrderProps.before best q p.
Proof.
  intros Hinit H p q Hpq Hp.
  pose proof (init_keys_NoDup _ _ _ _ Hinit) as Hkeys.
  destruct (genetic_algorithm_perm _ Hkeys _ _ _ _ _ _ _ _ _ _ H)
    as (_ & Hbest & _).
  apply genetic_algorithm_makespan, evaluate_schedule_ret in H. simpl in H.
  destruct (kahn_run _ _ _ _ Hinit)
    as (topo & d' & _ & _ & _ & _ & _ & _ & _ & Hg & _).
  assert (p ∈ best) as [i Hi]%list_elem_of_lookup_1.
  { rewrite Hbest. by apply (init_keys _ _ _ _ Hinit). }
  assert (q ∈ take i best) as [k Hk]%list_elem_of_lookup_1.
  { apply (H (take i best) p (drop (S i) best) q).
    - symmetry. by apply take_drop_middle.
    - rewrite Hg. apply list_elem_of_fmap. exists (p, q). split; [done|].
      by apply list_elem_of_filter. }
  apply lookup_take_Some in Hk as [Hk Hlt]. by exists k, i.
Qed.

(** Job 2 depends on job 1; with the generator always drawing 0 the
    algorithm returns the order [2, 1] with makespan 5. *)
Lemma genetic_finite_makespan_reverses_dependencies_witness :
  ∃ self best m self' trace tape',
    Scheduler.init Scenario.apart_jobs Scenario.apart_dependencies
      Scenario.apart_machines = Ret self
    ∧ GeneticAlgorithm.genetic_algorithm self 4 1 1 10 []
      = Ret (best, GeneticAlgorithm.Finite m, self', trace, tape')
    ∧ OrderProps.before best 2 1.
Proof.
  destruct (Scheduler.init Scenario.apart_jobs Scenario.apart_dependencies
              Scenario.apart_machines) as [self|e] eqn:E; [|by vm_compute in E].
  destruct (GeneticAlgorithm.genetic_algorithm self 4 1 1 10 [])
    as [[[[[best [m|]] self'] trace] tape']|e] eqn:E1.
  - exists self, best, m, self', trace, tape'. split_and!; [done..|].
    apply (genetic_finite_makespan_reverses_dependencies Scenario.apart_jobs
             Scenario.apart_dependencies Scenario.apart_machines self
             4 1 1 10 [] best m self' trace tape' E E1 1 2); by_compute.
  - exfalso. revert E1. injection E as <-. by vm_compute.
  - exfalso. revert E1. injection E as <-. by vm_compute.
Defined.
